(** * c-args-parser: a shallow embedding of the parsing core

    The development follows [src/c-args-parser.h]: the positional validator,
    the option lookup helpers, the lookahead heuristic, the environment and
    default overlay, the per-level option parser, the dispatcher and the
    byte-size reader; and, of the help output, the positional usage
    builders, the alias joiner, the word wrapper and the fixed buffers of
    the usage line and of the command rows.

    Conventions of the embedding.
    - A C string is a [string]; reading [s[k]] is [String.get k s], so the
      terminating NUL is [None].  A nullable pointer is an [option].
    - [int] values are [Z]; [unsigned] and [uint8_t] arithmetic is written
      with its wrap-around.
    - The caller-owned context [void *user] is a value of an arbitrary type
      [U], threaded through callbacks and handlers.
    - What the engine makes observable (callback invocations, builtin
      output, help rendering, the handler call) is recorded in an event log;
      diagnostics written to the error sink are not recorded.
    - A bounded character buffer is the [string] it holds up to its
      terminator, with the cursor the code keeps beside it; a call whose
      behaviour C leaves undefined has no result ([None]). *)

From Stdlib Require Import ZArith List String Ascii Bool Lia Floats Uint63.
Import ListNotations.
Local Open Scope string_scope.
Local Open Scope Z_scope.

(** ** Characters and C strings *)

Definition isdigit (c : option ascii) : bool :=
  match c with
  | Some a => (48 <=? Z.of_N (N_of_ascii a)) && (Z.of_N (N_of_ascii a) <=? 57)
  | None => false
  end.

(** [toupper] in the C locale, on a character and on what [s[k]] reads. *)
Definition upcase (a : ascii) : ascii :=
  let n := N_of_ascii a in
  if ((97 <=? n) && (n <=? 122))%N then ascii_of_N (n - 32) else a.

Definition toupper (c : option ascii) : option ascii := option_map upcase c.

Definition is_char (c : option ascii) (a : ascii) : bool :=
  match c with
  | Some b => Ascii.eqb b a
  | None => false
  end.

Definition is_nul (c : option ascii) : bool :=
  match c with
  | Some _ => false
  | None => true
  end.

(** [s + n] on a C string. *)
Fixpoint advance (n : nat) (s : string) : string :=
  match n, s with
  | O, _ => s
  | S n', String _ s' => advance n' s'
  | S _, EmptyString => EmptyString
  end.

(** [strchr(s, c)]: the offset of the first [c] in [s]. *)
Fixpoint strchr (s : string) (c : ascii) : option nat :=
  match s with
  | EmptyString => None
  | String a s' =>
      if Ascii.eqb a c then Some O
      else match strchr s' c with
           | Some k => Some (S k)
           | None => None
           end
  end.

(** [memcpy(buf, s, len); buf[len] = 0]. *)
Fixpoint prefix (len : nat) (s : string) : string :=
  match len, s with
  | O, _ => EmptyString
  | S n, String a s' => String a (prefix n s')
  | S _, EmptyString => EmptyString
  end.

(** ** Public constants *)

Inductive cargs_arg_kind : Set :=
| CARGS_ARG_NONE
| CARGS_ARG_REQUIRED
| CARGS_ARG_OPTIONAL.

Definition CARGS_GRP_NONE : Z := 0.
Definition CARGS_GRP_XOR : Z := 1.
Definition CARGS_GRP_REQ_ONE : Z := 2.

Definition CARGS_OK : Z := 0.
Definition CARGS_DONE : Z := 1.
Definition CARGS_ERR_UNKNOWN : Z := -1.
Definition CARGS_ERR_MISSING_VAL : Z := -2.
Definition CARGS_ERR_BAD_FORMAT : Z := -3.
Definition CARGS_ERR_GROUP : Z := -4.
Definition CARGS_ERR_POSITIONAL : Z := -5.
Definition CARGS_ERR_TOO_MANY : Z := -6.

Definition CARGS_POS_INF : Z := 65535.

(** [enum { MAXG = 33 }] of [cargs_parse_opts_level]. *)
Definition MAXG : Z := 33.

(** ** Machine integers *)

(** Reduction to [unsigned] / [uint32_t]. *)
Definition u32 (z : Z) : Z := z mod 2 ^ 32.

(** Reduction to [uint8_t]. *)
Definition u8 (z : Z) : Z := z mod 2 ^ 8.

(** The cast [(int)u] of an [unsigned] value. *)
Definition to_int (u : Z) : Z := if u <? 2 ^ 31 then u else u - 2 ^ 32.

Definition INT_MAX : Z := 2 ^ 31 - 1.

(** ** Data model *)

Record cargs_pos : Type := mk_pos {
  pos_name : option string;
  pos_desc : option string;
  pos_min : Z;   (* uint16_t *)
  pos_max : Z    (* uint16_t, CARGS_POS_INF for unbounded *)
}.

Record cargs_env : Type := mk_env {
  env_prog : option string;
  env_version : option string;
  env_author : option string;
  env_auto_help : bool;
  env_auto_version : bool;
  env_auto_author : bool
}.

Section DataModel.

Variable U : Type.

(** The callback type [cargs_cb]: it receives the value (absent for NULL)
    and the context; the returned pair is the status and the context as the
    callback left it. *)
Definition cargs_cb : Type := option string -> U -> Z * U.

Record cargs_opt : Type := mk_opt {
  opt_long_name : option string;
  opt_short_name : ascii;          (* zero if none *)
  opt_arg : cargs_arg_kind;
  opt_cb : option cargs_cb;
  opt_env : option string;
  opt_def : option string;
  opt_group : Z;                   (* uint8_t *)
  opt_group_policy : Z             (* uint8_t *)
}.

#[local] Unset Elimination Schemes.
Inductive cargs_cmd : Type := mk_cmd {
  cmd_name : option string;
  cmd_opts : list cargs_opt;
  cmd_subs : list cargs_cmd;
  cmd_aliases : list (option string);
  cmd_pos : list cargs_pos;
  cmd_run : option (list string -> U -> Z * U)
}.

#[local] Set Elimination Schemes.

(** What a call makes observable, in order. *)
Inductive event : Type :=
| EvCallback (o : cargs_opt) (value : option string)
| EvHelp (cmd : option cargs_cmd) (path : list string)
| EvPrint (line : string)
| EvRun (cmd : cargs_cmd) (args : list string).

End DataModel.

Arguments mk_opt {U}.
Arguments opt_long_name {U}.
Arguments opt_short_name {U}.
Arguments opt_arg {U}.
Arguments opt_cb {U}.
Arguments opt_env {U}.
Arguments opt_def {U}.
Arguments opt_group {U}.
Arguments opt_group_policy {U}.
Arguments mk_cmd {U}.
Arguments cmd_name {U}.
Arguments cmd_opts {U}.
Arguments cmd_subs {U}.
Arguments cmd_aliases {U}.
Arguments cmd_pos {U}.
Arguments cmd_run {U}.
Arguments EvCallback {U}.
Arguments EvHelp {U}.
Arguments EvPrint {U}.
Arguments EvRun {U}.

(** ** Positional validator *)

(** The summing loop of [cargs_validate_positional]. *)
Fixpoint pos_sums (pos : list cargs_pos) (sum_min sum_max : Z) (has_inf : bool)
  : Z * Z * bool :=
  match pos with
  | [] => (sum_min, sum_max, has_inf)
  | p :: rest =>
      let sum_min := u32 (sum_min + pos_min p) in
      if pos_max p =? CARGS_POS_INF
      then pos_sums rest sum_min sum_max true
      else pos_sums rest sum_min (u32 (sum_max + pos_max p)) has_inf
  end.

Definition validate_schema (pos : list cargs_pos) (argc : Z) : Z :=
  match pos with
  | [] => CARGS_OK
  | _ =>
      let '(sum_min, sum_max, has_inf) := pos_sums pos 0 0 false in
      if argc <? to_int sum_min then CARGS_ERR_POSITIONAL
      else if negb has_inf && (to_int sum_max <? argc) then CARGS_ERR_TOO_MANY
      else CARGS_OK
  end.

Definition cargs_validate_positional {U : Type}
  (cmd : option (cargs_cmd U)) (argc : Z) : Z :=
  match cmd with
  | None => CARGS_OK
  | Some c => validate_schema (cmd_pos c) argc
  end.

(** ** Option lookup and the lookahead heuristic *)

Section Lookup.

Context {U : Type}.

Fixpoint cargs_find_long (opts : list (cargs_opt U)) (name : string)
  : option (cargs_opt U) :=
  match opts with
  | [] => None
  | o :: rest =>
      match opt_long_name o with
      | Some l => if String.eqb l name then Some o else cargs_find_long rest name
      | None => cargs_find_long rest name
      end
  end.

Fixpoint find_short_from (opts : list (cargs_opt U)) (c : ascii)
  : option (cargs_opt U) :=
  match opts with
  | [] => None
  | o :: rest =>
      if Ascii.eqb (opt_short_name o) c then Some o else find_short_from rest c
  end.

Definition cargs_find_short (opts : list (cargs_opt U)) (c : ascii)
  : option (cargs_opt U) :=
  if Ascii.eqb c Ascii.zero then None else find_short_from opts c.

Fixpoint alias_matches (aliases : list (option string)) (name : string) : bool :=
  match aliases with
  | [] => false
  | Some a :: rest => String.eqb a name || alias_matches rest name
  | None :: rest => alias_matches rest name
  end.

Definition sub_matches (c : cargs_cmd U) (name : string) : bool :=
  match cmd_name c with
  | Some n => String.eqb n name || alias_matches (cmd_aliases c) name
  | None => alias_matches (cmd_aliases c) name
  end.

Fixpoint find_sub_from (subs : list (cargs_cmd U)) (name : string)
  : option (cargs_cmd U) :=
  match subs with
  | [] => None
  | c :: rest => if sub_matches c name then Some c else find_sub_from rest name
  end.

Definition cargs_find_sub (cmd : cargs_cmd U) (name : string)
  : option (cargs_cmd U) :=
  find_sub_from (cmd_subs cmd) name.

End Lookup.

Definition cargs_token_looks_numeric (s : string) : bool :=
  match String.get 0 s with
  | None => false
  | Some c0 =>
      if Ascii.eqb c0 "+" || Ascii.eqb c0 "-" then
        if isdigit (String.get 1 s) then true
        else if is_char (String.get 1 s) "." && isdigit (String.get 2 s) then true
        else if is_char (String.get 1 s) "0"
                && (is_char (String.get 2 s) "x" || is_char (String.get 2 s) "X")
             then true
        else false
      else isdigit (Some c0)
  end.

(** The test guarding [val = argv[++i]] for an OPTIONAL option. *)
Definition takes_next (nxt : string) : bool :=
  negb (String.eqb nxt "--")
  && (negb (is_char (String.get 0 nxt) "-") || cargs_token_looks_numeric nxt).

(** ** Group counters and masks *)

(** [counts[g]++] on the [uint8_t counts[MAXG]] array, seen as a map from
    the index to the cell. *)
Definition bump (g : Z) (counts : Z -> Z) : Z -> Z :=
  fun x => if x =? g then u8 (counts x + 1) else counts x.

Section Engine.

Context {U : Type}.

(** The process environment as [getenv] sees it. *)
Variable getenv : string -> option string.

Variable env : option cargs_env.

(** [env && env->flag]. *)
Definition env_flag (f : cargs_env -> bool) : bool :=
  match env with
  | Some e => f e
  | None => false
  end.

Definition env_text (f : cargs_env -> option string) : option string :=
  match env with
  | Some e => f e
  | None => None
  end.

(** The parser's local variables that survive an iteration of the scan,
    together with the context and the event log. *)
Record pstate : Type := mk_pstate {
  ps_i : nat;
  ps_counts : Z -> Z;
  ps_user : U;
  ps_log : list (event U)
}.

Definition set_i (k : nat) (st : pstate) : pstate :=
  mk_pstate k (ps_counts st) (ps_user st) (ps_log st).

(** [if (o->group && o->group < MAXG) counts[o->group]++]. *)
Definition count_group (o : cargs_opt U) (counts : Z -> Z) : Z -> Z :=
  if negb (opt_group o =? 0) && (opt_group o <? MAXG)
  then bump (opt_group o) counts
  else counts.

(** The mask-building loop at the head of [cargs_parse_opts_level]; both
    masks are [uint32_t], so every [|=] is reduced to 32 bits. *)
Fixpoint group_masks (opts : list (cargs_opt U)) (xor_mask req_mask : Z) : Z * Z :=
  match opts with
  | [] => (xor_mask, req_mask)
  | o :: rest =>
      if (0 <? opt_group o) && (opt_group o <? MAXG) then
        let xor_mask :=
          if opt_group_policy o =? CARGS_GRP_XOR
          then u32 (Z.lor xor_mask (Z.shiftl 1 (opt_group o)))
          else xor_mask in
        let req_mask :=
          if opt_group_policy o =? CARGS_GRP_REQ_ONE
          then u32 (Z.lor req_mask (Z.shiftl 1 (opt_group o)))
          else req_mask in
        group_masks rest xor_mask req_mask
      else group_masks rest xor_mask req_mask
  end.

(** The enforcement loop [for (g = 1; g < MAXG; g++)], [n] groups left. *)
Fixpoint enforce_from (n : nat) (g : Z) (xor_mask req_mask : Z) (counts : Z -> Z) : Z :=
  match n with
  | O => CARGS_OK
  | S n' =>
      if negb (Z.land xor_mask (Z.shiftl 1 g) =? 0) && (1 <? counts g)
      then CARGS_ERR_GROUP
      else if negb (Z.land req_mask (Z.shiftl 1 g) =? 0) && negb (counts g =? 1)
      then CARGS_ERR_GROUP
      else enforce_from n' (g + 1) xor_mask req_mask counts
  end.

Definition enforce_groups (xor_mask req_mask : Z) (counts : Z -> Z) : Z :=
  enforce_from 32 1 xor_mask req_mask counts.

(** ** Environment and default overlay *)

Definition overlay_value (o : cargs_opt U) : option string :=
  let val := match opt_env o with
             | Some e => getenv e
             | None => None
             end in
  match val with
  | Some v => Some v
  | None => opt_def o
  end.

Fixpoint cargs_apply_env_defaults_level (opts : list (cargs_opt U)) (st : pstate)
  : pstate :=
  match opts with
  | [] => st
  | o :: rest =>
      match overlay_value o, opt_cb o with
      | Some v, Some f =>
          let '(_, u') := f (Some v) (ps_user st) in
          cargs_apply_env_defaults_level rest
            (mk_pstate (ps_i st) (count_group o (ps_counts st)) u'
               (ps_log st ++ [EvCallback o (Some v)]))
      | _, _ => cargs_apply_env_defaults_level rest st
      end
  end.

(** ** One level of option parsing *)

(** How one iteration of the scan ends: round the loop again, out of the
    loop, or out of the function with a status (the context and the log are
    then all that is left of the state). *)
Inductive step_result : Type :=
| Continue (st : pstate)
| Break (st : pstate)
| Return (rc : Z) (user : U) (log : list (event U)).

(** [return rc] from the state [st]. *)
Definition bail_out (rc : Z) (st : pstate) : step_result :=
  Return rc (ps_user st) (ps_log st).

(** [rc = o->cb ? o->cb(val, user) : CARGS_OK]. *)
Definition invoke (o : cargs_opt U) (val : option string) (st : pstate) : Z * pstate :=
  match opt_cb o with
  | Some f =>
      let '(rc, u') := f val (ps_user st) in
      (rc, mk_pstate (ps_i st) (ps_counts st) u' (ps_log st ++ [EvCallback o val]))
  | None => (CARGS_OK, st)
  end.

(** The state once the group of [o] has been counted. *)
Definition counted (o : cargs_opt U) (st : pstate) : pstate :=
  mk_pstate (ps_i st) (count_group o (ps_counts st)) (ps_user st) (ps_log st).

(** The tail shared by every matched option: call back, give up on a
    negative status, count the group, go on with [k]. *)
Definition matched (o : cargs_opt U) (val : option string) (st : pstate)
  (k : pstate -> step_result) : step_result :=
  let '(rc, st') := invoke o val st in
  if rc <? 0 then bail_out rc st'
  else k (counted o st').

(** The log a step result carries. *)
Definition result_log (r : step_result) : list (event U) :=
  match r with
  | Continue st => ps_log st
  | Break st => ps_log st
  | Return _ _ log => log
  end.


Section Level.

Variable cmd : option (cargs_cmd U).
Variable argv : list string.
Variables allow_version allow_author : bool.
Variable path : list string.

Definition level_opts : list (cargs_opt U) :=
  match cmd with
  | Some c => cmd_opts c
  | None => []
  end.

(** A builtin printed its output: [return CARGS_DONE]. *)
Definition intercept (e : event U) (st : pstate) : step_result :=
  Return CARGS_DONE (ps_user st) (ps_log st ++ [e]).

(** The builtins tried before a long name is looked up. *)
Definition long_builtin (name : string) : option (event U) :=
  if env_flag env_auto_help && String.eqb name "help"
  then Some (EvHelp cmd path)
  else
    match (if allow_version && env_flag env_auto_version && String.eqb name "version"
           then env_text env_version else None) with
    | Some v => Some (EvPrint v)
    | None =>
        match (if allow_author && env_flag env_auto_author && String.eqb name "author"
               then env_text env_author else None) with
        | Some a => Some (EvPrint a)
        | None => None
        end
    end.

(** The builtins tried before a short character is looked up. *)
Definition short_builtin (c : ascii) : option (event U) :=
  if env_flag env_auto_help && Ascii.eqb c "h"
  then Some (EvHelp cmd path)
  else
    match (if allow_version && env_flag env_auto_version && Ascii.eqb c "v"
           then env_text env_version else None) with
    | Some v => Some (EvPrint v)
    | None => None
    end.

(** The long-option branch, after the name and the attached value have
    been split; [st] still points at the option token. *)
Definition long_named (name : string) (val : option string) (st : pstate)
  : step_result :=
  match long_builtin name with
  | Some e => intercept e st
  | None =>
      match cargs_find_long level_opts name with
      | None => bail_out CARGS_ERR_UNKNOWN st
      | Some o =>
          let next := fun st' => Continue (set_i (S (ps_i st')) st') in
          match opt_arg o with
          | CARGS_ARG_REQUIRED =>
              match val with
              | Some _ => matched o val st next
              | None =>
                  match nth_error argv (S (ps_i st)) with
                  | Some v => matched o (Some v) (set_i (S (ps_i st)) st) next
                  | None => bail_out CARGS_ERR_MISSING_VAL st
                  end
              end
          | CARGS_ARG_OPTIONAL =>
              match val with
              | Some _ => matched o val st next
              | None =>
                  match nth_error argv (S (ps_i st)) with
                  | Some nxt =>
                      if takes_next nxt
                      then matched o (Some nxt) (set_i (S (ps_i st)) st) next
                      else matched o None st next
                  | None => matched o None st next
                  end
              end
          | CARGS_ARG_NONE =>
              match val with
              | Some _ => bail_out CARGS_ERR_BAD_FORMAT st
              | None => matched o None st next
              end
          end
      end
  end.

(** [arg] starts with two dashes and is not the bare double dash. *)
Definition long_option (arg : string) (st : pstate) : step_result :=
  let name := advance 2 arg in
  match strchr name "=" with
  | Some len =>
      if (96 <=? len)%nat then bail_out CARGS_ERR_BAD_FORMAT st
      else long_named (prefix len name) (Some (advance (S len) name)) st
  | None => long_named name None st
  end.

(** The character loop of a short cluster; [p] is what is left of the
    token and [ps_i st] already points past it. *)
Fixpoint short_cluster (p : string) (st : pstate) : step_result :=
  match p with
  | EmptyString => Continue st
  | String c p' =>
      match short_builtin c with
      | Some e => intercept e st
      | None =>
          match cargs_find_short level_opts c with
          | None => bail_out CARGS_ERR_UNKNOWN st
          | Some o =>
              match opt_arg o with
              | CARGS_ARG_REQUIRED =>
                  match p' with
                  | String _ _ => matched o (Some p') st Continue
                  | EmptyString =>
                      match nth_error argv (ps_i st) with
                      | Some v => matched o (Some v) (set_i (S (ps_i st)) st) Continue
                      | None => bail_out CARGS_ERR_MISSING_VAL st
                      end
                  end
              | CARGS_ARG_OPTIONAL =>
                  match p' with
                  | String _ _ => matched o (Some p') st Continue
                  | EmptyString =>
                      match nth_error argv (ps_i st) with
                      | Some nxt =>
                          if takes_next nxt
                          then matched o (Some nxt) (set_i (S (ps_i st)) st) Continue
                          else matched o None st Continue
                      | None => matched o None st Continue
                      end
                  end
              | CARGS_ARG_NONE => matched o None st (short_cluster p')
              end
          end
      end
  end.

(** One iteration of [while (i < argc)]. *)
Definition scan_step (st : pstate) : step_result :=
  match nth_error argv (ps_i st) with
  | None => Break st
  | Some arg =>
      if negb (is_char (String.get 0 arg) "-") then Break st
      else if String.eqb arg "--" then Break (set_i (S (ps_i st)) st)
      else if is_char (String.get 1 arg) "-" then long_option arg st
      else short_cluster (advance 1 arg) (set_i (S (ps_i st)) st)
  end.

Inductive scan_result : Type :=
| ScanEnd (st : pstate)
| ScanReturn (rc : Z) (user : U) (log : list (event U)).

(** The scan loop; [None] only when [fuel] iterations were not enough. *)
Fixpoint scan_loop (fuel : nat) (st : pstate) : option scan_result :=
  match fuel with
  | O => None
  | S fuel' =>
      match scan_step st with
      | Continue st' => scan_loop fuel' st'
      | Break st' => Some (ScanEnd st')
      | Return rc u l => Some (ScanReturn rc u l)
      end
  end.

Record level_result : Type := mk_level {
  lvl_rc : Z;
  lvl_idx : nat;
  lvl_user : U;
  lvl_log : list (event U)
}.

(** The overlay followed by the token scan, from index [idx]. *)
Definition level_scan (idx : nat) (user : U) (log : list (event U))
  : option scan_result :=
  scan_loop (S (List.length argv))
    (cargs_apply_env_defaults_level level_opts
       (mk_pstate idx (fun _ => 0) user log)).

(** [*idx] is written only on the paths that return [CARGS_OK] (the index
    the scan reached) or [CARGS_DONE] (the argument count). *)
Definition cargs_parse_opts_level (idx : nat) (user : U) (log : list (event U))
  : option level_result :=
  let '(xor_mask, req_mask) := group_masks level_opts 0 0 in
  match level_scan idx user log with
  | None => None
  | Some (ScanReturn rc u l) =>
      Some (mk_level rc (if rc <? 0 then idx else List.length argv) u l)
  | Some (ScanEnd st) =>
      let rc := enforce_groups xor_mask req_mask (ps_counts st) in
      Some (mk_level rc (if rc <? 0 then idx else ps_i st) (ps_user st) (ps_log st))
  end.

End Level.

(** ** Dispatcher *)

Record dispatch_result : Type := mk_dispatch {
  d_rc : Z;
  d_user : U;
  d_log : list (event U)
}.

Section Dispatch.

Variable argv : list string.

(** The code after the descent loop: validate the leftover tokens against
    the deepest command, then run its handler or render its help. *)
Definition dispatch_leaf (cmd : cargs_cmd U) (i : nat) (path : list string)
  (user : U) (log : list (event U)) : dispatch_result :=
  let pos_rc :=
    cargs_validate_positional (Some cmd) (Z.of_nat (List.length argv) - Z.of_nat i) in
  if pos_rc <? 0 then mk_dispatch pos_rc user log
  else
    match cmd_run cmd with
    | Some run =>
        let args := skipn i argv in
        let '(rc, u') := run args user in
        mk_dispatch rc u' (log ++ [EvRun cmd args])
    | None => mk_dispatch CARGS_OK user (log ++ [EvHelp (Some cmd) path])
    end.

(** The descent loop [while (1)]; [path] holds the [depth] names matched so
    far (at most 16 are kept). *)
Fixpoint dispatch_loop (fuel : nat) (cmd : cargs_cmd U) (i : nat)
  (path : list string) (user : U) (log : list (event U))
  : option dispatch_result :=
  match fuel with
  | O => None
  | S fuel' =>
      let root_level := (List.length path =? 0)%nat in
      match cargs_parse_opts_level (Some cmd) argv root_level root_level path
              i user log with
      | None => None
      | Some r =>
          if lvl_rc r =? CARGS_DONE
          then Some (mk_dispatch CARGS_OK (lvl_user r) (lvl_log r))
          else if lvl_rc r <? 0
          then Some (mk_dispatch (lvl_rc r) (lvl_user r) (lvl_log r))
          else
            let i := lvl_idx r in
            match nth_error argv i with
            | None => Some (dispatch_leaf cmd i path (lvl_user r) (lvl_log r))
            | Some tok =>
                if is_char (String.get 0 tok) "-"
                then Some (dispatch_leaf cmd i path (lvl_user r) (lvl_log r))
                else
                  match cargs_find_sub cmd tok with
                  | None => Some (dispatch_leaf cmd i path (lvl_user r) (lvl_log r))
                  | Some sub =>
                      let path' :=
                        if (List.length path <? 16)%nat then (path ++ [tok])%list else path in
                      dispatch_loop fuel' sub (S i) path' (lvl_user r) (lvl_log r)
                  end
            end
      end
  end.

End Dispatch.

(** [argv] may be NULL; only its first [argc] entries are looked at. *)
Definition cargs_dispatch (root : option (cargs_cmd U)) (argc : Z)
  (argv : option (list string)) (user : U) : option dispatch_result :=
  match root, argv with
  | Some r, Some av =>
      if argc <=? 0 then Some (mk_dispatch CARGS_ERR_BAD_FORMAT user [])
      else
        let av := firstn (Z.to_nat argc) av in
        dispatch_loop av (S (List.length av)) r 1 [] user []
  | _, _ => Some (mk_dispatch CARGS_ERR_BAD_FORMAT user [])
  end.

End Engine.

Arguments Continue {U}.
Arguments Break {U}.
Arguments Return {U}.
Arguments ScanEnd {U}.
Arguments ScanReturn {U}.

(** ** A sample tree, after the one of [tests/cargs.tests.c] *)

(** The options, the commands and their aliases are those of the test
    tree.  Two things are simpler here: the callbacks store the value
    they are given without parsing it as a number (so the jobs callback
    accepts any value, the empty string included), and every command has
    a handler, the intermediate command [remote] too. *)

Module Sample.

(** The test state, reduced to what the callbacks and handlers below
    write: the jobs and limit values and the name of the handler that ran. *)
Record tstate : Type := mk_tstate {
  jobs : option string;
  limit : option (option string);
  ran : list string
}.

Definition t0 : tstate := mk_tstate None None [].

Definition cb_jobs : cargs_cb tstate := fun v u =>
  match v with
  | Some _ => (CARGS_OK, mk_tstate v (limit u) (ran u))
  | None => (CARGS_ERR_MISSING_VAL, u)
  end.

Definition cb_limit_opt : cargs_cb tstate := fun v u =>
  (CARGS_OK, mk_tstate (jobs u) (Some v) (ran u)).

Definition cb_flag : cargs_cb tstate := fun _ u => (CARGS_OK, u).

Definition runner (who : string) : list string -> tstate -> Z * tstate :=
  fun _ u => (CARGS_OK, mk_tstate (jobs u) (limit u) (ran u ++ [who])).

Definition o_verbose : cargs_opt tstate :=
  mk_opt (Some "verbose") "V" CARGS_ARG_NONE (Some cb_flag) None None 0 CARGS_GRP_NONE.
Definition o_jobs : cargs_opt tstate :=
  mk_opt (Some "jobs") "j" CARGS_ARG_REQUIRED (Some cb_jobs) None None 0 CARGS_GRP_NONE.
Definition o_limit : cargs_opt tstate :=
  mk_opt (Some "limit") "l" CARGS_ARG_OPTIONAL (Some cb_limit_opt) None None 0 CARGS_GRP_NONE.
Definition o_json : cargs_opt tstate :=
  mk_opt (Some "json") Ascii.zero CARGS_ARG_NONE (Some cb_flag) None None 1 CARGS_GRP_XOR.
Definition o_yaml : cargs_opt tstate :=
  mk_opt (Some "yaml") Ascii.zero CARGS_ARG_NONE (Some cb_flag) None None 1 CARGS_GRP_XOR.

Definition root_opts : list (cargs_opt tstate) :=
  [o_verbose; o_jobs; o_limit; o_json; o_yaml].

Definition POS (name : string) : cargs_pos := mk_pos (Some name) None 1 1.

Definition remote_add : cargs_cmd tstate :=
  mk_cmd (Some "add") [] [] [] [POS "NAME"; POS "URL"] (Some (runner "add")).
Definition remote_remove : cargs_cmd tstate :=
  mk_cmd (Some "remove") [] [] [Some "rm"] [POS "NAME"] (Some (runner "remove")).
Definition remote : cargs_cmd tstate :=
  mk_cmd (Some "remote") [] [remote_add; remote_remove] [] [] (Some (runner "remote")).
Definition root : cargs_cmd tstate :=
  mk_cmd None root_opts [remote] [] [] (Some (runner "root")).

Definition test_env : option cargs_env :=
  Some (mk_env (Some "t") (Some "v1") (Some "a") true true true).

Definition no_getenv : string -> option string := fun _ => None.

Definition run_vec (argv : list string) : option (dispatch_result (U := tstate)) :=
  cargs_dispatch no_getenv test_env (Some root) (Z.of_nat (List.length argv))
    (Some argv) t0.

(** Two flags sharing a mutually exclusive group whose id is [g]. *)
Definition o_a (g : Z) : cargs_opt tstate :=
  mk_opt (Some "alpha") "a" CARGS_ARG_NONE (Some cb_flag) None None g CARGS_GRP_XOR.
Definition o_b (g : Z) : cargs_opt tstate :=
  mk_opt (Some "beta") "b" CARGS_ARG_NONE (Some cb_flag) None None g CARGS_GRP_XOR.

Definition pair_root (g : Z) : cargs_cmd tstate :=
  mk_cmd None [o_a g; o_b g] [] [] [] (Some (runner "root")).

Definition run_pair (g : Z) (argv : list string)
  : option (dispatch_result (U := tstate)) :=
  cargs_dispatch no_getenv test_env (Some (pair_root g))
    (Z.of_nat (List.length argv)) (Some argv) t0.

End Sample.

(** ** Byte-size reader *)

Definition is_blank (a : ascii) : bool :=
  Ascii.eqb a " " || Ascii.eqb a "009".

(** The loop that moves [end] past spaces and tabs. *)
Fixpoint skip_blanks (s : string) : string :=
  match s with
  | String a s' => if is_blank a then skip_blanks s' else s
  | EmptyString => EmptyString
  end.

Definition k10 : float := 1000%float.
Definition k2 : float := 1024%float.

(** [k * k * ... * k] with [n] factors, associated to the left as the
    products of the switch are. *)
Fixpoint fpow (k : float) (n : nat) : float :=
  match n with
  | O => 1%float
  | S O => k
  | S n' => PrimFloat.mul (fpow k n') k
  end.

(** The case labels K, M, G, T, P, E and the exponent each one stands for. *)
Definition unit_power (a : option ascii) : option nat :=
  if is_char a "K" then Some 1%nat
  else if is_char a "M" then Some 2%nat
  else if is_char a "G" then Some 3%nat
  else if is_char a "T" then Some 4%nat
  else if is_char a "P" then Some 5%nat
  else if is_char a "E" then Some 6%nat
  else None.

(** The [switch (a)] of [cargs_read_size], entered when [end] is not at the terminator:
    the multiplier and [end] as the switch leaves it, or [None] for the
    [default: return -1]. *)
Definition size_unit (prefer_iec : bool) (endp : string) : option (float * string) :=
  let a := toupper (String.get 0 endp) in
  let b := toupper (String.get 1 endp) in
  let c := toupper (String.get 2 endp) in
  if is_char a "B" then Some (1%float, advance 1 endp)
  else
    match unit_power a with
    | Some n =>
        let mult :=
          if is_char b "I" then fpow k2 n
          else if prefer_iec then fpow k2 n else fpow k10 n in
        let skip :=
          if is_char b "I" && (is_char c "B" || is_nul c)
          then (if is_char c "B" then 3 else 2)%nat
          else (if is_char b "B" then 2 else 1)%nat in
        Some (mult, advance skip endp)
    | None => None
    end.

(** The whole suffix block: the switch, the trailing blanks and the test
    that nothing else follows.  [None] is the [return -1]. *)
Definition size_suffix (prefer_iec : bool) (endp : string) : option float :=
  match endp with
  | EmptyString => Some 1%float
  | String _ _ =>
      match size_unit prefer_iec endp with
      | Some (mult, endp') =>
          match skip_blanks endp' with
          | EmptyString => Some mult
          | String _ _ => None
          end
      | None => None
      end
  end.

(** [(double)UINT64_MAX], which rounds to two to the 64. *)
Definition UINT64_MAX_double : float := 18446744073709551616%float.

(** The conversion [(uint64_t)x]: truncation toward zero, defined when the
    truncated value fits. *)
Definition double_to_uint64 (x : float) : option Z :=
  match Prim2SF x with
  | S754_zero _ => Some 0
  | S754_finite sign m e =>
      let t := if 0 <=? e then Z.shiftl (Z.pos m) e else Z.shiftr (Z.pos m) (- e) in
      if t =? 0 then Some 0
      else if sign then None
      else if t <? 2 ^ 64 then Some t else None
  | S754_infinity _ => None
  | S754_nan => None
  end.

Inductive size_result : Type :=
| SizeError                 (* return -1 *)
| SizeOk (bytes : Z)        (* return 0 with the bytes stored *)
| SizeUndefined.            (* the final conversion is out of range *)

Section SizeReader.

(** The C library's [strtod]: the value read and how many characters of
    the input it consumed (none when no conversion was made). *)
Variable strtod : string -> float * nat.

Definition cargs_read_size (s : option string) (prefer_iec : bool) : size_result :=
  match s with
  | None => SizeError
  | Some EmptyString => SizeError
  | Some s =>
      let '(v, n) := strtod s in
      if (n =? 0)%nat then SizeError
      else
        match size_suffix prefer_iec (skip_blanks (advance n s)) with
        | None => SizeError
        | Some mult =>
            let bytes := PrimFloat.mul v mult in
            if PrimFloat.ltb bytes 0%float || PrimFloat.ltb UINT64_MAX_double bytes
            then SizeError
            else
              match double_to_uint64 (PrimFloat.add bytes 0.5%float) with
              | Some z => SizeOk z
              | None => SizeUndefined
              end
        end
  end.

Definition cargs_read_size_si (s : option string) : size_result :=
  cargs_read_size s false.

Definition cargs_read_size_iec (s : option string) : size_result :=
  cargs_read_size s true.

End SizeReader.

(** A reading of [strtod] for unsigned decimal integers: the leading
    digits are consumed and converted exactly. *)
Fixpoint leading_digits (s : string) (acc : Z) (n : nat) : Z * nat :=
  match s with
  | String a s' =>
      if isdigit (Some a)
      then leading_digits s' (10 * acc + (Z.of_N (N_of_ascii a) - 48)) (S n)
      else (acc, n)
  | EmptyString => (acc, n)
  end.

Definition strtod_digits (s : string) : float * nat :=
  let '(z, n) := leading_digits s 0 0 in
  (PrimFloat.of_uint63 (Uint63.of_Z z), n).

(** ** Words of the specification, for comparison with the code *)

(** "not literally the double dash, and either it does not start with a
    dash, or it looks numeric: a leading plus or minus followed by a digit,
    or by a dot then a digit, or by a hexadecimal prefix". *)
Definition spec_signed_numeric (t : string) : Prop :=
  match t with
  | String s rest =>
      (s = "+"%char \/ s = "-"%char) /\
      ((exists d rest', rest = String d rest' /\ isdigit (Some d) = true) \/
       (exists d rest', rest = String "." (String d rest') /\ isdigit (Some d) = true) \/
       (exists x rest', rest = String "0" (String x rest') /\ (x = "x"%char \/ x = "X"%char)))
  | EmptyString => False
  end.

Definition spec_lookahead (t : string) : Prop :=
  t <> "--" /\
  ((forall rest, t <> String "-" rest) \/ spec_signed_numeric t).

(** The unit suffixes of the specification, in upper case: the letter
    alone, with [B], with [I], with [IB]; each with its exponent and whether
    it forces radix 1024. *)
Definition unit_letters : list (ascii * nat) :=
  [("K"%char, 1%nat); ("M"%char, 2%nat); ("G"%char, 3%nat);
   ("T"%char, 4%nat); ("P"%char, 5%nat); ("E"%char, 6%nat)].

Definition spec_suffixes : list (string * (nat * bool)) :=
  ("B", (0%nat, false)) ::
  flat_map (fun '(l, p) =>
    [(String l "", (p, false)); (String l "B", (p, false));
     (String l "I", (p, true)); (String l "IB", (p, true))]) unit_letters.

Fixpoint upper (s : string) : string :=
  match s with
  | String a s' => String (upcase a) (upper s')
  | EmptyString => EmptyString
  end.

Fixpoint lookup_suffix (tbl : list (string * (nat * bool))) (s : string)
  : option (nat * bool) :=
  match tbl with
  | [] => None
  | (k, v) :: rest => if String.eqb k s then Some v else lookup_suffix rest s
  end.

(** The multiplier the specification assigns to a suffix: the radix, 1024
    when forced or preferred and 1000 otherwise, raised to the exponent. *)
Definition spec_multiplier (prefer_iec : bool) (pw : nat * bool) : Z :=
  (if snd pw || prefer_iec then 1024 else 1000) ^ Z.of_nat (fst pw).

(** The double that holds an integer below two to the 63. *)
Definition double_of_Z (z : Z) : float := PrimFloat.of_uint63 (Uint63.of_Z z).

(** What the specification accepts after the number and the blanks: one
    of the listed suffixes, in any letter case. *)
Definition spec_size_suffix (prefer_iec : bool) (suffix : string) : option float :=
  match lookup_suffix spec_suffixes (upper suffix) with
  | Some pw => Some (double_of_Z (spec_multiplier prefer_iec pw))
  | None => None
  end.

(** [s] without its trailing blanks. *)
Fixpoint rstrip (s : string) : string :=
  match s with
  | String a s' =>
      match rstrip s' with
      | EmptyString => if is_blank a then EmptyString else String a EmptyString
      | r => String a r
      end
  | EmptyString => EmptyString
  end.

(** ** Sums of a positional schema, as the specification states them *)

Definition sum_minima (pos : list cargs_pos) : Z :=
  fold_right (fun p acc => pos_min p + acc) 0 pos.

Definition unbounded (p : cargs_pos) : bool := pos_max p =? CARGS_POS_INF.

Definition has_unbounded (pos : list cargs_pos) : bool := existsb unbounded pos.

(** The maxima of the bounded segments (all of them when none is
    unbounded). *)
Definition sum_maxima (pos : list cargs_pos) : Z :=
  fold_right (fun p acc => if unbounded p then acc else pos_max p + acc) 0 pos.

(** Field ranges of a segment: both counts are [uint16_t] and the minimum
    does not exceed the maximum. *)
Definition segment_ok (p : cargs_pos) : Prop :=
  0 <= pos_min p /\ pos_min p <= pos_max p /\ pos_max p <= 65535.

(** The schema of the specification's example: one or more, then exactly
    one. *)
Definition schema_many_then_one : list cargs_pos :=
  [mk_pos (Some "SRC") None 1 CARGS_POS_INF; mk_pos (Some "DST") None 1 1].

(** ** The overlay and the counters, as the specification states them *)

Section SpecOverlay.

Context {U : Type}.
Variable getenv : string -> option string.

(** "if its environment variable is set its callback is invoked with that
    value, else if it has a static default its callback is invoked with the
    default". *)
Definition spec_overlay_value (o : cargs_opt U) : option string :=
  match opt_env o with
  | Some e =>
      match getenv e with
      | Some v => Some v
      | None => opt_def o
      end
  | None => opt_def o
  end.

(** The callback invocations of the overlay, in declaration order. *)
Fixpoint overlay_events (opts : list (cargs_opt U)) : list (event U) :=
  match opts with
  | [] => []
  | o :: rest =>
      match spec_overlay_value o, opt_cb o with
      | Some v, Some _ => EvCallback o (Some v) :: overlay_events rest
      | _, _ => overlay_events rest
      end
  end.

(** The number of callback invocations in [log] whose option belongs to
    group [g]. *)
Fixpoint group_events (g : Z) (log : list (event U)) : Z :=
  match log with
  | [] => 0
  | EvCallback o _ :: rest =>
      if opt_group o =? g then 1 + group_events g rest else group_events g rest
  | _ :: rest => group_events g rest
  end.

End SpecOverlay.

(** ** A level that gives one option one value *)

(** What the specification expects of a level whose tokens give the
    option [o], with callback [f], the value [v] and nothing else: after the
    overlay the callback is invoked once more, with [v]; a negative status
    is returned as it is; otherwise the group of [o] is counted, the group
    policies decide the status and every token is consumed. *)
Definition single_value_outcome {U : Type} (getenv : string -> option string)
  (opts : list (cargs_opt U)) (o : cargs_opt U) (f : cargs_cb U)
  (v : option string) (user : U) (log : list (event U)) (idx argc : nat)
  : level_result :=
  let st0 :=
    cargs_apply_env_defaults_level getenv opts (mk_pstate idx (fun _ => 0) user log) in
  let '(xor_mask, req_mask) := group_masks opts 0 0 in
  let '(rc, user') := f v (ps_user st0) in
  let log' := (ps_log st0 ++ [EvCallback o v])%list in
  if rc <? 0 then mk_level rc idx user' log'
  else
    let rc' := enforce_groups xor_mask req_mask (count_group o (ps_counts st0)) in
    mk_level rc' (if rc' <? 0 then idx else argc) user' log'.

(** ** A matched option, as the specification states it *)

(** What is expected when the option [o], whose callback is [f], is
    matched with [val] in the state [st]: [f] is applied to [val] and to
    the context, and the call is recorded; a negative result ends the
    level with that code, the context and the log as the call left them;
    otherwise the group of [o] is counted and the iteration goes on as
    [k] says. *)
Definition called_with {U : Type} (o : cargs_opt U) (f : cargs_cb U)
  (val : option string) (st : pstate) (k : pstate -> step_result) : step_result :=
  let '(rc, u') := f val (ps_user st) in
  let log' := (ps_log st ++ [EvCallback o val])%list in
  if rc <? 0 then Return rc u' log'
  else k (mk_pstate (ps_i st) (count_group o (ps_counts st)) u' log').

(** The same for an option that may have no callback: nothing is then
    called or recorded, and the group is counted all the same. *)
Definition option_then {U : Type} (o : cargs_opt U) (val : option string)
  (st : pstate) (k : pstate -> step_result) : step_result :=
  match opt_cb o with
  | Some f => called_with o f val st k
  | None =>
      k (mk_pstate (ps_i st) (count_group o (ps_counts st)) (ps_user st) (ps_log st))
  end.

(** The scan goes on at the token of index [n]. *)
Definition resume_at {U : Type} (n : nat) (st : pstate (U := U)) : step_result :=
  Continue (set_i n st).

(** The states the scan of a level goes through: [scans_to ... st0 st]
    when the loop started in [st0] comes to the top of an iteration in
    [st], after any number of iterations that went on. *)
Inductive scans_to {U : Type} (env : option cargs_env) (cmd : option (cargs_cmd U))
  (argv : list string) (av aa : bool) (path : list string)
  : pstate -> pstate -> Prop :=
| scans_here st : scans_to env cmd argv av aa path st st
| scans_on st st1 st2 :
    scan_step env cmd argv av aa path st = Continue st1 ->
    scans_to env cmd argv av aa path st1 st2 ->
    scans_to env cmd argv av aa path st st2.

(** ** The counter invariant of a level *)

(** The log of [st] extends [log0], and each counter of a group between 1
    and 32 holds, modulo two to the 8, the number of callback invocations
    recorded since [log0] for options of that group. *)
Definition counts_agree {U : Type} (log0 : list (event U)) (st : pstate) : Prop :=
  exists l,
    ps_log st = (log0 ++ l)%list /\
    forall g, 0 < g < MAXG -> ps_counts st g = u8 (group_events g l).

(** The log a scan result carries. *)
Definition scan_log {U : Type} (r : scan_result (U := U)) : list (event U) :=
  match r with
  | ScanEnd st => ps_log st
  | ScanReturn _ _ log => log
  end.

(** A root whose [--json] flag has a default and shares a mutually
    exclusive group with [--yaml]. *)
Definition defaulted_root : cargs_cmd Sample.tstate :=
  mk_cmd None
    [mk_opt (Some "json") Ascii.zero CARGS_ARG_NONE (Some Sample.cb_flag)
       (Some "FMT_JSON") (Some "on") 1 CARGS_GRP_XOR;
     Sample.o_yaml]
    [] [] [] (Some (Sample.runner "root")).


(** ** Group policies, as the specification states them *)

(** Some option of the level belongs to group [g] and declares [policy]. *)
Definition declares {U : Type} (opts : list (cargs_opt U)) (g policy : Z) : Prop :=
  exists o, In o opts /\ opt_group o = g /\ opt_group_policy o = policy.

(** "its policy is MutuallyExclusive and its counter exceeds 1", or "its
    policy is ExactlyOne and its counter is not exactly 1". *)
Definition violates {U : Type} (opts : list (cargs_opt U)) (counts : Z -> Z)
  (g : Z) : Prop :=
  (declares opts g CARGS_GRP_XOR /\ 1 < counts g) \/
  (declares opts g CARGS_GRP_REQ_ONE /\ counts g <> 1).

(** ** Further sample levels *)

Fixpoint repeat_char (n : nat) (c : ascii) : string :=
  match n with
  | O => EmptyString
  | S n' => String c (repeat_char n' c)
  end.

(** A long name that fills the name buffer of the long-option branch. *)
Definition name96 : string := repeat_char 96 "a".

(** Two REQUIRED options: one whose short character is the one of the
    help builtin, one whose long name has 96 characters. *)
Definition o_host : cargs_opt Sample.tstate :=
  mk_opt (Some "host") "h" CARGS_ARG_REQUIRED (Some Sample.cb_jobs) None None
    0 CARGS_GRP_NONE.
Definition o_wide : cargs_opt Sample.tstate :=
  mk_opt (Some name96) "w" CARGS_ARG_REQUIRED (Some Sample.cb_jobs) None None
    0 CARGS_GRP_NONE.
Definition limits_root : cargs_cmd Sample.tstate :=
  mk_cmd None [o_host; o_wide] [] [] [] (Some (Sample.runner "root")).

(** A schema whose minima sum to more than an [int] holds. *)
Definition wide_schema : list cargs_pos :=
  repeat (mk_pos None None 65535 CARGS_POS_INF) (Z.to_nat 32769).

(** ** Bounded text buffers *)

(** [snprintf(buf + n, size, ...)] when the formatted text is [text]: at
    most [size - 1] characters are stored after the first [n] of the
    buffer, and nothing at all when [size] is zero.  The callers below keep
    [n] within the text the buffer holds. *)
Definition snprintf_at (buf : string) (n size : nat) (text : string) : string :=
  match size with
  | O => buf
  | S room => prefix n buf ++ prefix room text
  end.

(** The [APPEND] macro of [cargs_render_pos_usage] on the buffer and its
    cursor [n]. *)
Definition render_append (bufsz : nat) (text : string) (st : string * nat)
  : string * nat :=
  let '(buf, n) := st in
  let w := String.length text in
  let buf' := snprintf_at buf n (if (n <? bufsz)%nat then bufsz - n else 0)%nat text in
  if (0 <? w)%nat
  then (buf', if (n + w <? bufsz)%nat then (n + w)%nat else bufsz)
  else (buf', n).

(** [for (k = 0; k < count; ++k) APPEND(text)]. *)
Fixpoint render_repeat (bufsz : nat) (count : nat) (text : string)
  (st : string * nat) : string * nat :=
  match count with
  | O => st
  | S k => render_repeat bufsz k text (render_append bufsz text st)
  end.

(** The label of a segment: its name, or [ARG] when the name is NULL or
    empty. *)
Definition pos_label (p : cargs_pos) : string :=
  match pos_name p with
  | Some (String a rest) => String a rest
  | _ => "ARG"
  end.

(** The body of the segment loop of [cargs_render_pos_usage]. *)
Definition render_segment (bufsz : nat) (p : cargs_pos) (st : string * nat)
  : string * nat :=
  let name := pos_label p in
  let minreq := Z.to_nat (if 0 <? pos_min p then pos_min p else 0) in
  if pos_max p =? CARGS_POS_INF then
    render_append bufsz (" [" ++ name ++ " ...]")
      (render_repeat bufsz minreq (" " ++ name) st)
  else if pos_max p <=? 1 then
    if pos_min p =? 0
    then render_append bufsz (" [" ++ name ++ "]") st
    else render_append bufsz (" " ++ name) st
  else
    let opt := Z.to_nat (pos_max p - Z.of_nat minreq) in
    render_repeat bufsz opt (" [" ++ name ++ "]")
      (render_repeat bufsz minreq (" " ++ name) st).

(** The segment loop, left as soon as the cursor reaches the size. *)
Fixpoint render_segments (bufsz : nat) (pos : list cargs_pos) (st : string * nat)
  : string * nat :=
  match pos with
  | [] => st
  | p :: rest =>
      let st' := render_segment bufsz p st in
      if (bufsz <=? snd st')%nat then st' else render_segments bufsz rest st'
  end.

(** [cargs_render_pos_usage(buf, bufsz, cmd)]: what the buffer holds
    afterwards, [old] being what it held before. *)
Definition cargs_render_pos_usage {U : Type} (old : string) (bufsz : nat)
  (cmd : option (cargs_cmd U)) : string :=
  match bufsz with
  | O => old
  | S _ =>
      match cmd with
      | None => EmptyString
      | Some c =>
          match cmd_pos c with
          | [] => EmptyString
          | pos => prefix (bufsz - 1) (fst (render_segments bufsz pos (EmptyString, O)))
          end
      end
  end.

(** The [APPEND] macro of [cargs_build_usage_pos] on the destination and
    its offset. *)
Definition build_append (cap : nat) (text : string) (st : string * nat)
  : string * nat :=
  let '(dst, off) := st in
  let n := String.length text in
  let dst' := snprintf_at dst off (if (off <? cap)%nat then cap - off else 0)%nat text in
  if (0 <? n)%nat
  then (dst', (off + (if (n <? cap - off)%nat then n
                      else if (0 <? cap - off)%nat then cap - off - 1 else 0))%nat)
  else (dst', off).

Fixpoint build_repeat (cap : nat) (count : nat) (text : string)
  (st : string * nat) : string * nat :=
  match count with
  | O => st
  | S k => build_repeat cap k text (build_append cap text st)
  end.

(** The body of the segment loop of [cargs_build_usage_pos]. *)
Definition build_segment (cap : nat) (p : cargs_pos) (st : string * nat)
  : string * nat :=
  let tok := pos_label p in
  if pos_max p =? CARGS_POS_INF then
    if pos_min p <=? 0 then build_append cap (" [" ++ tok ++ " ...]") st
    else if pos_min p =? 1
    then build_append cap (" " ++ tok ++ " [" ++ tok ++ " ...]") st
    else build_append cap (" [" ++ tok ++ " ...]")
           (build_repeat cap (Z.to_nat (pos_min p)) (" " ++ tok) st)
  else if pos_max p <=? 1 then
    if pos_min p =? 0
    then build_append cap (" [" ++ tok ++ "]") st
    else build_append cap (" " ++ tok) st
  else
    let st1 := if 0 <? pos_min p
               then build_repeat cap (Z.to_nat (pos_min p)) (" " ++ tok) st
               else st in
    let opt := pos_max p - (if 0 <? pos_min p then pos_min p else 0) in
    build_repeat cap (Z.to_nat opt) (" [" ++ tok ++ "]") st1.

(** [cargs_build_usage_pos(dst, cap, pos, npos)]: the destination and the
    offset after the loop. *)
Definition cargs_build_usage_pos (dst : string) (cap : nat) (pos : list cargs_pos)
  : string * nat :=
  fold_left (fun st p => build_segment cap p st) pos (dst, O).

(** The usage words of one segment and of a schema, as an unbounded
    buffer would receive them. *)
Definition segment_words (p : cargs_pos) : string :=
  let name := pos_label p in
  let minreq := Z.to_nat (pos_min p) in
  if pos_max p =? CARGS_POS_INF then
    String.concat "" (repeat (" " ++ name) minreq) ++ " [" ++ name ++ " ...]"
  else if pos_max p <=? 1 then
    if pos_min p =? 0 then " [" ++ name ++ "]" else " " ++ name
  else
    String.concat "" (repeat (" " ++ name) minreq)
    ++ String.concat "" (repeat (" [" ++ name ++ "]")
                           (Z.to_nat (pos_max p - Z.of_nat minreq))).

Definition usage_words (pos : list cargs_pos) : string :=
  String.concat "" (map segment_words pos).

(** [cargs_join_aliases(c, buf, bufsz)] for a buffer that is not NULL: the
    loop over the aliases, with what the buffer holds and the count [n]. *)
Fixpoint join_aliases_from (bufsz : nat) (aliases : list (option string))
  (st : string * nat) : string * nat :=
  match aliases with
  | [] => st
  | None :: rest => join_aliases_from bufsz rest st
  | Some a :: rest =>
      let '(buf, n) := st in
      let need := ((if (0 <? n)%nat then 2 else 0) + String.length a)%nat in
      if (bufsz <=? n + need + 1)%nat then st
      else
        let '(buf1, n1) :=
          if (0 <? n)%nat then (prefix n buf ++ ", ", (n + 2)%nat) else (buf, n) in
        join_aliases_from bufsz rest
          (snprintf_at buf1 n1 (bufsz - n1) a, (n1 + String.length a)%nat)
  end.

Definition cargs_join_aliases {U : Type} (c : option (cargs_cmd U)) (old : string)
  (bufsz : nat) : string * nat :=
  match c, bufsz with
  | Some c, S _ => join_aliases_from bufsz (cmd_aliases c) (EmptyString, O)
  | _, _ => (old, O)
  end.

(** The aliases that are not NULL. *)
Fixpoint present_aliases (aliases : list (option string)) : list string :=
  match aliases with
  | [] => []
  | Some a :: rest => a :: present_aliases rest
  | None :: rest => present_aliases rest
  end.

(** ** Word wrapping of help text *)

Definition newline : ascii := "010".

Definition nl : string := String newline EmptyString.

(** The padding printed in front of a continuation line: [n] spaces. *)
Definition spaces (n : nat) : string := repeat_char n " ".

(** The inner loop of [cargs_wrap_print]: from offset [used] of the line
    that starts at the head of the current text, with [s] what is left of
    it, up to the end of the text, a newline, or [remaining] characters;
    the result is the offset reached and that of the last space seen. *)
Fixpoint scan_line (s : string) (used remaining : nat) (last_space : option nat)
  : nat * option nat :=
  match s with
  | EmptyString => (used, last_space)
  | String c s' =>
      if Ascii.eqb c newline then (used, last_space)
      else if (used <? remaining)%nat
      then scan_line s' (S used) remaining
             (if Ascii.eqb c " " then Some used else last_space)
      else (used, last_space)
  end.

(** One iteration of the outer loop on the text [p] (not empty): what is
    written and the text left. *)
Definition wrap_iter (start_col remaining : nat) (p : string) : string * string :=
  let '(line_end, last_space) := scan_line p 0 remaining None in
  match String.get line_end p with
  | None => (prefix line_end p ++ nl, EmptyString)
  | Some c =>
      if Ascii.eqb c newline then
        let p' := advance (S line_end) p in
        (prefix line_end p ++ nl
         ++ match p' with
            | EmptyString => EmptyString
            | String _ _ => spaces start_col
            end,
         p')
      else
        match last_space with
        | Some k => (prefix k p ++ nl ++ spaces start_col, advance (S k) p)
        | None => (prefix remaining p ++ nl ++ spaces start_col, advance remaining p)
        end
  end.

(** The outer loop, run while text is left; [None] only when [fuel]
    iterations were not enough. *)
Fixpoint wrap_loop (fuel : nat) (start_col remaining : nat) (p : string)
  : option string :=
  match p with
  | EmptyString => Some EmptyString
  | String _ _ =>
      match fuel with
      | O => None
      | S fuel' =>
          let '(out, p') := wrap_iter start_col remaining p in
          match wrap_loop fuel' start_col remaining p' with
          | Some more => Some (out ++ more)
          | None => None
          end
      end
  end.

(** [cargs_wrap_print(out, text, start_col, width)]: the characters
    written to [out]. *)
Definition cargs_wrap_print (text : option string) (start_col width : Z)
  : option string :=
  match text with
  | None => Some nl
  | Some EmptyString => Some nl
  | Some t =>
      if (width <=? 0) || (start_col <=? 0) || (width <? start_col + 10)
      then Some (t ++ nl)
      else wrap_loop (S (String.length t)) (Z.to_nat start_col)
             (Z.to_nat (width - start_col)) t
  end.

(** The lengths of the lines of [s], the first one starting at column
    [col]; what follows the last newline counts as a line. *)
Fixpoint line_lengths (s : string) (col : nat) : list nat :=
  match s with
  | EmptyString => [col]
  | String c s' =>
      if Ascii.eqb c newline then col :: line_lengths s' O
      else line_lengths s' (S col)
  end.

(** The characters of [s] other than spaces and newlines. *)
Fixpoint visible (s : string) : string :=
  match s with
  | EmptyString => EmptyString
  | String c s' =>
      if Ascii.eqb c " " || Ascii.eqb c newline then visible s'
      else String c (visible s')
  end.

(** [s] ends with a newline. *)
Fixpoint ends_with_newline (s : string) : bool :=
  match s with
  | EmptyString => false
  | String c EmptyString => Ascii.eqb c newline
  | String _ s' => ends_with_newline s'
  end.

(** ** Events of a level *)

(** Whether an event is an option callback, a handler call, or a version
    or author line. *)
Definition is_callback {U : Type} (e : event U) : bool :=
  match e with
  | EvCallback _ _ => true
  | _ => false
  end.

Definition is_run {U : Type} (e : event U) : bool :=
  match e with
  | EvRun _ _ => true
  | _ => false
  end.

Definition is_print {U : Type} (e : event U) : bool :=
  match e with
  | EvPrint _ => true
  | _ => false
  end.

Section LevelEvents.

Context {U : Type}.
Variable env : option cargs_env.
Variable cmd : option (cargs_cmd U).
Variables allow_version allow_author : bool.
Variable path : list string.

(** What a level may add to the log: a callback of one of its options,
    its help, or (where the level allows it) the version or author line. *)
Definition level_event (e : event U) : Prop :=
  match e with
  | EvCallback o _ => In o (level_opts cmd) /\ opt_cb o <> None
  | EvHelp c p => c = cmd /\ p = path /\ env_flag env env_auto_help = true
  | EvPrint line =>
      (allow_version = true /\ env_flag env env_auto_version = true /\
       env_text env env_version = Some line) \/
      (allow_author = true /\ env_flag env env_auto_author = true /\
       env_text env env_author = Some line)
  | EvRun _ _ => False
  end.

(** The events a returning level ends its log with: none when it fails,
    the one builtin output when it was intercepted. *)
Definition level_tail (rc : Z) (tail : list (event U)) : Prop :=
  (rc < 0 /\ tail = []) \/
  (rc = CARGS_DONE /\ exists e, tail = [e] /\ is_callback e = false).

(** The log of a level grows by callbacks [l], then by [tail]. *)
Definition level_growth (l tail : list (event U)) : Prop :=
  Forall level_event (l ++ tail) /\ forallb is_callback l = true.

(** [r] carries the log of [st] followed by events of the level: callbacks
    and, only when the iteration returns with the intercepted outcome, one
    builtin output at the end. *)
Definition extends_log (st : pstate) (r : step_result) : Prop :=
  exists l tail,
    result_log r = (ps_log st ++ l ++ tail)%list /\
    level_growth l tail /\
    match r with
    | Return rc _ _ => level_tail rc tail
    | _ => tail = []
    end.

End LevelEvents.

(** ** Lookups, as a reader of the tree expects them *)

(** A child answers to a token when the token is its name or one of its
    aliases. *)
Definition answers_to {U : Type} (c : cargs_cmd U) (tok : string) : Prop :=
  cmd_name c = Some tok \/ In (Some tok) (cmd_aliases c).

(** ** A vector with one more token *)

(** The same state, one token further. *)
Definition up {U : Type} (st : pstate (U := U)) : pstate := set_i (S (ps_i st)) st.

Definition up_step {U : Type} (r : step_result (U := U)) : step_result :=
  match r with
  | Continue st => Continue (up st)
  | Break st => Break (up st)
  | Return rc u l => Return rc u l
  end.

Definition up_scan {U : Type} (r : scan_result (U := U)) : scan_result :=
  match r with
  | ScanEnd st => ScanEnd (up st)
  | ScanReturn rc u l => ScanReturn rc u l
  end.

(** ** Buffers as prefixes of the full text *)

(** The buffer and the cursor of [cargs_render_pos_usage] once the text
    [T] has been appended: the buffer holds what fits of [T], the cursor
    is its length, capped at the size. *)
Definition render_holds (bufsz : nat) (T : string) (st : string * nat) : Prop :=
  fst st = prefix (bufsz - 1) T /\ snd st = Nat.min (String.length T) bufsz.

(** The destination and the offset of [cargs_build_usage_pos] once the
    text [T] has been appended; [dst0] is what the destination held at
    first, and still holds while nothing has been appended. *)
Definition build_holds (cap : nat) (dst0 T : string) (st : string * nat) : Prop :=
  snd st = Nat.min (String.length T) (cap - 1) /\
  (fst st = prefix (cap - 1) T \/ (T = EmptyString /\ fst st = dst0)).

(** The positional schema of a command that may be NULL. *)
Definition schema_of {U : Type} (cmd : option (cargs_cmd U)) : list cargs_pos :=
  match cmd with
  | Some c => cmd_pos c
  | None => []
  end.

(** ** Texts accumulated in fixed buffers *)

(** [n += (size_t)snprintf(buf + n, sizeof(buf) - n, "%s", text)] on a
    buffer of [size] characters: [n] grows by the whole length of [text],
    written or not.  Once [n] is beyond [size] the destination points
    outside the buffer and the size argument has wrapped around: the call
    is undefined, which is [None]. *)
Definition accum_append (size : nat) (text : string) (st : string * nat)
  : option (string * nat) :=
  let '(buf, n) := st in
  if (size <? n)%nat then None
  else Some (snprintf_at buf n (size - n) text, (n + String.length text)%nat).

(** The loop of [cargs_print_usage] over the path, on its buffer of 256
    characters: a space when there is room for it, then the segment. *)
Fixpoint usage_head_path (path : list string) (st : string * nat)
  : option (string * nat) :=
  match path with
  | [] => Some st
  | seg :: rest =>
      let '(buf, n) := st in
      let st1 :=
        if (n + 1 <? 256)%nat then ((prefix n buf ++ " ")%string, S n) else st in
      match accum_append 256 seg st1 with
      | Some st2 => usage_head_path rest st2
      | None => None
      end
  end.

(** The head of the usage line as [cargs_print_usage] builds it: the
    program name, then the path, in [buf], terminated at its last
    character. *)
Definition usage_head (prog : option string) (path : list string) : option string :=
  let start :=
    match prog with
    | Some p => accum_append 256 p (EmptyString, O)
    | None => Some (EmptyString, O)
    end in
  match start with
  | Some st =>
      match usage_head_path path st with
      | Some (buf, _) => Some (prefix 255 buf)
      | None => None
      end
  | None => None
  end.

(** The alias loop of [cargs_print_cmd_row], from index [a]: a comma and
    a space except before the first alias, then the alias; an alias that
    is NULL is handed to the [%s] conversion, which is undefined. *)
Fixpoint cmd_row_aliases (aliases : list (option string)) (a : nat)
  (st : string * nat) : option (string * nat) :=
  match aliases with
  | [] => Some st
  | alias :: rest =>
      match (if (0 <? a)%nat then accum_append 160 ", " st else Some st) with
      | Some st1 =>
          match alias with
          | Some text =>
              match accum_append 160 text st1 with
              | Some st2 => cmd_row_aliases rest (S a) st2
              | None => None
              end
          | None => None
          end
      | None => None
      end
  end.

(** The [name] buffer of [cargs_print_cmd_row]: the command name, then
    its aliases in parentheses when it has any. *)
Definition cmd_row_name {U : Type} (c : cargs_cmd U) : option string :=
  match accum_append 160 (match cmd_name c with Some s => s | None => EmptyString end)
          (EmptyString, O) with
  | Some st1 =>
      match cmd_aliases c with
      | [] => Some (fst st1)
      | aliases =>
          match accum_append 160 " (alias: " st1 with
          | Some st2 =>
              match cmd_row_aliases aliases 0 st2 with
              | Some st3 =>
                  match accum_append 160 ")" st3 with
                  | Some st4 => Some (fst st4)
                  | None => None
                  end
              | None => None
              end
          | None => None
          end
      end
  | None => None
  end.

(** A buffer of [size] characters and the count [n] once the text [T]
    has been accumulated: the buffer holds what fits, the count is the
    whole length. *)
Definition accum_holds (size : nat) (T : string) (st : string * nat) : Prop :=
  fst st = prefix (size - 1) T /\ snd st = String.length T.

(** The path of a usage line, each segment after a space. *)
Definition path_words (path : list string) : string :=
  String.concat "" (map (fun seg => (" " ++ seg)%string) path).

Definition text_of (s : option string) : string :=
  match s with
  | Some t => t
  | None => EmptyString
  end.

(** The aliases after the first, each after a comma and a space. *)
Definition alias_tail_words (l : list string) : string :=
  String.concat "" (map (fun x => (", " ++ x)%string) l).

(** * Properties *)

(** ** Positional validator *)

Lemma u32_idem_add (a x : Z) : u32 (u32 a + x) = u32 (a + x).
Proof. unfold u32. apply Zplus_mod_idemp_l. Qed.

Lemma u32_small (z : Z) : 0 <= z <= INT_MAX -> u32 z = z.
Proof. unfold u32, INT_MAX. intros H. apply Z.mod_small. lia. Qed.

Lemma to_int_small (z : Z) : 0 <= z <= INT_MAX -> to_int z = z.
Proof.
  unfold to_int, INT_MAX. intros H.
  destruct (Z.ltb_spec z (2 ^ 31)); lia.
Qed.

(** The loop computes the three aggregates of the specification, modulo
    two to the 32. *)
Lemma pos_sums_spec (pos : list cargs_pos) :
  forall a b h,
    pos_sums pos (u32 a) (u32 b) h =
    (u32 (a + sum_minima pos), u32 (b + sum_maxima pos), h || has_unbounded pos).
Proof.
  induction pos as [|p rest IH]; intros a b h; simpl.
  - rewrite !Z.add_0_r, orb_false_r. reflexivity.
  - unfold unbounded. rewrite u32_idem_add.
    destruct (pos_max p =? CARGS_POS_INF); simpl.
    + rewrite IH, Z.add_assoc. destruct h; reflexivity.
    + rewrite u32_idem_add, IH, !Z.add_assoc. reflexivity.
Qed.

Lemma sum_minima_nonneg (pos : list cargs_pos) :
  Forall segment_ok pos -> 0 <= sum_minima pos.
Proof.
  induction 1 as [|p rest Hp _ IH]; simpl; [lia|].
  destruct Hp as (? & ? & ?). lia.
Qed.

Lemma sum_maxima_nonneg (pos : list cargs_pos) :
  Forall segment_ok pos -> 0 <= sum_maxima pos.
Proof.
  induction 1 as [|p rest Hp _ IH]; simpl; [lia|].
  destruct Hp as (? & ? & ?). destruct (unbounded p); lia.
Qed.

Lemma bounded_minima_le_maxima (pos : list cargs_pos) :
  Forall segment_ok pos -> has_unbounded pos = false ->
  sum_minima pos <= sum_maxima pos.
Proof.
  induction 1 as [|p rest Hp _ IH]; simpl; [lia|].
  intros Hu. apply orb_false_iff in Hu. destruct Hu as [Hp' Hr].
  rewrite Hp'. destruct Hp as (? & ? & ?). specialize (IH Hr). lia.
Qed.

Lemma validate_schema_cases (pos : list cargs_pos) (n : Z) :
  pos <> [] -> Forall segment_ok pos ->
  sum_minima pos <= INT_MAX -> sum_maxima pos <= INT_MAX ->
  validate_schema pos n =
    if n <? sum_minima pos then CARGS_ERR_POSITIONAL
    else if negb (has_unbounded pos) && (sum_maxima pos <? n) then CARGS_ERR_TOO_MANY
    else CARGS_OK.
Proof.
  intros Hne Hok Hmin Hmax.
  destruct pos as [|p rest]; [congruence|].
  unfold validate_schema.
  change 0 with (u32 0) at 1 2. rewrite pos_sums_spec. simpl "||".
  pose proof (sum_minima_nonneg _ Hok). pose proof (sum_maxima_nonneg _ Hok).
  rewrite !Z.add_0_l, !u32_small, !to_int_small by lia.
  reflexivity.
Qed.

(** C10: a command whose positional schema is empty passes positional
    validation for every leftover count, so neither the too-few nor the
    too-many code can come out of the validator. *)
Theorem empty_schema_always_valid (U : Type) (cmd : cargs_cmd U) (n : Z) :
  cmd_pos cmd = [] ->
  cargs_validate_positional (Some cmd) n = CARGS_OK /\
  cargs_validate_positional (Some cmd) n <> CARGS_ERR_POSITIONAL /\
  cargs_validate_positional (Some cmd) n <> CARGS_ERR_TOO_MANY.
Proof.
  intros H. unfold cargs_validate_positional. rewrite H. simpl.
  repeat split; discriminate.
Qed.

Lemma empty_schema_always_valid_witness :
  cmd_pos Sample.remote = [] /\
  cargs_validate_positional (Some Sample.remote) 7 = CARGS_OK.
Proof.
  split; [reflexivity|].
  exact (proj1 (empty_schema_always_valid _ Sample.remote 7 eq_refl)).
Defined.

(** C7, as stated, fails on the empty schema: no segment is unbounded and
    one leftover token exceeds the maximum sum of zero, yet validation
    succeeds instead of reporting too many. *)
Lemma empty_schema_not_too_many :
  cmd_pos Sample.remote = [] /\
  has_unbounded (cmd_pos Sample.remote) = false /\
  sum_maxima (cmd_pos Sample.remote) < 1 /\
  cargs_validate_positional (Some Sample.remote) 1 = CARGS_OK /\
  cargs_validate_positional (Some Sample.remote) 1 <> CARGS_ERR_TOO_MANY.
Proof. repeat split; try reflexivity; discriminate. Qed.

(** C7 (amended): for a non-empty schema whose segments respect their
    ranges and whose sums fit an [int], validation fails with the
    positional code exactly when the count is below the sum of minima, with
    the too-many code exactly when no segment is unbounded and the count
    exceeds the sum of maxima, and succeeds otherwise; the schema
    one-or-more then exactly-one accepts every count from two on and
    rejects zero and one. *)
Theorem positional_envelope (U : Type) (cmd : cargs_cmd U) (n : Z) :
  cmd_pos cmd <> [] -> Forall segment_ok (cmd_pos cmd) ->
  sum_minima (cmd_pos cmd) <= INT_MAX -> sum_maxima (cmd_pos cmd) <= INT_MAX ->
  (cargs_validate_positional (Some cmd) n = CARGS_ERR_POSITIONAL <->
     n < sum_minima (cmd_pos cmd)) /\
  (cargs_validate_positional (Some cmd) n = CARGS_ERR_TOO_MANY <->
     has_unbounded (cmd_pos cmd) = false /\ sum_maxima (cmd_pos cmd) < n) /\
  (~ n < sum_minima (cmd_pos cmd) ->
   ~ (has_unbounded (cmd_pos cmd) = false /\ sum_maxima (cmd_pos cmd) < n) ->
   cargs_validate_positional (Some cmd) n = CARGS_OK) /\
  (forall k, 2 <= k -> validate_schema schema_many_then_one k = CARGS_OK) /\
  validate_schema schema_many_then_one 0 = CARGS_ERR_POSITIONAL /\
  validate_schema schema_many_then_one 1 = CARGS_ERR_POSITIONAL.
Proof.
  intros Hne Hok Hmin Hmax. unfold cargs_validate_positional.
  rewrite (validate_schema_cases _ n Hne Hok Hmin Hmax).
  assert (Hle : has_unbounded (cmd_pos cmd) = false ->
                sum_minima (cmd_pos cmd) <= sum_maxima (cmd_pos cmd))
    by (apply bounded_minima_le_maxima; exact Hok).
  split; [|split; [|split; [|split; [|split]]]].
  - destruct (Z.ltb_spec n (sum_minima (cmd_pos cmd))) as [Hlt|Hge].
    + split; [intros _; exact Hlt | reflexivity].
    + split; [|lia].
      destruct (negb _ && _); discriminate.
  - destruct (Z.ltb_spec n (sum_minima (cmd_pos cmd))) as [Hlt|Hge].
    + split; [discriminate|].
      intros [Hu Hgt]. specialize (Hle Hu). lia.
    + destruct (has_unbounded (cmd_pos cmd)); simpl.
      * split; [discriminate | intros [? _]; discriminate].
      * destruct (Z.ltb_spec (sum_maxima (cmd_pos cmd)) n) as [Hgt|Hnot].
        -- split; [intros _; split; [reflexivity | exact Hgt] | reflexivity].
        -- split; [discriminate | intros [_ ?]; lia].
  - intros Hnlt Hnmany.
    destruct (Z.ltb_spec n (sum_minima (cmd_pos cmd))) as [Hlt|Hge]; [contradiction|].
    destruct (has_unbounded (cmd_pos cmd)); simpl; [reflexivity|].
    destruct (Z.ltb_spec (sum_maxima (cmd_pos cmd)) n) as [Hgt|Hnot]; [|reflexivity].
    exfalso. apply Hnmany. split; [reflexivity | exact Hgt].
  - intros k Hk.
    change (validate_schema schema_many_then_one k)
      with (if k <? 2 then CARGS_ERR_POSITIONAL else CARGS_OK).
    destruct (Z.ltb_spec k 2); [lia | reflexivity].
  - reflexivity.
  - reflexivity.
Qed.

Lemma positional_envelope_witness :
  cmd_pos Sample.remote_add <> [] /\
  cargs_validate_positional (Some Sample.remote_add) 1 = CARGS_ERR_POSITIONAL.
Proof.
  assert (Hne : cmd_pos Sample.remote_add <> []) by discriminate.
  assert (Hok : Forall segment_ok (cmd_pos Sample.remote_add))
    by (repeat constructor; simpl; lia).
  assert (Hmin : sum_minima (cmd_pos Sample.remote_add) <= INT_MAX)
    by (vm_compute; discriminate).
  assert (Hmax : sum_maxima (cmd_pos Sample.remote_add) <= INT_MAX)
    by (vm_compute; discriminate).
  split; [exact Hne|].
  apply (proj1 (positional_envelope _ Sample.remote_add 1 Hne Hok Hmin Hmax)).
  vm_compute. reflexivity.
Defined.

(** Beyond the [int] range the comparison is made on a wrapped sum: a
    schema asking for more than two to the 31 tokens accepts none. *)
Lemma positional_sum_wraps :
  sum_minima wide_schema = 2147516415 /\
  validate_schema wide_schema 0 = CARGS_OK.
Proof. split; vm_compute; reflexivity. Qed.

(** ** The scan always returns *)

Section ScanFacts.

Context {U : Type}.
Variable getenv : string -> option string.
Variable env : option cargs_env.
Variable cmd : option (cargs_cmd U).
Variable argv : list string.
Variables allow_version allow_author : bool.
Variable path : list string.

Lemma invoke_index (o : cargs_opt U) (val : option string) (st : pstate) :
  ps_i (snd (invoke o val st)) = ps_i st.
Proof.
  unfold invoke. destruct (opt_cb o) as [f|]; [|reflexivity].
  destruct (f val (ps_user st)); reflexivity.
Qed.

Lemma matched_Continue (o : cargs_opt U) (val : option string) (st st' : pstate)
  (k : pstate -> step_result) :
  matched o val st k = Continue st' ->
  exists st1, ps_i st1 = ps_i st /\ k st1 = Continue st'.
Proof.
  unfold matched. pose proof (invoke_index o val st) as Hi.
  destruct (invoke o val st) as [rc st1]. simpl in Hi.
  destruct (rc <? 0); [discriminate|].
  intros H. eexists. split; [|exact H]. exact Hi.
Qed.

Lemma long_named_progress (name : string) (val : option string) (st st' : pstate) :
  long_named env cmd argv allow_version allow_author path name val st = Continue st' ->
  (ps_i st < ps_i st')%nat.
Proof.
  unfold long_named, intercept.
  destruct (long_builtin _ _ _ _ _ _); [discriminate|].
  destruct (cargs_find_long _ _) as [o|]; [|discriminate].
  destruct (opt_arg o); destruct val as [v|];
    try destruct (nth_error argv (S (ps_i st))) as [nxt|];
    try destruct (takes_next nxt);
    try discriminate;
    intros H; apply matched_Continue in H; destruct H as (st1 & Hi & H);
    injection H as <-; simpl in *; lia.
Qed.

Lemma short_cluster_progress (p : string) :
  forall st st',
    short_cluster env cmd argv allow_version path p st = Continue st' ->
    (ps_i st <= ps_i st')%nat.
Proof.
  induction p as [|c p' IH]; intros st st'; simpl.
  - intros H. injection H as <-. lia.
  - unfold intercept.
    destruct (short_builtin _ _ _ _ _); [discriminate|].
    destruct (cargs_find_short _ _) as [o|]; [|discriminate].
    destruct (opt_arg o).
    + intros H. apply matched_Continue in H. destruct H as (st1 & Hi & H).
      apply IH in H. lia.
    + destruct p'; [destruct (nth_error argv (ps_i st)); [|discriminate]|];
        intros H; apply matched_Continue in H; destruct H as (st1 & Hi & H);
        injection H as <-; simpl in *; lia.
    + destruct p'; [destruct (nth_error argv (ps_i st)) as [nxt|];
                    [destruct (takes_next nxt)|]|];
        intros H; apply matched_Continue in H; destruct H as (st1 & Hi & H);
        injection H as <-; simpl in *; lia.
Qed.

(** An iteration that goes round the loop again has moved the index
    forward, and was entered with a token left. *)
Lemma scan_step_progress (st st' : pstate) :
  scan_step env cmd argv allow_version allow_author path st = Continue st' ->
  (ps_i st < ps_i st')%nat /\ (ps_i st < List.length argv)%nat.
Proof.
  unfold scan_step.
  destruct (nth_error argv (ps_i st)) as [arg|] eqn:Harg; [|discriminate].
  assert (Hlen : (ps_i st < List.length argv)%nat)
    by (apply nth_error_Some; congruence).
  destruct (negb _); [discriminate|].
  destruct (String.eqb arg "--"); [discriminate|].
  destruct (is_char _ _).
  - unfold long_option. destruct (strchr _ _) as [len|].
    + destruct (96 <=? len)%nat; [discriminate|].
      intros H. apply long_named_progress in H. split; [exact H | exact Hlen].
    + intros H. apply long_named_progress in H. split; [exact H | exact Hlen].
  - intros H. apply short_cluster_progress in H. simpl in H. split; [lia | exact Hlen].
Qed.

Lemma scan_loop_total (fuel : nat) :
  forall st,
    (List.length argv - ps_i st < fuel)%nat ->
    exists r, scan_loop env cmd argv allow_version allow_author path fuel st = Some r.
Proof.
  induction fuel as [|fuel IH]; intros st Hfuel; [lia|].
  simpl.
  destruct (scan_step env cmd argv allow_version allow_author path st) as [st'|st'|rc u' l']
    eqn:Hstep.
  - apply scan_step_progress in Hstep. apply IH. lia.
  - eexists. reflexivity.
  - eexists. reflexivity.
Qed.

Lemma overlay_index (opts : list (cargs_opt U)) :
  forall st, ps_i (cargs_apply_env_defaults_level getenv opts st) = ps_i st.
Proof.
  induction opts as [|o rest IH]; intros st; simpl; [reflexivity|].
  destruct (overlay_value getenv o); [|apply IH].
  destruct (opt_cb o) as [f|]; [|apply IH].
  destruct (f _ _). rewrite IH. reflexivity.
Qed.

Lemma level_scan_total (idx : nat) (user : U) (log : list (event U)) :
  exists r,
    level_scan getenv env cmd argv allow_version allow_author path idx user log = Some r.
Proof.
  unfold level_scan. apply scan_loop_total. rewrite overlay_index. simpl. lia.
Qed.

(** The level parser returns on every input. *)
Lemma cargs_parse_opts_level_total (idx : nat) (user : U) (log : list (event U)) :
  exists r,
    cargs_parse_opts_level getenv env cmd argv allow_version allow_author path
      idx user log = Some r.
Proof.
  unfold cargs_parse_opts_level.
  destruct (group_masks _ _ _) as [xor_mask req_mask].
  destruct (level_scan_total idx user log) as [r ->].
  destruct r; eexists; reflexivity.
Qed.

Lemma scan_loop_index (fuel : nat) :
  forall st st',
    scan_loop env cmd argv allow_version allow_author path fuel st = Some (ScanEnd st') ->
    (ps_i st <= ps_i st')%nat.
Proof.
  induction fuel as [|fuel IH]; intros st st'; simpl; [discriminate|].
  destruct (scan_step env cmd argv allow_version allow_author path st) as [st1|st1|rc u1 l1]
    eqn:Hstep; intros H.
  - apply scan_step_progress in Hstep. apply IH in H. lia.
  - injection H as <-. revert Hstep. unfold scan_step.
    destruct (nth_error argv (ps_i st)) as [arg|]; [|intros [= <-]; lia].
    destruct (negb _); [intros [= <-]; lia|].
    destruct (String.eqb arg "--"); [intros [= <-]; simpl; lia|].
    destruct (is_char _ _).
    + unfold long_option, long_named, intercept, matched.
      repeat match goal with
             | |- context [match ?x with _ => _ end] => destruct x
             end; discriminate.
    + intros Hs. exfalso. revert Hs. generalize (set_i (S (ps_i st)) st).
      generalize (advance 1 arg). intros p. induction p as [|c p' IHp]; intros s; simpl.
      * discriminate.
      * unfold intercept, matched.
        repeat match goal with
               | |- context [match ?x with _ => _ end] => destruct x
               end; try discriminate; apply IHp.
  - discriminate.
Qed.

End ScanFacts.

(** ** Status codes of a level and termination of the dispatcher *)

Section LevelFacts.

Context {U : Type}.
Variable getenv : string -> option string.
Variable env : option cargs_env.

Lemma matched_Return (o : cargs_opt U) (val : option string) (st : pstate)
  (k : pstate -> step_result) (rc : Z) (u : U) (l : list (event U)) :
  matched o val st k = Return rc u l ->
  rc < 0 \/ exists st1, k st1 = Return rc u l.
Proof.
  unfold matched, bail_out. destruct (invoke o val st) as [rc1 st1].
  destruct (Z.ltb_spec rc1 0) as [Hneg|_].
  - intros [= <- <- <-]. left. exact Hneg.
  - intros H. right. eexists. exact H.
Qed.

(** An early return of the scan carries a failure code or the intercepted
    outcome. *)
Lemma scan_step_Return (cmd : option (cargs_cmd U)) (argv : list string)
  (av aa : bool) (path : list string) (st : pstate) (rc : Z) (u : U)
  (l : list (event U)) :
  scan_step env cmd argv av aa path st = Return rc u l ->
  rc < 0 \/ rc = CARGS_DONE.
Proof.
  unfold scan_step.
  destruct (nth_error argv (ps_i st)) as [arg|]; [|discriminate].
  destruct (negb _); [discriminate|].
  destruct (String.eqb arg "--"); [discriminate|].
  destruct (is_char _ _).
  - unfold long_option, long_named, intercept, bail_out.
    repeat match goal with
           | |- context [match ?x with _ => _ end] => destruct x
           end;
      intros H;
      try (injection H as <- _ _; (left; reflexivity) || (right; reflexivity));
      apply matched_Return in H; destruct H as [H|[st1 H]];
      try (left; exact H); discriminate.
  - generalize (set_i (S (ps_i st)) st). generalize (advance 1 arg).
    intros p. induction p as [|c p' IHp]; intros s; simpl; [discriminate|].
    unfold intercept, bail_out.
    repeat match goal with
           | |- context [match ?x with _ => _ end] => destruct x
           end;
      intros H;
      try (injection H as <- _ _; (left; reflexivity) || (right; reflexivity));
      apply matched_Return in H; destruct H as [H|[st1 H]];
      try (left; exact H); try discriminate; eapply IHp; exact H.
Qed.

Lemma scan_loop_Return (cmd : option (cargs_cmd U)) (argv : list string)
  (av aa : bool) (path : list string) (fuel : nat) :
  forall st rc u l,
    scan_loop env cmd argv av aa path fuel st = Some (ScanReturn rc u l) ->
    rc < 0 \/ rc = CARGS_DONE.
Proof.
  induction fuel as [|fuel IH]; intros st rc u l; simpl; [discriminate|].
  destruct (scan_step env cmd argv av aa path st) as [st1|st1|rc1 u1 l1] eqn:Hstep.
  - apply IH.
  - discriminate.
  - intros [= <- <- <-]. eapply scan_step_Return. exact Hstep.
Qed.

Lemma enforce_from_code (n : nat) :
  forall g xm rm counts,
    enforce_from n g xm rm counts = CARGS_OK \/
    enforce_from n g xm rm counts = CARGS_ERR_GROUP.
Proof.
  induction n as [|n IH]; intros g xm rm counts; simpl; [left; reflexivity|].
  destruct (negb _ && _); [right; reflexivity|].
  destruct (negb _ && _); [right; reflexivity|]. apply IH.
Qed.

(** A level that neither failed nor was intercepted leaves the index at
    or after where it found it. *)
Lemma level_index (cmd : option (cargs_cmd U)) (argv : list string)
  (av aa : bool) (path : list string) (idx : nat) (user : U)
  (log : list (event U)) (r : level_result) :
  cargs_parse_opts_level getenv env cmd argv av aa path idx user log = Some r ->
  lvl_rc r < 0 \/ lvl_rc r = CARGS_DONE \/
  (lvl_rc r = CARGS_OK /\ (idx <= lvl_idx r)%nat).
Proof.
  unfold cargs_parse_opts_level, level_scan.
  destruct (group_masks _ _ _) as [xm rm].
  destruct (scan_loop _ _ _ _ _ _ _ _) as [[st|rc u l]|] eqn:Hscan; [| |discriminate].
  - intros [= <-]. simpl.
    destruct (enforce_from_code 32 1 xm rm (ps_counts st)) as [H|H];
      unfold enforce_groups; rewrite H.
    + right. right. split; [reflexivity|]. simpl.
      apply scan_loop_index in Hscan. rewrite overlay_index in Hscan. exact Hscan.
    + left. reflexivity.
  - intros [= <-]. simpl. apply scan_loop_Return in Hscan.
    destruct Hscan as [H|H]; [left|right; left]; exact H.
Qed.

Lemma dispatch_loop_total (argv : list string) (fuel : nat) :
  forall (cmd : cargs_cmd U) i path user log,
    (List.length argv - i < fuel)%nat ->
    exists r, dispatch_loop getenv env argv fuel cmd i path user log = Some r.
Proof.
  induction fuel as [|fuel IH]; intros cmd i path user log Hfuel; [lia|].
  simpl.
  destruct (cargs_parse_opts_level_total getenv env (Some cmd) argv
              (List.length path =? 0)%nat (List.length path =? 0)%nat path i user log)
    as [r Hr].
  rewrite Hr.
  destruct (lvl_rc r =? CARGS_DONE) eqn:Hdone; [eexists; reflexivity|].
  destruct (lvl_rc r <? 0) eqn:Hneg; [eexists; reflexivity|].
  destruct (nth_error argv (lvl_idx r)) as [tok|] eqn:Htok; [|eexists; reflexivity].
  destruct (is_char _ _); [eexists; reflexivity|].
  destruct (cargs_find_sub cmd tok) as [sub|]; [|eexists; reflexivity].
  apply IH.
  assert (Hlt : (lvl_idx r < List.length argv)%nat)
    by (apply nth_error_Some; congruence).
  apply level_index in Hr. destruct Hr as [H|[H|[_ H]]]; [lia| |lia].
  rewrite H in Hdone. discriminate.
Qed.

(** The dispatcher returns on every input. *)
Lemma cargs_dispatch_total (root : option (cargs_cmd U)) (argc : Z)
  (argv : option (list string)) (user : U) :
  exists r, cargs_dispatch getenv env root argc argv user = Some r.
Proof.
  unfold cargs_dispatch.
  destruct root as [r|]; [|eexists; reflexivity].
  destruct argv as [av|]; [|eexists; reflexivity].
  destruct (argc <=? 0); [eexists; reflexivity|].
  apply dispatch_loop_total. lia.
Qed.

End LevelFacts.

(** ** Dispatcher: guards and the intercepted outcome *)

(** C9: with a NULL root, a NULL argument vector or a count that is not
    positive, the dispatcher returns the bad-format code at once: the
    context is untouched and no callback or handler was invoked. *)
Theorem dispatch_rejects_bad_arguments (U : Type)
  (getenv : string -> option string) (env : option cargs_env)
  (root : option (cargs_cmd U)) (argc : Z) (argv : option (list string))
  (user : U) :
  root = None \/ argv = None \/ argc <= 0 ->
  cargs_dispatch getenv env root argc argv user =
    Some (mk_dispatch CARGS_ERR_BAD_FORMAT user []).
Proof.
  intros H. unfold cargs_dispatch.
  destruct root as [r|]; [|reflexivity].
  destruct argv as [av|]; [|reflexivity].
  destruct (Z.leb_spec argc 0) as [_|Hpos]; [reflexivity|].
  destruct H as [H|[H|H]]; [discriminate | discriminate | lia].
Qed.

Lemma dispatch_rejects_bad_arguments_witness :
  cargs_dispatch Sample.no_getenv Sample.test_env (Some Sample.root) 0
    (Some ["t"; "--jobs"; "10"]) Sample.t0 =
  Some (mk_dispatch CARGS_ERR_BAD_FORMAT Sample.t0 []).
Proof.
  apply (dispatch_rejects_bad_arguments Sample.tstate Sample.no_getenv
           Sample.test_env (Some Sample.root) 0 (Some ["t"; "--jobs"; "10"])
           Sample.t0).
  right. right. lia.
Defined.

(** C1, as stated, fails: with the help builtin enabled, the level parser
    answers the help flag with the intercepted outcome (the positive
    constant), and the dispatcher turns it into zero, the status of an
    ordinary success. *)
Lemma help_intercepted_dispatch_zero :
  option_map lvl_rc
    (cargs_parse_opts_level Sample.no_getenv Sample.test_env (Some Sample.root)
       ["t"; "--help"] true true [] 1 Sample.t0 []) = Some CARGS_DONE /\
  Sample.run_vec ["t"; "--help"] =
    Some (mk_dispatch 0 Sample.t0 [EvHelp (Some Sample.root) []]) /\
  Sample.run_vec ["t"] =
    Some (mk_dispatch 0 (Sample.mk_tstate None None ["root"])
            [EvRun Sample.root []]) /\
  ~ (0 < CARGS_OK).
Proof. repeat split; try (vm_compute; reflexivity). vm_compute. discriminate. Qed.

(** C1 (amended): whenever the level parser, at any depth of the descent,
    returns the intercepted outcome, the dispatcher returns zero with the
    context and the log as that level left them (no handler runs); and a
    dispatch call returns a positive status only as the value its handler
    returned. *)
Theorem intercepted_dispatch_returns_ok (U : Type)
  (getenv : string -> option string) (env : option cargs_env)
  (argv : list string) :
  (forall fuel (cmd : cargs_cmd U) i path user log r,
     cargs_parse_opts_level getenv env (Some cmd) argv
       (List.length path =? 0)%nat (List.length path =? 0)%nat path i user log
       = Some r ->
     lvl_rc r = CARGS_DONE ->
     dispatch_loop getenv env argv (S fuel) cmd i path user log =
       Some (mk_dispatch CARGS_OK (lvl_user r) (lvl_log r))) /\
  (forall fuel (cmd : cargs_cmd U) i path user log d,
     dispatch_loop getenv env argv fuel cmd i path user log = Some d ->
     0 < d_rc d ->
     exists c args l, d_log d = (l ++ [EvRun c args])%list) /\
  (forall (root : cargs_cmd U) user d,
     cargs_dispatch getenv env (Some root) (Z.of_nat (List.length argv))
       (Some argv) user = Some d ->
     0 < d_rc d ->
     exists c args l, d_log d = (l ++ [EvRun c args])%list).
Proof.
  assert (Hloop : forall fuel (cmd : cargs_cmd U) i path user log d,
     dispatch_loop getenv env argv fuel cmd i path user log = Some d ->
     0 < d_rc d ->
     exists c args l, d_log d = (l ++ [EvRun c args])%list).
  { induction fuel as [|fuel IH]; intros cmd i path user log d; simpl; [discriminate|].
    destruct (cargs_parse_opts_level _ _ _ _ _ _ _ _ _ _) as [r|]; [|discriminate].
    destruct (lvl_rc r =? CARGS_DONE).
    { intros [= <-]. simpl. unfold CARGS_OK. lia. }
    destruct (Z.ltb_spec (lvl_rc r) 0) as [Hneg|_].
    { intros [= <-]. simpl. lia. }
    assert (Hleaf : forall j,
      Some (dispatch_leaf argv cmd j path (lvl_user r) (lvl_log r)) = Some d ->
      0 < d_rc d -> exists c args l, d_log d = (l ++ [EvRun c args])%list).
    { intros j [= <-]. unfold dispatch_leaf.
      destruct (Z.ltb_spec (cargs_validate_positional (Some cmd)
                  (Z.of_nat (List.length argv) - Z.of_nat j)) 0) as [Hp|_].
      - cbn [d_rc]. lia.
      - destruct (cmd_run cmd) as [run|].
        + destruct (run _ _) as [rc u']. simpl. intros _.
          eexists; eexists; eexists; reflexivity.
        + simpl. unfold CARGS_OK. lia. }
    destruct (nth_error argv (lvl_idx r)) as [tok|]; [|apply Hleaf].
    destruct (is_char _ _); [apply Hleaf|].
    destruct (cargs_find_sub cmd tok) as [sub|]; [|apply Hleaf].
    apply IH. }
  split; [|split].
  - intros fuel cmd i path user log r Hr Hdone. simpl. rewrite Hr, Hdone.
    reflexivity.
  - exact Hloop.
  - intros root user d. unfold cargs_dispatch.
    destruct (Z.leb_spec (Z.of_nat (List.length argv)) 0) as [_|_].
    + intros [= <-]. simpl. unfold CARGS_ERR_BAD_FORMAT. lia.
    + rewrite Nat2Z.id, firstn_all. apply Hloop.
Qed.

Lemma intercepted_dispatch_returns_ok_witness :
  dispatch_loop Sample.no_getenv Sample.test_env ["t"; "--help"] 1 Sample.root 1 []
    Sample.t0 [] =
  Some (mk_dispatch CARGS_OK Sample.t0 [EvHelp (Some Sample.root) []]).
Proof.
  exact (proj1 (intercepted_dispatch_returns_ok Sample.tstate Sample.no_getenv
                  Sample.test_env ["t"; "--help"])
           0%nat Sample.root 1%nat [] Sample.t0 []
           (mk_level CARGS_DONE 2 Sample.t0 [EvHelp (Some Sample.root) []])
           eq_refl eq_refl).
Defined.

(** C2 (the code departs from it): a token after the double dash that
    names a child command makes the dispatcher descend into that child.
    The child's handler runs instead of the root's, and the tokens after
    it are scanned as the child's options. *)
Theorem double_dash_then_subcommand_descends :
  Sample.run_vec ["t"; "--"; "remote"] =
    Some (mk_dispatch 0 (Sample.mk_tstate None None ["remote"])
            [EvRun Sample.remote []]) /\
  Sample.run_vec ["t"; "--"; "remote"; "rm"; "origin"] =
    Some (mk_dispatch 0 (Sample.mk_tstate None None ["remove"])
            [EvRun Sample.remote_remove ["origin"]]) /\
  Sample.run_vec ["t"; "--"; "remote"; "--jobs"] =
    Some (mk_dispatch CARGS_ERR_UNKNOWN Sample.t0 []) /\
  Sample.run_vec ["t"; "--"; "-not"; "remote"] =
    Some (mk_dispatch 0 (Sample.mk_tstate None None ["root"])
            [EvRun Sample.root ["-not"; "remote"]]).
Proof. repeat split; vm_compute; reflexivity. Qed.

(** C5 (the code departs from it): the two masks are 32 bits wide, so the
    bit of group 32 is lost when it is recorded.  Two matched members of a
    mutually exclusive group 32 leave its counter at two and the level
    succeeds; the same options in group 31 give the group failure. *)
Theorem group_32_not_enforced :
  group_masks [Sample.o_a 32; Sample.o_b 32] 0 0 = (0, 0) /\
  option_map (fun r => match r with
                       | ScanEnd st => Some (ps_counts st 32)
                       | ScanReturn _ _ _ => None
                       end)
    (level_scan Sample.no_getenv Sample.test_env (Some (Sample.pair_root 32))
       ["t"; "-a"; "-b"] true true [] 1 Sample.t0 []) = Some (Some 2) /\
  option_map d_rc (Sample.run_pair 32 ["t"; "-a"; "-b"]) = Some CARGS_OK /\
  option_map d_rc (Sample.run_pair 31 ["t"; "-a"; "-b"]) = Some CARGS_ERR_GROUP.
Proof. repeat split; vm_compute; reflexivity. Qed.

(** ** The lookahead heuristic *)

Lemma is_char_true (c : option ascii) (a : ascii) :
  is_char c a = true <-> c = Some a.
Proof.
  destruct c as [b|]; simpl.
  - rewrite Ascii.eqb_eq. split; [intros ->; reflexivity | intros [= ->]; reflexivity].
  - split; discriminate.
Qed.

Lemma looks_numeric_signed (s : ascii) (rest : string) :
  s = "+"%char \/ s = "-"%char ->
  (cargs_token_looks_numeric (String s rest) = true <->
   ((exists d rest', rest = String d rest' /\ isdigit (Some d) = true) \/
    (exists d rest', rest = String "." (String d rest') /\ isdigit (Some d) = true) \/
    (exists x rest', rest = String "0" (String x rest') /\
                     (x = "x"%char \/ x = "X"%char)))).
Proof.
  intros Hs.
  assert (Hsign : Ascii.eqb s "+" || Ascii.eqb s "-" = true)
    by (destruct Hs as [-> | ->]; reflexivity).
  unfold cargs_token_looks_numeric. cbn [String.get]. rewrite Hsign.
  destruct rest as [|d r1]; cbn [String.get].
  - simpl. split; [discriminate|].
    intros [(d & r & H & _)|[(d & r & H & _)|(x & r & H & _)]]; discriminate.
  - destruct (isdigit (Some d)) eqn:Hd.
    + split; [|reflexivity]. intros _. left. exists d, r1. split; [reflexivity|exact Hd].
    + destruct r1 as [|d2 r2]; cbn [String.get].
      * simpl. rewrite !andb_false_r. split; [discriminate|].
        intros [(d' & r & H & Hd')|[(d' & r & H & _)|(x & r & H & _)]];
          try discriminate.
        injection H as <- <-. unfold isdigit in Hd. congruence.
      * split.
        -- intros H. destruct (is_char (Some d) "." && isdigit (Some d2)) eqn:Hdot.
           ++ apply andb_true_iff in Hdot. destruct Hdot as [Hdot Hd2].
              apply is_char_true in Hdot. injection Hdot as ->.
              right. left. exists d2, r2. split; [reflexivity|exact Hd2].
           ++ destruct (is_char (Some d) "0" && _) eqn:Hhex; [|discriminate].
              apply andb_true_iff in Hhex. destruct Hhex as [Hz Hx].
              apply is_char_true in Hz. injection Hz as ->.
              apply orb_true_iff in Hx.
              right. right. exists d2, r2. split; [reflexivity|].
              destruct Hx as [Hx|Hx]; apply is_char_true in Hx;
                injection Hx as ->; [left|right]; reflexivity.
        -- intros [(d' & r & H & Hd')|[(d' & r & H & Hd')|(x & r & H & Hx)]].
           ++ injection H as <- <-. congruence.
           ++ injection H as -> <- <-. simpl is_char at 1. rewrite Hd'. reflexivity.
           ++ injection H as -> <- <-.
              destruct (is_char (Some "0"%char) "." && isdigit (Some d2)); [reflexivity|].
              destruct Hx as [-> | ->]; reflexivity.
Qed.

(** The guard of the code and the condition of the specification agree on
    every token. *)
Lemma takes_next_spec (t : string) : takes_next t = true <-> spec_lookahead t.
Proof.
  unfold takes_next, spec_lookahead.
  rewrite andb_true_iff, negb_true_iff, String.eqb_neq.
  apply and_iff_compat_l.
  destruct t as [|c rest].
  - simpl. split; [intros _; left; intros r; discriminate | reflexivity].
  - cbn [String.get]. simpl is_char.
    destruct (Ascii.eqb_spec c "-") as [->|Hc]; simpl negb; simpl orb.
    + rewrite (looks_numeric_signed "-" rest (or_intror eq_refl)).
      simpl. split.
      * intros H. right. split; [right; reflexivity | exact H].
      * intros [H|[_ H]]; [exfalso; apply (H rest); reflexivity | exact H].
    + split; [|reflexivity]. intros _. left. intros r [= ->]. apply Hc. reflexivity.
Qed.

(** ** The forms of an option token *)

Lemma strchr_append (name v : string) (c : ascii) :
  strchr name c = None -> strchr (name ++ String c v) c = Some (String.length name).
Proof.
  induction name as [|a name IH]; simpl.
  - intros _. rewrite Ascii.eqb_refl. reflexivity.
  - destruct (Ascii.eqb a c); [discriminate|].
    destruct (strchr name c); [discriminate|].
    intros _. rewrite IH by reflexivity. reflexivity.
Qed.

Lemma prefix_append (name rest : string) :
  prefix (String.length name) (name ++ rest) = name.
Proof.
  induction name as [|a name IH]; simpl; [reflexivity|]. now rewrite IH.
Qed.

Lemma advance_append (name v : string) (c : ascii) :
  advance (S (String.length name)) (name ++ String c v) = v.
Proof.
  induction name as [|a name IH]; simpl; [reflexivity|]. exact IH.
Qed.

Section TokenForms.

Context {U : Type}.
Variable env : option cargs_env.
Variable cmd : option (cargs_cmd U).
Variable argv : list string.
Variables allow_version allow_author : bool.
Variable path : list string.

(** Moving the index before or after a match comes to the same. *)
Lemma matched_set_i (o : cargs_opt U) (val : option string) (j : nat)
  (st : pstate) (k : pstate -> step_result) :
  matched o val (set_i j st) k = matched o val st (fun st' => k (set_i j st')).
Proof.
  unfold matched, invoke, bail_out.
  destruct (opt_cb o) as [f|]; simpl.
  - destruct (f val (ps_user st)) as [rc u']. simpl.
    destruct (rc <? 0); reflexivity.
  - reflexivity.
Qed.

(** Only the continuation's value on states at the same index matters. *)
Lemma matched_ext (o : cargs_opt U) (val : option string) (st : pstate)
  (k k' : pstate -> step_result) :
  (forall st', ps_i st' = ps_i st -> k st' = k' st') ->
  matched o val st k = matched o val st k'.
Proof.
  intros Hk. unfold matched. pose proof (invoke_index o val st) as Hi.
  destruct (invoke o val st) as [rc st1]. simpl in Hi.
  destruct (rc <? 0); [reflexivity|]. apply Hk. exact Hi.
Qed.

Lemma scan_step_long (st : pstate) (tail : string) :
  tail <> "" ->
  nth_error argv (ps_i st) = Some ("--" ++ tail) ->
  scan_step env cmd argv allow_version allow_author path st =
  long_option env cmd argv allow_version allow_author path ("--" ++ tail) st.
Proof.
  intros Hne Harg. unfold scan_step. rewrite Harg. simpl.
  destruct tail; [congruence|reflexivity].
Qed.

Lemma long_option_plain (st : pstate) (name : string) :
  strchr name "=" = None ->
  long_option env cmd argv allow_version allow_author path ("--" ++ name) st =
  long_named env cmd argv allow_version allow_author path name None st.
Proof. intros H. unfold long_option. simpl. rewrite H. reflexivity. Qed.

Lemma long_option_attached (st : pstate) (name v : string) :
  strchr name "=" = None -> (String.length name < 96)%nat ->
  long_option env cmd argv allow_version allow_author path
    ("--" ++ name ++ String "=" v) st =
  long_named env cmd argv allow_version allow_author path name (Some v) st.
Proof.
  intros H Hlen. unfold long_option.
  change (advance 2 ("--" ++ name ++ String "=" v)) with (name ++ String "=" v).
  rewrite strchr_append by exact H.
  destruct (Nat.leb_spec 96 (String.length name)) as [Hbig|_]; [lia|].
  rewrite prefix_append, advance_append. reflexivity.
Qed.

Lemma scan_step_short (st : pstate) (c : ascii) (p : string) :
  c <> "-"%char ->
  nth_error argv (ps_i st) = Some (String "-" (String c p)) ->
  scan_step env cmd argv allow_version allow_author path st =
  short_cluster env cmd argv allow_version path (String c p) (set_i (S (ps_i st)) st).
Proof.
  intros Hc Harg. unfold scan_step. rewrite Harg. cbn [String.get is_char advance].
  rewrite Ascii.eqb_refl. cbn [negb].
  assert (Hneq : Ascii.eqb c "-" = false) by (apply Ascii.eqb_neq; exact Hc).
  rewrite Hneq.
  replace (String.eqb (String "-" (String c p)) "--") with false; [reflexivity|].
  symmetry. apply String.eqb_neq. intros [= -> _]. apply Hc. reflexivity.
Qed.

End TokenForms.

(** A matched option does what the specification states of it. *)
Lemma matched_called {U : Type} (o : cargs_opt U) (f : cargs_cb U)
  (val : option string) (st : pstate) (k : pstate -> step_result) :
  opt_cb o = Some f -> matched o val st k = called_with o f val st k.
Proof.
  intros Hcb. unfold matched, invoke, called_with, bail_out, counted. rewrite Hcb.
  destruct (f val (ps_user st)) as [rc u']. cbn [ps_user ps_log ps_i ps_counts].
  destruct (rc <? 0); reflexivity.
Qed.

Lemma matched_option_then {U : Type} (o : cargs_opt U) (val : option string)
  (st : pstate) (k : pstate -> step_result) :
  matched o val st k = option_then o val st k.
Proof.
  unfold option_then. destruct (opt_cb o) as [f|] eqn:Hcb.
  - apply matched_called. exact Hcb.
  - unfold matched, invoke, counted. rewrite Hcb. reflexivity.
Qed.

(** The branch an OPTIONAL option takes, by the lookahead test. *)
Lemma optional_lookahead_steps (U : Type) (env : option cargs_env)
  (cmd : option (cargs_cmd U)) (argv : list string) (av aa : bool)
  (path : list string) (st : pstate) (o : cargs_opt U) (nxt : string) :
  opt_arg o = CARGS_ARG_OPTIONAL ->
  (forall name,
     name <> "" -> strchr name "=" = None ->
     nth_error argv (ps_i st) = Some ("--" ++ name) ->
     nth_error argv (S (ps_i st)) = Some nxt ->
     long_builtin env cmd av aa path name = None ->
     cargs_find_long (level_opts cmd) name = Some o ->
     (spec_lookahead nxt ->
      scan_step env cmd argv av aa path st =
      matched o (Some nxt) st (fun st' => Continue (set_i (2 + ps_i st) st'))) /\
     (~ spec_lookahead nxt ->
      scan_step env cmd argv av aa path st =
      matched o None st (fun st' => Continue (set_i (1 + ps_i st) st')))) /\
  (forall c,
     c <> "-"%char ->
     nth_error argv (ps_i st) = Some (String "-" (String c "")) ->
     nth_error argv (S (ps_i st)) = Some nxt ->
     short_builtin env cmd av path c = None ->
     cargs_find_short (level_opts cmd) c = Some o ->
     (spec_lookahead nxt ->
      scan_step env cmd argv av aa path st =
      matched o (Some nxt) st (fun st' => Continue (set_i (2 + ps_i st) st'))) /\
     (~ spec_lookahead nxt ->
      scan_step env cmd argv av aa path st =
      matched o None st (fun st' => Continue (set_i (1 + ps_i st) st')))) /\
  (forall c,
     nth_error argv (ps_i st) = Some nxt ->
     short_builtin env cmd av path c = None ->
     cargs_find_short (level_opts cmd) c = Some o ->
     (spec_lookahead nxt ->
      short_cluster env cmd argv av path (String c "") st =
      matched o (Some nxt) st (fun st' => Continue (set_i (1 + ps_i st) st'))) /\
     (~ spec_lookahead nxt ->
      short_cluster env cmd argv av path (String c "") st =
      matched o None st Continue)).
Proof.
  intros Hkind.
  assert (Hcluster : forall (s : pstate) c,
     nth_error argv (ps_i s) = Some nxt ->
     short_builtin env cmd av path c = None ->
     cargs_find_short (level_opts cmd) c = Some o ->
     short_cluster env cmd argv av path (String c "") s =
     if takes_next nxt
     then matched o (Some nxt) s (fun st' => Continue (set_i (1 + ps_i s) st'))
     else matched o None s Continue).
  { intros s c Hnxt Hb Hfind. cbn [short_cluster].
    rewrite Hb, Hfind, Hkind, Hnxt.
    destruct (takes_next nxt); [|reflexivity].
    rewrite matched_set_i. reflexivity. }
  pose proof (takes_next_spec nxt) as Hspec.
  split; [|split].
  - intros name Hne Heq Harg Hnxt Hb Hfind.
    rewrite (scan_step_long env cmd argv av aa path st name Hne Harg).
    rewrite long_option_plain by exact Heq.
    unfold long_named. rewrite Hb, Hfind, Hkind, Hnxt.
    destruct (takes_next nxt).
    + split; [intros _ | intros Hno; exfalso; apply Hno, Hspec; reflexivity].
      rewrite matched_set_i. reflexivity.
    + split; [intros Hyes; apply Hspec in Hyes; discriminate | intros _].
      apply matched_ext. intros st' Hi. rewrite Hi. reflexivity.
  - intros c Hc Harg Hnxt Hb Hfind.
    rewrite (scan_step_short env cmd argv av aa path st c "" Hc Harg).
    rewrite (Hcluster (set_i (S (ps_i st)) st) c Hnxt Hb Hfind).
    destruct (takes_next nxt).
    + split; [intros _ | intros Hno; exfalso; apply Hno, Hspec; reflexivity].
      rewrite matched_set_i. reflexivity.
    + split; [intros Hyes; apply Hspec in Hyes; discriminate | intros _].
      rewrite matched_set_i. reflexivity.
  - intros c Hnxt Hb Hfind. rewrite (Hcluster st c Hnxt Hb Hfind).
    destruct (takes_next nxt).
    + split; [intros _; reflexivity | intros Hno; exfalso; apply Hno, Hspec; reflexivity].
    + split; [intros Hyes; apply Hspec in Hyes; discriminate | intros _; reflexivity].
Qed.

(** C4: an OPTIONAL option matched without an attached value, in the long
    form, as a short token, or at the end of a short cluster, takes the
    next token as its value exactly when the token is not the double dash
    and either does not start with a dash or looks numeric: its callback
    is then called with that token and the scan resumes after it;
    otherwise its callback is called with no value and the scan resumes at
    that token.  When no token follows, the callback is called with no
    value.  In each case a negative result of the callback ends the level
    with that code, and any other result lets the scan go on with the
    group of the option counted. *)
Theorem optional_lookahead (U : Type) (env : option cargs_env)
  (cmd : option (cargs_cmd U)) (argv : list string) (av aa : bool)
  (path : list string) (st : pstate) (o : cargs_opt U) (nxt : string) :
  opt_arg o = CARGS_ARG_OPTIONAL ->
  (forall name,
     name <> "" -> strchr name "=" = None ->
     nth_error argv (ps_i st) = Some ("--" ++ name) ->
     nth_error argv (S (ps_i st)) = Some nxt ->
     long_builtin env cmd av aa path name = None ->
     cargs_find_long (level_opts cmd) name = Some o ->
     (spec_lookahead nxt ->
      scan_step env cmd argv av aa path st =
      option_then o (Some nxt) st (resume_at (2 + ps_i st))) /\
     (~ spec_lookahead nxt ->
      scan_step env cmd argv av aa path st =
      option_then o None st (resume_at (1 + ps_i st)))) /\
  (forall c,
     c <> "-"%char ->
     nth_error argv (ps_i st) = Some (String "-" (String c "")) ->
     nth_error argv (S (ps_i st)) = Some nxt ->
     short_builtin env cmd av path c = None ->
     cargs_find_short (level_opts cmd) c = Some o ->
     (spec_lookahead nxt ->
      scan_step env cmd argv av aa path st =
      option_then o (Some nxt) st (resume_at (2 + ps_i st))) /\
     (~ spec_lookahead nxt ->
      scan_step env cmd argv av aa path st =
      option_then o None st (resume_at (1 + ps_i st)))) /\
  (forall c,
     nth_error argv (ps_i st) = Some nxt ->
     short_builtin env cmd av path c = None ->
     cargs_find_short (level_opts cmd) c = Some o ->
     (spec_lookahead nxt ->
      short_cluster env cmd argv av path (String c "") st =
      option_then o (Some nxt) st (resume_at (1 + ps_i st))) /\
     (~ spec_lookahead nxt ->
      short_cluster env cmd argv av path (String c "") st =
      option_then o None st Continue)) /\
  (forall name,
     name <> "" -> strchr name "=" = None ->
     nth_error argv (ps_i st) = Some ("--" ++ name) ->
     nth_error argv (S (ps_i st)) = None ->
     long_builtin env cmd av aa path name = None ->
     cargs_find_long (level_opts cmd) name = Some o ->
     scan_step env cmd argv av aa path st =
     option_then o None st (resume_at (1 + ps_i st))) /\
  (forall c,
     c <> "-"%char ->
     nth_error argv (ps_i st) = Some (String "-" (String c "")) ->
     nth_error argv (S (ps_i st)) = None ->
     short_builtin env cmd av path c = None ->
     cargs_find_short (level_opts cmd) c = Some o ->
     scan_step env cmd argv av aa path st =
     option_then o None st (resume_at (1 + ps_i st))).
Proof.
  intros Hkind.
  destruct (optional_lookahead_steps U env cmd argv av aa path st o nxt Hkind)
    as (Hlong & Hshort & Hcluster).
  split; [|split; [|split; [|split]]].
  - intros name Hne Heq Harg Hnxt Hb Hfind.
    destruct (Hlong name Hne Heq Harg Hnxt Hb Hfind) as [Hyes Hno].
    split; intros H; [rewrite (Hyes H)|rewrite (Hno H)]; apply matched_option_then.
  - intros c Hc Harg Hnxt Hb Hfind.
    destruct (Hshort c Hc Harg Hnxt Hb Hfind) as [Hyes Hno].
    split; intros H; [rewrite (Hyes H)|rewrite (Hno H)]; apply matched_option_then.
  - intros c Hnxt Hb Hfind.
    destruct (Hcluster c Hnxt Hb Hfind) as [Hyes Hno].
    split; intros H; [rewrite (Hyes H)|rewrite (Hno H)]; apply matched_option_then.
  - intros name Hne Heq Harg Hnone Hb Hfind.
    rewrite (scan_step_long env cmd argv av aa path st name Hne Harg).
    rewrite long_option_plain by exact Heq.
    unfold long_named. rewrite Hb, Hfind, Hkind, Hnone.
    rewrite <- matched_option_then.
    apply matched_ext. intros st' Hi. unfold resume_at. rewrite Hi. reflexivity.
  - intros c Hc Harg Hnone Hb Hfind.
    rewrite (scan_step_short env cmd argv av aa path st c "" Hc Harg).
    cbn [short_cluster]. rewrite Hb, Hfind, Hkind. cbn [set_i ps_i].
    rewrite Hnone. rewrite matched_set_i. apply matched_option_then.
Qed.

Lemma optional_lookahead_witness :
  scan_step Sample.test_env (Some Sample.root) ["t"; "-V"; "--limit"; "-5"; "-x"]
    true true []
    (mk_pstate 2 (fun _ => 0) Sample.t0 [EvCallback Sample.o_verbose None]) =
  Continue
    (mk_pstate 4 (fun _ => 0) (Sample.mk_tstate None (Some (Some "-5")) [])
       [EvCallback Sample.o_verbose None; EvCallback Sample.o_limit (Some "-5")]).
Proof.
  refine (proj1 (proj1 (optional_lookahead Sample.tstate Sample.test_env
            (Some Sample.root) ["t"; "-V"; "--limit"; "-5"; "-x"] true true []
            (mk_pstate 2 (fun _ => 0) Sample.t0 [EvCallback Sample.o_verbose None])
            Sample.o_limit "-5" eq_refl)
            "limit" _ eq_refl eq_refl eq_refl eq_refl eq_refl) _).
  - discriminate.
  - split; [discriminate|]. right. split; [right; reflexivity|].
    left. exists "5"%char, "". split; reflexivity.
Defined.

(** ** A level made of a single matched option *)

Section SingleMatch.

Context {U : Type}.
Variable getenv : string -> option string.
Variable env : option cargs_env.
Variable cmd : option (cargs_cmd U).
Variable argv : list string.
Variables allow_version allow_author : bool.
Variable path : list string.

(** When the first iteration matches [o] and resumes at the end of the
    vector, the level is the single-value outcome. *)
Lemma level_single_match (o : cargs_opt U) (f : cargs_cb U) (val : option string)
  (user : U) (log : list (event U)) :
  opt_cb o = Some f ->
  (let st0 := cargs_apply_env_defaults_level getenv (level_opts cmd)
                (mk_pstate 1 (fun _ => 0) user log) in
   scan_step env cmd argv allow_version allow_author path st0 =
   matched o val st0 (fun st' => Continue (set_i (List.length argv) st'))) ->
  cargs_parse_opts_level getenv env cmd argv allow_version allow_author path
    1 user log =
  Some (single_value_outcome getenv (level_opts cmd) o f val user log 1
          (List.length argv)).
Proof.
  intros Hcb Hstep. cbv zeta in Hstep.
  unfold cargs_parse_opts_level, single_value_outcome, level_scan.
  destruct (group_masks (level_opts cmd) 0 0) as [xm rm].
  set (st0 := cargs_apply_env_defaults_level getenv (level_opts cmd)
                (mk_pstate 1 (fun _ => 0) user log)) in *.
  assert (Hlen : exists n, List.length argv = S n).
  { destruct argv as [|a rest]; [|eexists; reflexivity].
    exfalso. revert Hstep. unfold scan_step, matched, bail_out.
    destruct (ps_i st0); cbn [nth_error]; destruct (invoke o val st0) as [rc st1];
      destruct (rc <? 0); discriminate. }
  destruct Hlen as [n Hlen]. rewrite Hlen in *.
  cbn [scan_loop]. rewrite Hstep. unfold matched, invoke, bail_out. rewrite Hcb.
  destruct (f val (ps_user st0)) as [rc u']. cbn [ps_user ps_log ps_counts ps_i].
  destruct (rc <? 0) eqn:Hrc.
  - rewrite Hrc. reflexivity.
  - unfold scan_step. cbn [set_i counted ps_i].
    assert (Hnone : nth_error argv (S n) = None)
      by (apply nth_error_None; lia).
    rewrite Hnone. reflexivity.
Qed.

End SingleMatch.

(** C3, as stated, fails for the empty value: attached to the short
    character it leaves the bare short option, which finds no value and
    fails without calling back, while the long form with the equals sign
    calls back with the empty string. *)
Lemma required_empty_attached_value :
  cargs_parse_opts_level Sample.no_getenv Sample.test_env (Some Sample.root)
    ["t"; String "-" (String "j" "")] true true [] 1 Sample.t0 [] =
    Some (mk_level CARGS_ERR_MISSING_VAL 1 Sample.t0 []) /\
  cargs_parse_opts_level Sample.no_getenv Sample.test_env (Some Sample.root)
    ["t"; "--jobs" ++ String "=" ""] true true [] 1 Sample.t0 [] =
    Some (mk_level CARGS_OK 2 (Sample.mk_tstate (Some "") None [])
            [EvCallback Sample.o_jobs (Some "")]).
Proof. split; vm_compute; reflexivity. Qed.

(** The other limits of the four forms: a short character that an enabled
    builtin takes first, and a long name that fills the name buffer, for
    which only the form with the equals sign fails. *)
Lemma required_forms_limits :
  let level := fun argv =>
    cargs_parse_opts_level Sample.no_getenv Sample.test_env (Some limits_root)
      argv true true [] 1 Sample.t0 [] in
  level ["t"; "-h"; "x"] =
    Some (mk_level CARGS_DONE 3 Sample.t0 [EvHelp (Some limits_root) []]) /\
  level ["t"; "--host"; "x"] =
    Some (mk_level CARGS_OK 3 (Sample.mk_tstate (Some "x") None [])
            [EvCallback o_host (Some "x")]) /\
  level ["t"; "--" ++ name96 ++ "=x"] =
    Some (mk_level CARGS_ERR_BAD_FORMAT 1 Sample.t0 []) /\
  level ["t"; "--" ++ name96; "x"] =
    Some (mk_level CARGS_OK 3 (Sample.mk_tstate (Some "x") None [])
            [EvCallback o_wide (Some "x")]).
Proof. repeat split; vm_compute; reflexivity. Qed.

(** The four forms wherever the scan meets them. *)
Lemma required_forms_steps (U : Type) (env : option cargs_env) (c : cargs_cmd U)
  (argv : list string) (av aa : bool) (path : list string)
  (o : cargs_opt U) (f : cargs_cb U) (name : string) (x : ascii) (v : string)
  (st : pstate) :
  opt_arg o = CARGS_ARG_REQUIRED ->
  opt_cb o = Some f ->
  cargs_find_long (cmd_opts c) name = Some o ->
  cargs_find_short (cmd_opts c) x = Some o ->
  name <> "" -> strchr name "=" = None -> (String.length name < 96)%nat ->
  x <> "-"%char ->
  long_builtin env (Some c) av aa path name = None ->
  short_builtin env (Some c) av path x = None ->
  (nth_error argv (ps_i st) = Some ("--" ++ name) ->
   nth_error argv (S (ps_i st)) = Some v ->
   scan_step env (Some c) argv av aa path st =
   called_with o f (Some v) st (resume_at (2 + ps_i st))) /\
  (nth_error argv (ps_i st) = Some ("--" ++ name ++ String "=" v) ->
   scan_step env (Some c) argv av aa path st =
   called_with o f (Some v) st (resume_at (1 + ps_i st))) /\
  (v <> "" ->
   nth_error argv (ps_i st) = Some (String "-" (String x v)) ->
   scan_step env (Some c) argv av aa path st =
   called_with o f (Some v) st (resume_at (1 + ps_i st))) /\
  (nth_error argv (ps_i st) = Some (String "-" (String x "")) ->
   nth_error argv (S (ps_i st)) = Some v ->
   scan_step env (Some c) argv av aa path st =
   called_with o f (Some v) st (resume_at (2 + ps_i st))) /\
  (v <> "" ->
   short_cluster env (Some c) argv av path (String x v) st =
   called_with o f (Some v) st Continue) /\
  (nth_error argv (ps_i st) = Some v ->
   short_cluster env (Some c) argv av path (String x "") st =
   called_with o f (Some v) st (resume_at (1 + ps_i st))).
Proof.
  intros Hkind Hcb Hlong Hshort Hne Heq Hlen Hx Hbl Hbs.
  assert (Hattached : forall s : pstate,
            v <> "" ->
            short_cluster env (Some c) argv av path (String x v) s =
            called_with o f (Some v) s Continue).
  { intros s Hv. cbn [short_cluster level_opts]. rewrite Hbs, Hshort, Hkind.
    destruct v as [|v0 v']; [congruence|]. apply matched_called. exact Hcb. }
  assert (Hseparate : forall s : pstate,
            nth_error argv (ps_i s) = Some v ->
            short_cluster env (Some c) argv av path (String x "") s =
            called_with o f (Some v) s (resume_at (1 + ps_i s))).
  { intros s Hv. cbn [short_cluster level_opts]. rewrite Hbs, Hshort, Hkind, Hv.
    rewrite matched_set_i. apply matched_called. exact Hcb. }
  split; [|split; [|split; [|split; [|split]]]].
  - intros Harg Hv.
    rewrite (scan_step_long env (Some c) argv av aa path st name Hne Harg).
    rewrite long_option_plain by exact Heq.
    unfold long_named. cbn [level_opts]. rewrite Hbl, Hlong, Hkind, Hv.
    rewrite matched_set_i. rewrite (matched_called o f _ _ _ Hcb). reflexivity.
  - intros Harg.
    rewrite (scan_step_long env (Some c) argv av aa path st (name ++ String "=" v))
      by (try exact Harg; destruct name; discriminate).
    rewrite long_option_attached by assumption.
    unfold long_named. cbn [level_opts]. rewrite Hbl, Hlong, Hkind.
    rewrite (matched_called o f _ _ _ Hcb). reflexivity.
  - intros Hv Harg.
    rewrite (scan_step_short env (Some c) argv av aa path st x v Hx Harg).
    rewrite (Hattached _ Hv). reflexivity.
  - intros Harg Hv.
    rewrite (scan_step_short env (Some c) argv av aa path st x "" Hx Harg).
    rewrite (Hseparate (set_i (S (ps_i st)) st) Hv). reflexivity.
  - apply Hattached.
  - apply Hseparate.
Qed.

(** The four forms when the form is all the level is given. *)
Lemma required_forms_alone (U : Type) (getenv : string -> option string)
  (env : option cargs_env) (c : cargs_cmd U) (av aa : bool) (path : list string)
  (o : cargs_opt U) (f : cargs_cb U) (name : string) (x : ascii)
  (v prog : string) (user : U) (log : list (event U)) :
  opt_arg o = CARGS_ARG_REQUIRED ->
  opt_cb o = Some f ->
  cargs_find_long (cmd_opts c) name = Some o ->
  cargs_find_short (cmd_opts c) x = Some o ->
  name <> "" -> strchr name "=" = None -> (String.length name < 96)%nat ->
  x <> "-"%char ->
  long_builtin env (Some c) av aa path name = None ->
  short_builtin env (Some c) av path x = None ->
  let level := fun argv =>
    cargs_parse_opts_level getenv env (Some c) argv av aa path 1 user log in
  let outcome := single_value_outcome getenv (cmd_opts c) o f (Some v) user log 1 in
  level [prog; "--" ++ name; v] = Some (outcome 3%nat) /\
  level [prog; "--" ++ name ++ String "=" v] = Some (outcome 2%nat) /\
  (v <> "" -> level [prog; String "-" (String x v)] = Some (outcome 2%nat)) /\
  level [prog; String "-" (String x ""); v] = Some (outcome 3%nat).
Proof.
  intros Hkind Hcb Hlong Hshort Hne Heq Hlen Hx Hbl Hbs level outcome.
  subst level outcome.
  assert (Hi : forall st : pstate,
            ps_i (cargs_apply_env_defaults_level getenv (cmd_opts c) st) = ps_i st)
    by (intros st; apply overlay_index).
  split; [|split; [|split]].
  - apply (level_single_match getenv env (Some c) [prog; "--" ++ name; v] av aa path
             o f (Some v) user log Hcb).
    cbv zeta. cbn [level_opts].
    set (st0 := cargs_apply_env_defaults_level getenv (cmd_opts c) _).
    assert (H1 : ps_i st0 = 1%nat) by (unfold st0; rewrite Hi; reflexivity).
    rewrite (scan_step_long env (Some c) _ av aa path st0 name Hne)
      by (rewrite H1; reflexivity).
    rewrite long_option_plain by exact Heq.
    unfold long_named. cbn [level_opts]. rewrite Hbl, Hlong, Hkind, H1.
    cbn [nth_error]. rewrite matched_set_i. reflexivity.
  - apply (level_single_match getenv env (Some c)
             [prog; "--" ++ name ++ String "=" v] av aa path
             o f (Some v) user log Hcb).
    cbv zeta. cbn [level_opts].
    set (st0 := cargs_apply_env_defaults_level getenv (cmd_opts c) _).
    assert (H1 : ps_i st0 = 1%nat) by (unfold st0; rewrite Hi; reflexivity).
    rewrite (scan_step_long env (Some c) _ av aa path st0 (name ++ String "=" v))
      by (try (rewrite H1; reflexivity); destruct name; discriminate).
    rewrite long_option_attached by assumption.
    unfold long_named. cbn [level_opts]. rewrite Hbl, Hlong, Hkind.
    apply matched_ext. intros st' Hst'. rewrite Hst', H1. reflexivity.
  - intros Hv.
    apply (level_single_match getenv env (Some c)
             [prog; String "-" (String x v)] av aa path
             o f (Some v) user log Hcb).
    cbv zeta. cbn [level_opts].
    set (st0 := cargs_apply_env_defaults_level getenv (cmd_opts c) _).
    assert (H1 : ps_i st0 = 1%nat) by (unfold st0; rewrite Hi; reflexivity).
    rewrite (scan_step_short env (Some c) _ av aa path st0 x v Hx)
      by (rewrite H1; reflexivity).
    cbn [short_cluster level_opts]. rewrite Hbs, Hshort, Hkind, H1.
    destruct v as [|v0 v']; [congruence|].
    rewrite matched_set_i. reflexivity.
  - apply (level_single_match getenv env (Some c)
             [prog; String "-" (String x ""); v] av aa path
             o f (Some v) user log Hcb).
    cbv zeta. cbn [level_opts].
    set (st0 := cargs_apply_env_defaults_level getenv (cmd_opts c) _).
    assert (H1 : ps_i st0 = 1%nat) by (unfold st0; rewrite Hi; reflexivity).
    rewrite (scan_step_short env (Some c) _ av aa path st0 x "" Hx)
      by (rewrite H1; reflexivity).
    cbn [short_cluster level_opts]. rewrite Hbs, Hshort, Hkind, H1.
    cbn [set_i ps_i nth_error].
    rewrite !matched_set_i. reflexivity.
Qed.

(** C3 (amended): for a REQUIRED option with a callback, found under its
    long name (not empty, without equals sign, shorter than the name
    buffer) and under its short character (not a dash), neither being
    taken by a builtin, the four forms give the same result wherever the
    scan meets them, after any other tokens and in whatever state they
    left: the callback is called once with the value, whatever the value
    starts with; a negative result ends the level with that code,
    otherwise the group of the option is counted and the scan resumes
    after the form, the value token consumed.  The attached short form
    needs a value that is not empty.  The short forms do the same when the
    character is met inside a cluster, after flags.  When a form is all
    the level is given, the level ends with the outcome of that one call. *)
Theorem required_forms_agree (U : Type) (getenv : string -> option string)
  (env : option cargs_env) (c : cargs_cmd U) (av aa : bool) (path : list string)
  (o : cargs_opt U) (f : cargs_cb U) (name : string) (x : ascii)
  (v prog : string) (user : U) (log : list (event U)) :
  opt_arg o = CARGS_ARG_REQUIRED ->
  opt_cb o = Some f ->
  cargs_find_long (cmd_opts c) name = Some o ->
  cargs_find_short (cmd_opts c) x = Some o ->
  name <> "" -> strchr name "=" = None -> (String.length name < 96)%nat ->
  x <> "-"%char ->
  long_builtin env (Some c) av aa path name = None ->
  short_builtin env (Some c) av path x = None ->
  (forall (argv : list string) (st : pstate),
     let step := scan_step env (Some c) argv av aa path st in
     let cluster := fun p => short_cluster env (Some c) argv av path p st in
     let call := called_with o f (Some v) st in
     (nth_error argv (ps_i st) = Some ("--" ++ name) ->
      nth_error argv (S (ps_i st)) = Some v ->
      step = call (resume_at (2 + ps_i st))) /\
     (nth_error argv (ps_i st) = Some ("--" ++ name ++ String "=" v) ->
      step = call (resume_at (1 + ps_i st))) /\
     (v <> "" ->
      nth_error argv (ps_i st) = Some (String "-" (String x v)) ->
      step = call (resume_at (1 + ps_i st))) /\
     (nth_error argv (ps_i st) = Some (String "-" (String x "")) ->
      nth_error argv (S (ps_i st)) = Some v ->
      step = call (resume_at (2 + ps_i st))) /\
     (v <> "" -> cluster (String x v) = call Continue) /\
     (nth_error argv (ps_i st) = Some v ->
      cluster (String x "") = call (resume_at (1 + ps_i st)))) /\
  (let level := fun argv =>
     cargs_parse_opts_level getenv env (Some c) argv av aa path 1 user log in
   let outcome := single_value_outcome getenv (cmd_opts c) o f (Some v) user log 1 in
   level [prog; "--" ++ name; v] = Some (outcome 3%nat) /\
   level [prog; "--" ++ name ++ String "=" v] = Some (outcome 2%nat) /\
   (v <> "" -> level [prog; String "-" (String x v)] = Some (outcome 2%nat)) /\
   level [prog; String "-" (String x ""); v] = Some (outcome 3%nat)).
Proof.
  intros Hkind Hcb Hlong Hshort Hne Heq Hlen Hx Hbl Hbs.
  split.
  - intros argv st. cbv zeta.
    exact (required_forms_steps U env c argv av aa path o f name x v st
             Hkind Hcb Hlong Hshort Hne Heq Hlen Hx Hbl Hbs).
  - exact (required_forms_alone U getenv env c av aa path o f name x v prog user log
             Hkind Hcb Hlong Hshort Hne Heq Hlen Hx Hbl Hbs).
Qed.

Lemma required_forms_agree_witness :
  scan_step Sample.test_env (Some Sample.root) ["t"; "-V"; "-j"; "-10"; "-x"]
    true true []
    (mk_pstate 2 (fun _ => 0) Sample.t0 [EvCallback Sample.o_verbose None]) =
  Continue
    (mk_pstate 4 (fun _ => 0) (Sample.mk_tstate (Some "-10") None [])
       [EvCallback Sample.o_verbose None; EvCallback Sample.o_jobs (Some "-10")]).
Proof.
  assert (Hne : "jobs" <> "") by discriminate.
  assert (Hx : "j"%char <> "-"%char) by discriminate.
  assert (Hlen : (String.length "jobs" < 96)%nat) by (simpl; lia).
  exact (proj1 (proj2 (proj2 (proj2
    (proj1
       (required_forms_agree Sample.tstate Sample.no_getenv Sample.test_env
          Sample.root true true [] Sample.o_jobs Sample.cb_jobs "jobs" "j"
          "-10" "t" Sample.t0 [] eq_refl eq_refl eq_refl eq_refl
          Hne eq_refl Hlen Hx eq_refl eq_refl)
       ["t"; "-V"; "-j"; "-10"; "-x"]
       (mk_pstate 2 (fun _ => 0) Sample.t0 [EvCallback Sample.o_verbose None])))))
    eq_refl eq_refl).
Defined.

(** ** The overlay and the group counters *)

Section Counting.

Context {U : Type}.
Variable getenv : string -> option string.

Lemma overlay_value_spec (o : cargs_opt U) :
  overlay_value getenv o = spec_overlay_value getenv o.
Proof.
  unfold overlay_value, spec_overlay_value.
  destruct (opt_env o) as [e|]; [destruct (getenv e)|]; reflexivity.
Qed.

Lemma overlay_log (opts : list (cargs_opt U)) :
  forall st,
    ps_log (cargs_apply_env_defaults_level getenv opts st) =
    (ps_log st ++ overlay_events getenv opts)%list.
Proof.
  induction opts as [|o rest IH]; intros st; simpl.
  - now rewrite app_nil_r.
  - rewrite <- overlay_value_spec.
    destruct (overlay_value getenv o) as [v|]; [|apply IH].
    destruct (opt_cb o) as [f|]; [|apply IH].
    destruct (f (Some v) (ps_user st)) as [rc u']. rewrite IH. simpl.
    now rewrite <- app_assoc.
Qed.

Lemma group_events_app (g : Z) (l1 l2 : list (event U)) :
  group_events g (l1 ++ l2) = group_events g l1 + group_events g l2.
Proof.
  induction l1 as [|e l1 IH]; cbn [group_events app]; [reflexivity|].
  destruct e as [o v| | |]; try exact IH.
  destruct (opt_group o =? g); rewrite IH; lia.
Qed.

Lemma u8_succ (n : Z) : u8 (u8 n + 1) = u8 (n + 1).
Proof. unfold u8. apply Zplus_mod_idemp_l. Qed.

(** One more recorded invocation, counted: the invariant is kept. *)
Lemma counts_agree_step (log0 : list (event U)) (st : pstate) (o : cargs_opt U)
  (val : option string) (j : nat) (u : U) :
  counts_agree log0 st ->
  counts_agree log0
    (mk_pstate j (count_group o (ps_counts st)) u
       (ps_log st ++ [EvCallback o val])).
Proof.
  intros (l & Hlog & Hcnt). exists (l ++ [EvCallback o val])%list. split.
  - simpl. rewrite Hlog, app_assoc. reflexivity.
  - intros g Hg. simpl. rewrite group_events_app. simpl.
    unfold count_group, bump.
    destruct (Z.eqb_spec (opt_group o) g) as [->|Hne].
    + replace (negb (g =? 0) && (g <? MAXG)) with true.
      * rewrite Z.eqb_refl, Hcnt by exact Hg. rewrite u8_succ. f_equal.
      * symmetry. apply andb_true_iff. split.
        -- apply negb_true_iff, Z.eqb_neq. lia.
        -- apply Z.ltb_lt. lia.
    + rewrite Z.add_0_r.
      destruct (negb (opt_group o =? 0) && (opt_group o <? MAXG)).
      * destruct (Z.eqb_spec g (opt_group o)); [congruence|]. apply Hcnt, Hg.
      * apply Hcnt, Hg.
Qed.


Lemma overlay_counts (log0 : list (event U)) (opts : list (cargs_opt U)) :
  forall st,
    counts_agree log0 st ->
    counts_agree log0 (cargs_apply_env_defaults_level getenv opts st).
Proof.
  induction opts as [|o rest IH]; intros st Hst; simpl; [exact Hst|].
  destruct (overlay_value getenv o) as [v|]; [|apply IH, Hst].
  destruct (opt_cb o) as [f|]; [|apply IH, Hst].
  destruct (f (Some v) (ps_user st)) as [rc u']. apply IH.
  apply counts_agree_step. exact Hst.
Qed.

(** *** The shape of an iteration *)

Lemma find_long_In (opts : list (cargs_opt U)) (name : string) (o : cargs_opt U) :
  cargs_find_long opts name = Some o -> In o opts.
Proof.
  induction opts as [|a rest IH]; simpl; [discriminate|].
  destruct (opt_long_name a) as [l|].
  - destruct (String.eqb l name).
    + intros [= ->]. left. reflexivity.
    + intros H. right. apply IH, H.
  - intros H. right. apply IH, H.
Qed.

Lemma find_short_In (opts : list (cargs_opt U)) (c : ascii) (o : cargs_opt U) :
  cargs_find_short opts c = Some o -> In o opts.
Proof.
  unfold cargs_find_short. destruct (Ascii.eqb c Ascii.zero); [discriminate|].
  induction opts as [|a rest IH]; simpl; [discriminate|].
  destruct (Ascii.eqb (opt_short_name a) c).
  - intros [= ->]. left. reflexivity.
  - intros H. right. apply IH, H.
Qed.


Variable env : option cargs_env.
Variable cmd : option (cargs_cmd U).
Variable argv : list string.
Variables allow_version allow_author : bool.
Variable path : list string.




(** *** What an iteration keeps *)






End Counting.




(** ** Byte-size suffixes *)

Lemma upcase_idem (c : ascii) : upcase (upcase c) = upcase c.
Proof. destruct c as [[] [] [] [] [] [] [] []]; reflexivity. Qed.

Lemma upcase_blank (c : ascii) : is_blank (upcase c) = is_blank c.
Proof. destruct c as [[] [] [] [] [] [] [] []]; reflexivity. Qed.

Lemma get_upper (s : string) : forall k, String.get k (upper s) = toupper (String.get k s).
Proof.
  induction s as [|a s IH]; intros k; simpl; [reflexivity|].
  destruct k; [reflexivity|apply IH].
Qed.

Lemma toupper_get_upper (s : string) (k : nat) :
  toupper (String.get k (upper s)) = toupper (String.get k s).
Proof.
  rewrite get_upper. destruct (String.get k s); simpl; [|reflexivity].
  now rewrite upcase_idem.
Qed.

Lemma advance_upper (s : string) : forall k, advance k (upper s) = upper (advance k s).
Proof.
  induction s as [|a s IH]; intros k; destruct k; simpl; try reflexivity. apply IH.
Qed.

Lemma skip_blanks_upper (s : string) : skip_blanks (upper s) = upper (skip_blanks s).
Proof.
  induction s as [|a s IH]; simpl; [reflexivity|].
  rewrite upcase_blank. destruct (is_blank a); [exact IH|reflexivity].
Qed.

Lemma rstrip_upper (s : string) : rstrip (upper s) = upper (rstrip s).
Proof.
  induction s as [|a s IH]; simpl; [reflexivity|].
  rewrite IH, upcase_blank.
  destruct (rstrip s); simpl; [destruct (is_blank a)|]; reflexivity.
Qed.

Lemma size_suffix_upper (prefer_iec : bool) (s : string) :
  size_suffix prefer_iec (upper s) = size_suffix prefer_iec s.
Proof.
  unfold size_suffix, size_unit. rewrite !toupper_get_upper, !advance_upper.
  destruct s as [|a s]; [reflexivity|]. cbn [upper].
  destruct (is_char _ "B").
  - rewrite skip_blanks_upper. destruct (skip_blanks _); reflexivity.
  - destruct (unit_power _); [|reflexivity].
    rewrite skip_blanks_upper. destruct (skip_blanks _); reflexivity.
Qed.

Lemma skip_blanks_rstrip (s : string) : skip_blanks s = "" -> rstrip s = "".
Proof.
  induction s as [|a s IH]; simpl; [reflexivity|].
  destruct (is_blank a); [|discriminate]. intros H. now rewrite IH.
Qed.

Lemma upper_fixed_get (u : string) (k : nat) :
  upper u = u -> toupper (String.get k u) = String.get k u.
Proof. intros H. rewrite <- H at 2. now rewrite get_upper. Qed.

Lemma unit_power_In (c : ascii) (n : nat) :
  unit_power (Some c) = Some n -> In (c, n) unit_letters.
Proof.
  unfold unit_power, is_char, unit_letters.
  repeat match goal with
         | |- context [Ascii.eqb c ?x] => destruct (Ascii.eqb_spec c x) as [->|?]
         end; intros [= <-]; simpl; tauto.
Qed.

Ltac split_char c x :=
  destruct (Ascii.eqb_spec c x) as [->|?].

(** The six unit letters, one goal each. *)
Ltac each_letter H :=
  apply unit_power_In in H; unfold unit_letters in H;
  repeat (destruct H as [H|H]; [injection H as <- <-|]); [..|destruct H].

Lemma size_suffix_sound_upper (prefer_iec : bool) (u : string) (m : float) :
  upper u = u -> u <> "" ->
  size_suffix prefer_iec u = Some m ->
  spec_size_suffix prefer_iec (rstrip u) = Some m.
Proof.
  intros Hu Hne. unfold size_suffix, size_unit, spec_size_suffix.
  rewrite <- rstrip_upper, Hu.
  rewrite !(upper_fixed_get u) by exact Hu.
  destruct u as [|c0 u1]; [congruence|]. clear Hu Hne.
  cbn [String.get is_char advance].
  split_char c0 "B"%char.
  { destruct (skip_blanks u1) eqn:Hb; [|discriminate].
    intros [= <-]. cbn [rstrip]. rewrite (skip_blanks_rstrip _ Hb). reflexivity. }
  destruct (unit_power (Some c0)) as [pn|] eqn:Hp; [|discriminate].
  destruct u1 as [|c1 u2]; cbn [String.get is_char is_nul advance andb orb].
  { each_letter Hp; cbn [skip_blanks]; intros [= <-]; destruct prefer_iec; reflexivity. }
  split_char c1 "I"%char.
  - destruct u2 as [|c2 u3]; cbn [String.get is_char is_nul advance andb orb].
    { each_letter Hp; cbn [skip_blanks]; intros [= <-]; destruct prefer_iec; reflexivity. }
    split_char c2 "B"%char; cbn [andb orb advance].
    + destruct (skip_blanks u3) eqn:Hb; [|discriminate].
      apply skip_blanks_rstrip in Hb. intros [= <-].
      each_letter Hp; cbn [rstrip]; rewrite Hb; destruct prefer_iec; reflexivity.
    + change (Ascii.eqb "I" "B") with false. cbn [advance skip_blanks].
      change (is_blank "I") with false. discriminate.
  - split_char c1 "B"%char; cbn [andb orb advance].
    + destruct (skip_blanks u2) eqn:Hb; [|discriminate].
      apply skip_blanks_rstrip in Hb. intros [= <-].
      each_letter Hp; cbn [rstrip]; rewrite Hb; destruct prefer_iec; reflexivity.
    + remember (String c1 u2) as s1 eqn:Hs1.
      destruct (skip_blanks s1) eqn:Hb; [|discriminate].
      apply skip_blanks_rstrip in Hb. intros [= <-].
      each_letter Hp; cbn [rstrip]; rewrite Hb; destruct prefer_iec; reflexivity.
Qed.

(** Anything the suffix block accepts is a listed suffix, in any letter
    case, followed by blanks only, with the multiplier of the
    specification. *)
Lemma size_suffix_sound (prefer_iec : bool) (tail : string) (m : float) :
  tail <> "" ->
  size_suffix prefer_iec tail = Some m ->
  spec_size_suffix prefer_iec (rstrip tail) = Some m.
Proof.
  intros Hne H.
  assert (Hup : spec_size_suffix prefer_iec (rstrip (upper tail)) = Some m).
  { apply size_suffix_sound_upper.
    - clear. induction tail as [|a t IH]; simpl; [reflexivity|].
      now rewrite upcase_idem, IH.
    - destruct tail; [congruence|discriminate].
    - rewrite size_suffix_upper. exact H. }
  unfold spec_size_suffix in *. rewrite rstrip_upper in Hup.
  replace (upper (upper (rstrip tail))) with (upper (rstrip tail)) in Hup; [exact Hup|].
  generalize (rstrip tail). clear. intros s.
  induction s as [|a t IH]; simpl; [reflexivity|]. now rewrite upcase_idem, <- IH.
Qed.

Lemma lookup_suffix_In (tbl : list (string * (nat * bool))) (s : string)
  (pw : nat * bool) :
  lookup_suffix tbl s = Some pw -> In (s, pw) tbl.
Proof.
  induction tbl as [|[k v] rest IH]; simpl; [discriminate|].
  destruct (String.eqb_spec k s) as [->|_].
  - intros [= ->]. left. reflexivity.
  - intros H. right. apply IH, H.
Qed.

(** Every listed suffix, in any letter case, is accepted with the
    multiplier of the specification. *)
Lemma size_suffix_complete (prefer_iec : bool) (suffix : string) (m : float) :
  spec_size_suffix prefer_iec suffix = Some m ->
  size_suffix prefer_iec suffix = Some m.
Proof.
  unfold spec_size_suffix.
  destruct (lookup_suffix spec_suffixes (upper suffix)) as [pw|] eqn:Hl; [|discriminate].
  intros [= <-]. rewrite <- size_suffix_upper.
  apply lookup_suffix_In in Hl. generalize dependent (upper suffix). intros u Hin.
  unfold spec_suffixes, unit_letters in Hin. cbn [flat_map app] in Hin.
  repeat (destruct Hin as [Hin|Hin]; [injection Hin as <- <-; destruct prefer_iec; reflexivity|]).
  destruct Hin.
Qed.

(** C8, as stated, fails on trailing blanks: a unit letter followed by a
    space is not one of the listed suffixes, yet the suffix block accepts
    it and the size is read. *)
Lemma trailing_blank_accepted :
  spec_size_suffix false "K " = None /\
  size_suffix false "K " = Some 1000%float /\
  cargs_read_size_si strtod_digits (Some "5K ") = SizeOk 5000.
Proof. repeat split; vm_compute; reflexivity. Qed.

(** C8 (amended): the suffix is read without regard to letter case; after
    a unit letter an [i] forces radix 1024 whatever the caller prefers, a
    bare letter takes the caller's radix, and a [B] after either adds
    nothing; a tail that, once its trailing spaces and tabs are dropped, is
    not one of the listed suffixes makes the parse fail; and the two sizes
    of the specification are read as stated. *)
Theorem size_suffix_semantics (strtod : string -> float * nat) :
  (forall prefer_iec s, size_suffix prefer_iec (upper s) = size_suffix prefer_iec s) /\
  (forall (prefer_iec : bool) l p,
     In (l, p) unit_letters ->
     let radix := if prefer_iec then 1024 else 1000 in
     size_suffix prefer_iec (String l "I") = Some (double_of_Z (1024 ^ Z.of_nat p)) /\
     size_suffix prefer_iec (String l "IB") = Some (double_of_Z (1024 ^ Z.of_nat p)) /\
     size_suffix prefer_iec (String l "") = Some (double_of_Z (radix ^ Z.of_nat p)) /\
     size_suffix prefer_iec (String l "B") = Some (double_of_Z (radix ^ Z.of_nat p))) /\
  (forall prefer_iec, size_suffix prefer_iec "B" = Some 1%float) /\
  (forall prefer_iec suffix m,
     spec_size_suffix prefer_iec suffix = Some m ->
     size_suffix prefer_iec suffix = Some m) /\
  (forall prefer_iec tail,
     tail <> "" ->
     spec_size_suffix prefer_iec (rstrip tail) = None ->
     size_suffix prefer_iec tail = None) /\
  (forall prefer_iec s v n,
     strtod s = (v, n) ->
     skip_blanks (advance n s) <> "" ->
     spec_size_suffix prefer_iec (rstrip (skip_blanks (advance n s))) = None ->
     cargs_read_size strtod (Some s) prefer_iec = SizeError) /\
  (strtod "128MiB" = (128%float, 3%nat) ->
   cargs_read_size_iec strtod (Some "128MiB") = SizeOk 134217728 /\
   cargs_read_size_si strtod (Some "128MiB") = SizeOk 134217728) /\
  (strtod "5MB" = (5%float, 1%nat) ->
   cargs_read_size_si strtod (Some "5MB") = SizeOk 5000000 /\
   cargs_read_size_iec strtod (Some "5MB") = SizeOk 5242880).
Proof.
  assert (Hfail : forall prefer_iec tail,
     tail <> "" ->
     spec_size_suffix prefer_iec (rstrip tail) = None ->
     size_suffix prefer_iec tail = None).
  { intros prefer_iec tail Hne Hnone.
    destruct (size_suffix prefer_iec tail) as [m|] eqn:Hm; [|reflexivity].
    apply size_suffix_sound in Hm; [congruence|exact Hne]. }
  repeat apply conj.
  - apply size_suffix_upper.
  - intros prefer_iec l p Hin radix. subst radix. unfold unit_letters in Hin.
    repeat (destruct Hin as [Hin|Hin];
            [injection Hin as <- <-; destruct prefer_iec; repeat split; reflexivity|]).
    destruct Hin.
  - intros []; reflexivity.
  - apply size_suffix_complete.
  - exact Hfail.
  - intros prefer_iec s v n Hs Htail Hnone. unfold cargs_read_size.
    destruct s as [|a s']; [reflexivity|]. rewrite Hs.
    destruct (n =? 0)%nat; [reflexivity|].
    rewrite (Hfail _ _ Htail Hnone). reflexivity.
  - intros Hs. unfold cargs_read_size_iec, cargs_read_size_si, cargs_read_size.
    rewrite Hs. split; vm_compute; reflexivity.
  - intros Hs. unfold cargs_read_size_iec, cargs_read_size_si, cargs_read_size.
    rewrite Hs. split; vm_compute; reflexivity.
Qed.

Lemma size_suffix_semantics_witness :
  cargs_read_size_iec strtod_digits (Some "128MiB") = SizeOk 134217728 /\
  cargs_read_size_si strtod_digits (Some "5MB") = SizeOk 5000000 /\
  cargs_read_size strtod_digits (Some "5Kx") false = SizeError.
Proof.
  pose proof (size_suffix_semantics strtod_digits) as (_ & _ & _ & _ & _ & Hbad & Hiec & Hsi).
  split; [|split].
  - apply Hiec. vm_compute. reflexivity.
  - apply Hsi. vm_compute. reflexivity.
  - apply (Hbad false "5Kx" 5%float 1%nat).
    + vm_compute. reflexivity.
    + vm_compute. discriminate.
    + vm_compute. reflexivity.
Defined.

(** ** Group enforcement *)

Lemma mask_test (x g : Z) :
  0 <= g -> negb (Z.land x (Z.shiftl 1 g) =? 0) = Z.testbit x g.
Proof.
  intros Hg.
  assert (H : Z.land x (Z.shiftl 1 g) = if Z.testbit x g then 2 ^ g else 0).
  { apply Z.bits_inj'. intros k Hk.
    rewrite Z.land_spec, Z.shiftl_1_l, Z.pow2_bits_eqb by exact Hg.
    destruct (Z.eqb_spec g k) as [->|Hne].
    - destruct (Z.testbit x k); [|now rewrite Z.bits_0].
      rewrite Z.pow2_bits_eqb, Z.eqb_refl by exact Hk. reflexivity.
    - rewrite andb_false_r. destruct (Z.testbit x g); [|now rewrite Z.bits_0].
      rewrite Z.pow2_bits_eqb by exact Hg. symmetry. apply Z.eqb_neq. exact Hne. }
  rewrite H. destruct (Z.testbit x g); [|reflexivity].
  apply negb_true_iff, Z.eqb_neq. apply Z.pow_nonzero; lia.
Qed.

Lemma u32_bit_low (y g : Z) : 0 <= g < 32 -> Z.testbit (u32 y) g = Z.testbit y g.
Proof. intros Hg. unfold u32. apply Z.mod_pow2_bits_low. lia. Qed.

Lemma u32_bit_high (y g : Z) : 32 <= g -> Z.testbit (u32 y) g = false.
Proof. intros Hg. unfold u32. apply Z.mod_pow2_bits_high. lia. Qed.

Lemma set_bit (x k g : Z) :
  0 <= k -> 0 <= g < 32 ->
  Z.testbit (u32 (Z.lor x (Z.shiftl 1 k))) g = Z.testbit x g || (k =? g).
Proof.
  intros Hk Hg. rewrite u32_bit_low by exact Hg.
  rewrite Z.lor_spec, Z.shiftl_1_l, Z.pow2_bits_eqb by exact Hk. reflexivity.
Qed.

Section Masks.

Context {U : Type}.

(** Below bit 32 the masks record exactly the groups that declare the
    policy. *)
Lemma group_masks_bits (opts : list (cargs_opt U)) :
  forall xm rm g,
    1 <= g <= 31 ->
    (Z.testbit (fst (group_masks opts xm rm)) g = true <->
     Z.testbit xm g = true \/ declares opts g CARGS_GRP_XOR) /\
    (Z.testbit (snd (group_masks opts xm rm)) g = true <->
     Z.testbit rm g = true \/ declares opts g CARGS_GRP_REQ_ONE).
Proof.
  induction opts as [|o rest IH]; intros xm rm g Hg.
  - simpl. split; (split; [intros H; left; exact H|]);
      intros [H|(o & [] & _)]; exact H.
  - assert (Hstep : forall pol,
      (declares (o :: rest) g pol <->
       (opt_group o = g /\ opt_group_policy o = pol) \/ declares rest g pol)).
    { intros pol. unfold declares. split.
      - intros (o' & [<-|Hin] & Hgo & Hpo); [left; split; assumption|].
        right. exists o'. repeat split; assumption.
      - intros [[Hgo Hpo]|(o' & Hin & Hgo & Hpo)].
        + exists o. repeat split; [left; reflexivity|assumption|assumption].
        + exists o'. repeat split; [right; exact Hin|assumption|assumption]. }
    cbn [group_masks].
    destruct ((0 <? opt_group o) && (opt_group o <? MAXG)) eqn:Hrange.
    + apply andb_true_iff in Hrange. destruct Hrange as [Hlo Hhi].
      apply Z.ltb_lt in Hlo. apply Z.ltb_lt in Hhi.
      destruct (IH (if opt_group_policy o =? CARGS_GRP_XOR
                    then u32 (Z.lor xm (Z.shiftl 1 (opt_group o))) else xm)
                   (if opt_group_policy o =? CARGS_GRP_REQ_ONE
                    then u32 (Z.lor rm (Z.shiftl 1 (opt_group o))) else rm)
                   g Hg) as [IHx IHr].
      split.
      * rewrite IHx, (Hstep CARGS_GRP_XOR).
        destruct (Z.eqb_spec (opt_group_policy o) CARGS_GRP_XOR) as [Hp|Hp].
        -- rewrite set_bit by lia. rewrite orb_true_iff, Z.eqb_eq. tauto.
        -- tauto.
      * rewrite IHr, (Hstep CARGS_GRP_REQ_ONE).
        destruct (Z.eqb_spec (opt_group_policy o) CARGS_GRP_REQ_ONE) as [Hp|Hp].
        -- rewrite set_bit by lia. rewrite orb_true_iff, Z.eqb_eq. tauto.
        -- tauto.
    + destruct (IH xm rm g Hg) as [IHx IHr].
      assert (Hout : opt_group o <> g).
      { intros Heq. rewrite Heq in Hrange. unfold MAXG in Hrange.
        apply andb_false_iff in Hrange.
        destruct Hrange as [H|H]; apply Z.ltb_ge in H; lia. }
      split.
      * rewrite IHx, (Hstep CARGS_GRP_XOR). tauto.
      * rewrite IHr, (Hstep CARGS_GRP_REQ_ONE). tauto.
Qed.

(** Bit 32 and above are never set: the masks stay 32 bits wide. *)
Lemma group_masks_high (opts : list (cargs_opt U)) :
  forall xm rm g,
    32 <= g ->
    Z.testbit xm g = false -> Z.testbit rm g = false ->
    Z.testbit (fst (group_masks opts xm rm)) g = false /\
    Z.testbit (snd (group_masks opts xm rm)) g = false.
Proof.
  induction opts as [|o rest IH]; intros xm rm g Hg Hx Hr; cbn [group_masks].
  - simpl. split; assumption.
  - destruct ((0 <? opt_group o) && (opt_group o <? MAXG)); [|apply IH; assumption].
    apply IH; [exact Hg| |].
    + destruct (opt_group_policy o =? CARGS_GRP_XOR); [|exact Hx].
      apply u32_bit_high, Hg.
    + destruct (opt_group_policy o =? CARGS_GRP_REQ_ONE); [|exact Hr].
      apply u32_bit_high, Hg.
Qed.

Lemma enforce_from_spec (n : nat) :
  forall g0 xm rm counts,
    0 <= g0 ->
    (enforce_from n g0 xm rm counts = CARGS_ERR_GROUP <->
     exists g, g0 <= g < g0 + Z.of_nat n /\
       ((Z.testbit xm g = true /\ 1 < counts g) \/
        (Z.testbit rm g = true /\ counts g <> 1))).
Proof.
  induction n as [|n IH]; intros g0 xm rm counts Hg0.
  - simpl. split; [discriminate|]. intros (g & Hg & _). lia.
  - cbn [enforce_from]. rewrite !mask_test by exact Hg0.
    destruct (Z.testbit xm g0 && (1 <? counts g0)) eqn:Hx.
    { split; [intros _|reflexivity]. exists g0. split; [lia|].
      apply andb_true_iff in Hx. destruct Hx as [Hb Hc]. apply Z.ltb_lt in Hc.
      left. split; assumption. }
    destruct (Z.testbit rm g0 && negb (counts g0 =? 1)) eqn:Hr.
    { split; [intros _|reflexivity]. exists g0. split; [lia|].
      apply andb_true_iff in Hr. destruct Hr as [Hb Hc].
      apply negb_true_iff, Z.eqb_neq in Hc. right. split; assumption. }
    rewrite IH by lia. split.
    + intros (g & Hg & Hv). exists g. split; [lia|exact Hv].
    + intros (g & Hg & Hv). exists g. split; [|exact Hv].
      destruct (Z.eq_dec g g0) as [->|Hne]; [|lia]. exfalso.
      apply andb_false_iff in Hx. apply andb_false_iff in Hr.
      destruct Hv as [[Hb Hc]|[Hb Hc]].
      * destruct Hx as [Hx|Hx]; [congruence|]. apply Z.ltb_ge in Hx. lia.
      * destruct Hr as [Hr|Hr]; [congruence|].
        apply negb_false_iff, Z.eqb_eq in Hr. contradiction.
Qed.

(** The enforcement loop over the masks of a level fails exactly when a
    group between 1 and 31 violates a policy declared for it; group 32 is
    never looked at. *)
Lemma group_enforcement (opts : list (cargs_opt U)) (counts : Z -> Z) :
  let masks := group_masks opts 0 0 in
  (enforce_groups (fst masks) (snd masks) counts = CARGS_ERR_GROUP <->
   exists g, 1 <= g <= 31 /\ violates opts counts g) /\
  ((forall g, 1 <= g <= 31 -> ~ violates opts counts g) ->
   enforce_groups (fst masks) (snd masks) counts = CARGS_OK).
Proof.
  intros masks.
  assert (Hiff : enforce_groups (fst masks) (snd masks) counts = CARGS_ERR_GROUP <->
                 exists g, 1 <= g <= 31 /\ violates opts counts g).
  { unfold enforce_groups. rewrite enforce_from_spec by lia. split.
    - intros (g & Hg & Hv).
      assert (Hg32 : g <= 31).
      { destruct (Z_le_gt_dec g 31) as [H|H]; [exact H|]. exfalso.
        destruct (group_masks_high opts 0 0 g) as [Hx Hr];
          [lia | apply Z.bits_0 | apply Z.bits_0 |].
        fold masks in Hx, Hr.
        destruct Hv as [[Hb _]|[Hb _]]; congruence. }
      exists g. split; [lia|].
      destruct (group_masks_bits opts 0 0 g) as [Hx Hr]; [lia|]. fold masks in Hx, Hr.
      rewrite Z.bits_0 in Hx, Hr.
      destruct Hv as [[Hb Hc]|[Hb Hc]]; [left|right]; split; try exact Hc.
      + apply Hx in Hb. destruct Hb as [Hb|Hb]; [discriminate|exact Hb].
      + apply Hr in Hb. destruct Hb as [Hb|Hb]; [discriminate|exact Hb].
    - intros (g & Hg & Hv). exists g. split; [simpl; lia|].
      destruct (group_masks_bits opts 0 0 g Hg) as [Hx Hr]. fold masks in Hx, Hr.
      destruct Hv as [[Hd Hc]|[Hd Hc]]; [left|right]; split; try exact Hc.
      + apply Hx. right. exact Hd.
      + apply Hr. right. exact Hd. }
  split; [exact Hiff|].
  intros Hnone.
  destruct (enforce_from_code 32 1 (fst masks) (snd masks) counts) as [H|H];
    [exact H|].
  exfalso. apply Hiff in H. destruct H as (g & Hg & Hv). exact (Hnone g Hg Hv).
Qed.

End Masks.

(** * Further properties of the code *)

(** ** Lookups *)

Section LookupFacts.

Context {U : Type}.

Lemma alias_matches_In (aliases : list (option string)) (name : string) :
  alias_matches aliases name = true <-> In (Some name) aliases.
Proof.
  induction aliases as [|[a|] rest IH]; simpl.
  - split; [discriminate|intros []].
  - rewrite orb_true_iff, IH, String.eqb_eq. split.
    + intros [->|H]; [left; reflexivity|right; exact H].
    + intros [[= ->]|H]; [left; reflexivity|right; exact H].
  - rewrite IH. split; [intros H; right; exact H|intros [H|H]; [discriminate|exact H]].
Qed.

Lemma sub_matches_spec (c : cargs_cmd U) (tok : string) :
  sub_matches c tok = true <-> answers_to c tok.
Proof.
  unfold sub_matches, answers_to. destruct (cmd_name c) as [n|].
  - rewrite orb_true_iff, alias_matches_In, String.eqb_eq. split.
    + intros [->|H]; [left; reflexivity|right; exact H].
    + intros [[= ->]|H]; [left; reflexivity|right; exact H].
  - rewrite alias_matches_In. split; [intros H; right; exact H|].
    intros [H|H]; [discriminate|exact H].
Qed.

Lemma find_sub_from_first (subs : list (cargs_cmd U)) (tok : string) :
  match find_sub_from subs tok with
  | Some c =>
      exists pre post,
        subs = (pre ++ c :: post)%list /\ answers_to c tok /\
        Forall (fun c' => ~ answers_to c' tok) pre
  | None => Forall (fun c' => ~ answers_to c' tok) subs
  end.
Proof.
  induction subs as [|c rest IH]; simpl; [constructor|].
  destruct (sub_matches c tok) eqn:Hm.
  - exists [], rest. repeat split; [apply sub_matches_spec, Hm|constructor].
  - assert (Hno : ~ answers_to c tok).
    { intros H. apply sub_matches_spec in H. congruence. }
    destruct (find_sub_from rest tok) as [c'|].
    + destruct IH as (pre & post & -> & Ha & Hpre).
      exists (c :: pre), post. repeat split; [exact Ha|constructor; assumption].
    + constructor; assumption.
Qed.

Lemma find_sub_from_hit (pre post : list (cargs_cmd U)) (c : cargs_cmd U)
  (tok : string) :
  Forall (fun c' => ~ answers_to c' tok) pre -> answers_to c tok ->
  find_sub_from (pre ++ c :: post) tok = Some c.
Proof.
  intros Hpre Hc. induction Hpre as [|c' pre Hc' _ IH]; simpl.
  - apply sub_matches_spec in Hc. rewrite Hc. reflexivity.
  - destruct (sub_matches c' tok) eqn:Hm; [|exact IH].
    apply sub_matches_spec in Hm. contradiction.
Qed.

End LookupFacts.

(** X1: the long-name lookup returns the first option, in declaration
    order, whose long name is the one asked for, and nothing exactly when
    no option has that long name. *)
Theorem find_long_first (U : Type) (opts : list (cargs_opt U)) (name : string) :
  (forall o,
     cargs_find_long opts name = Some o ->
     exists pre post,
       opts = (pre ++ o :: post)%list /\ opt_long_name o = Some name /\
       Forall (fun o' => opt_long_name o' <> Some name) pre) /\
  (cargs_find_long opts name = None <->
   Forall (fun o' => opt_long_name o' <> Some name) opts).
Proof.
  induction opts as [|a rest [IHs IHn]]; simpl.
  - split; [discriminate|]. split; constructor.
  - destruct (opt_long_name a) as [l|] eqn:Hl.
    + destruct (String.eqb_spec l name) as [->|Hne].
      * split.
        -- intros o [= <-]. exists [], rest. repeat split; [exact Hl|constructor].
        -- split; [discriminate|]. intros H. inversion H; subst. congruence.
      * assert (Ha : opt_long_name a <> Some name) by congruence.
        split.
        -- intros o Ho. destruct (IHs o Ho) as (pre & post & -> & Hn & Hpre).
           exists (a :: pre), post. repeat split; [exact Hn|constructor; assumption].
        -- rewrite IHn. split; [intros H; constructor; assumption|].
           intros H. inversion H; assumption.
    + assert (Ha : opt_long_name a <> Some name) by congruence.
      split.
      * intros o Ho. destruct (IHs o Ho) as (pre & post & -> & Hn & Hpre).
        exists (a :: pre), post. repeat split; [exact Hn|constructor; assumption].
      * rewrite IHn. split; [intros H; constructor; assumption|].
        intros H. inversion H; assumption.
Qed.

Lemma find_long_first_witness :
  exists pre post,
    Sample.root_opts = (pre ++ Sample.o_jobs :: post)%list /\
    opt_long_name Sample.o_jobs = Some "jobs" /\
    Forall (fun o' => opt_long_name o' <> Some "jobs") pre.
Proof.
  exact (proj1 (find_long_first Sample.tstate Sample.root_opts "jobs")
           Sample.o_jobs eq_refl).
Defined.

(** X2: the short-name lookup returns the first option whose short
    character is the one asked for; the zero character, which marks an
    option without short name, is never found. *)
Theorem find_short_first (U : Type) (opts : list (cargs_opt U)) (c : ascii) :
  cargs_find_short opts Ascii.zero = None /\
  (forall o,
     cargs_find_short opts c = Some o ->
     c <> Ascii.zero /\
     exists pre post,
       opts = (pre ++ o :: post)%list /\ opt_short_name o = c /\
       Forall (fun o' => opt_short_name o' <> c) pre) /\
  (cargs_find_short opts c = None <->
   c = Ascii.zero \/ Forall (fun o' => opt_short_name o' <> c) opts).
Proof.
  split; [reflexivity|]. unfold cargs_find_short.
  destruct (Ascii.eqb_spec c Ascii.zero) as [->|Hc].
  { split; [discriminate|]. split; [intros _; left; reflexivity|reflexivity]. }
  assert (H : (forall o, find_short_from opts c = Some o ->
                 exists pre post,
                   opts = (pre ++ o :: post)%list /\ opt_short_name o = c /\
                   Forall (fun o' => opt_short_name o' <> c) pre) /\
              (find_short_from opts c = None <->
               Forall (fun o' => opt_short_name o' <> c) opts)).
  { induction opts as [|a rest [IHs IHn]]; simpl.
    - split; [discriminate|]. split; constructor.
    - destruct (Ascii.eqb_spec (opt_short_name a) c) as [Heq|Hne].
      + split.
        * intros o [= <-]. exists [], rest. repeat split; [exact Heq|constructor].
        * split; [discriminate|]. intros H. inversion H; subst. contradiction.
      + split.
        * intros o Ho. destruct (IHs o Ho) as (pre & post & -> & Hn & Hpre).
          exists (a :: pre), post. repeat split; [exact Hn|constructor; assumption].
        * rewrite IHn. split; [intros H; constructor; assumption|].
          intros H. inversion H; assumption. }
  destruct H as [Hs Hn]. split.
  - intros o Ho. split; [exact Hc|apply Hs, Ho].
  - rewrite Hn. split; [intros H; right; exact H|intros [H|H]; [contradiction|exact H]].
Qed.

Lemma find_short_first_witness :
  "j"%char <> Ascii.zero /\
  exists pre post,
    Sample.root_opts = (pre ++ Sample.o_jobs :: post)%list /\
    opt_short_name Sample.o_jobs = "j"%char /\
    Forall (fun o' => opt_short_name o' <> "j"%char) pre.
Proof.
  exact (proj1 (proj2 (find_short_first Sample.tstate Sample.root_opts "j"))
           Sample.o_jobs eq_refl).
Defined.

(** X3: the subcommand lookup returns the first child that answers to the
    token by its name or by one of its aliases, and nothing exactly when no
    child does; a name and an alias of the same child route to that child
    alike, provided no earlier sibling answers to either. *)
Theorem find_sub_routes (U : Type) (cmd : cargs_cmd U) (tok : string) :
  (forall c,
     cargs_find_sub cmd tok = Some c ->
     exists pre post,
       cmd_subs cmd = (pre ++ c :: post)%list /\ answers_to c tok /\
       Forall (fun c' => ~ answers_to c' tok) pre) /\
  (cargs_find_sub cmd tok = None <->
   Forall (fun c' => ~ answers_to c' tok) (cmd_subs cmd)) /\
  (forall c pre post alias,
     cmd_subs cmd = (pre ++ c :: post)%list ->
     cmd_name c = Some tok -> In (Some alias) (cmd_aliases c) ->
     Forall (fun c' => ~ answers_to c' tok /\ ~ answers_to c' alias) pre ->
     cargs_find_sub cmd tok = Some c /\ cargs_find_sub cmd alias = Some c).
Proof.
  unfold cargs_find_sub. pose proof (find_sub_from_first (cmd_subs cmd) tok) as H.
  split; [|split].
  - intros c Hc. rewrite Hc in H. exact H.
  - destruct (find_sub_from (cmd_subs cmd) tok) as [c|].
    + split; [discriminate|]. intros Hall.
      destruct H as (pre & post & Heq & Ha & _). rewrite Heq in Hall.
      apply Forall_app in Hall. destruct Hall as [_ Hall].
      inversion Hall; subst. contradiction.
    + split; [intros _; exact H|reflexivity].
  - intros c pre post alias -> Hn Ha Hpre. split.
    + apply find_sub_from_hit; [|left; exact Hn].
      eapply Forall_impl; [|exact Hpre]. intros c' [H1 _]. exact H1.
    + apply find_sub_from_hit; [|right; exact Ha].
      eapply Forall_impl; [|exact Hpre]. intros c' [_ H2]. exact H2.
Qed.

Lemma find_sub_routes_witness :
  cargs_find_sub Sample.remote "remove" = Some Sample.remote_remove /\
  cargs_find_sub Sample.remote "rm" = Some Sample.remote_remove.
Proof.
  apply (proj2 (proj2 (find_sub_routes Sample.tstate Sample.remote "remove"))
           Sample.remote_remove [Sample.remote_add] [] "rm" eq_refl eq_refl).
  - left. reflexivity.
  - constructor; [|constructor]. split.
    + intros [H|H]; [discriminate|destruct H].
    + intros [H|H]; [discriminate|destruct H].
Defined.

(** ** Status and index of a level *)

Lemma nth_error_lt {A : Type} (l : list A) (k : nat) (x : A) :
  nth_error l k = Some x -> (k < List.length l)%nat.
Proof. intros H. apply nth_error_Some. congruence. Qed.

Section LevelBounds.

Context {U : Type}.
Variable getenv : string -> option string.
Variable env : option cargs_env.
Variable cmd : option (cargs_cmd U).
Variable argv : list string.
Variables allow_version allow_author : bool.
Variable path : list string.

Lemma matched_Break (o : cargs_opt U) (val : option string) (st st' : pstate)
  (k : pstate -> step_result) :
  matched o val st k = Break st' -> exists st1, k st1 = Break st'.
Proof.
  unfold matched, bail_out. destruct (invoke o val st) as [rc st1].
  destruct (rc <? 0); [discriminate|]. intros H. eexists. exact H.
Qed.

Lemma long_named_no_Break (name : string) (val : option string) (st st' : pstate) :
  long_named env cmd argv allow_version allow_author path name val st <> Break st'.
Proof.
  unfold long_named, intercept, bail_out.
  destruct (long_builtin _ _ _ _ _ _); [discriminate|].
  destruct (cargs_find_long _ _) as [o|]; [|discriminate].
  destruct (opt_arg o); destruct val as [v|];
    try destruct (nth_error argv (S (ps_i st))) as [nxt|];
    try destruct (takes_next nxt);
    try discriminate;
    intros H; apply matched_Break in H; destruct H as [st1 H]; discriminate.
Qed.

Lemma short_cluster_no_Break (p : string) :
  forall st st', short_cluster env cmd argv allow_version path p st <> Break st'.
Proof.
  induction p as [|c p' IH]; intros st st'; simpl; [discriminate|].
  unfold intercept, bail_out.
  destruct (short_builtin _ _ _ _ _); [discriminate|].
  destruct (cargs_find_short _ _) as [o|]; [|discriminate].
  destruct (opt_arg o).
  - intros H. apply matched_Break in H. destruct H as [st1 H]. exact (IH _ _ H).
  - destruct p'; [destruct (nth_error argv (ps_i st)); [|discriminate]|];
      intros H; apply matched_Break in H; destruct H as [st1 H]; discriminate.
  - destruct p'; [destruct (nth_error argv (ps_i st)) as [nxt|];
                  [destruct (takes_next nxt)|]|];
      intros H; apply matched_Break in H; destruct H as [st1 H]; discriminate.
Qed.

(** The scan leaves the loop only at the end of the vector, in front of a
    token that does not start with a dash, or just after a double dash. *)
Lemma scan_step_Break (st st' : pstate) :
  scan_step env cmd argv allow_version allow_author path st = Break st' ->
  (st' = st /\
   (nth_error argv (ps_i st) = None \/
    exists tok, nth_error argv (ps_i st) = Some tok /\
                is_char (String.get 0 tok) "-" = false)) \/
  (st' = set_i (S (ps_i st)) st /\ nth_error argv (ps_i st) = Some "--").
Proof.
  unfold scan_step.
  destruct (nth_error argv (ps_i st)) as [arg|] eqn:Harg.
  - destruct (is_char (String.get 0 arg) "-") eqn:Hdash; cbn [negb].
    + destruct (String.eqb_spec arg "--") as [->|Hne].
      * intros [= <-]. right. split; reflexivity.
      * destruct (is_char (String.get 1 arg) "-").
        -- unfold long_option. destruct (strchr _ _) as [len|].
           ++ destruct (96 <=? len)%nat; [unfold bail_out; discriminate|].
              intros H. exfalso. exact (long_named_no_Break _ _ _ _ H).
           ++ intros H. exfalso. exact (long_named_no_Break _ _ _ _ H).
        -- intros H. exfalso. exact (short_cluster_no_Break _ _ _ H).
    + intros [= <-]. left. split; [reflexivity|]. right. exists arg.
      split; [reflexivity|exact Hdash].
  - intros [= <-]. left. split; [reflexivity|]. left. reflexivity.
Qed.

Lemma long_named_upper (name : string) (val : option string) (st st' : pstate) :
  (ps_i st < List.length argv)%nat ->
  long_named env cmd argv allow_version allow_author path name val st = Continue st' ->
  (ps_i st' <= List.length argv)%nat.
Proof.
  intros Hlt. unfold long_named, intercept, bail_out.
  destruct (long_builtin _ _ _ _ _ _); [discriminate|].
  destruct (cargs_find_long _ _) as [o|]; [|discriminate].
  destruct (opt_arg o); destruct val as [v|];
    try (destruct (nth_error argv (S (ps_i st))) as [nxt|] eqn:Hn;
         [apply nth_error_lt in Hn|]);
    try destruct (takes_next nxt);
    try discriminate;
    intros H; apply matched_Continue in H; destruct H as (st1 & Hi & H);
    injection H as <-; simpl in *; lia.
Qed.

Lemma short_cluster_upper (p : string) :
  forall st st',
    (ps_i st <= List.length argv)%nat ->
    short_cluster env cmd argv allow_version path p st = Continue st' ->
    (ps_i st' <= List.length argv)%nat.
Proof.
  induction p as [|c p' IH]; intros st st' Hle; simpl.
  - intros [= <-]. exact Hle.
  - unfold intercept, bail_out.
    destruct (short_builtin _ _ _ _ _); [discriminate|].
    destruct (cargs_find_short _ _) as [o|]; [|discriminate].
    destruct (opt_arg o).
    + intros H. apply matched_Continue in H. destruct H as (st1 & Hi & H).
      apply IH in H; [exact H|]. unfold counted in *. lia.
    + destruct p'; [destruct (nth_error argv (ps_i st)) eqn:Hn;
                    [apply nth_error_lt in Hn|discriminate]|];
        intros H; apply matched_Continue in H; destruct H as (st1 & Hi & H);
        injection H as <-; simpl in *; lia.
    + destruct p'; [destruct (nth_error argv (ps_i st)) as [nxt|] eqn:Hn;
                    [apply nth_error_lt in Hn; destruct (takes_next nxt)|]|];
        intros H; apply matched_Continue in H; destruct H as (st1 & Hi & H);
        injection H as <-; simpl in *; lia.
Qed.

Lemma scan_step_upper (st st' : pstate) :
  (ps_i st <= List.length argv)%nat ->
  scan_step env cmd argv allow_version allow_author path st = Continue st' ->
  (ps_i st' <= List.length argv)%nat.
Proof.
  intros Hle. unfold scan_step.
  destruct (nth_error argv (ps_i st)) as [arg|] eqn:Harg; [|discriminate].
  apply nth_error_lt in Harg.
  destruct (negb _); [discriminate|].
  destruct (String.eqb arg "--"); [discriminate|].
  destruct (is_char (String.get 1 arg) "-").
  - unfold long_option. destruct (strchr _ _) as [len|].
    + destruct (96 <=? len)%nat; [unfold bail_out; discriminate|].
      apply long_named_upper. exact Harg.
    + apply long_named_upper. exact Harg.
  - apply short_cluster_upper. simpl. lia.
Qed.

Lemma scan_loop_upper (fuel : nat) :
  forall st st',
    (ps_i st <= List.length argv)%nat ->
    scan_loop env cmd argv allow_version allow_author path fuel st = Some (ScanEnd st') ->
    (ps_i st' <= List.length argv)%nat.
Proof.
  induction fuel as [|fuel IH]; intros st st' Hle; simpl; [discriminate|].
  destruct (scan_step env cmd argv allow_version allow_author path st)
    as [st1|st1|rc u1 l1] eqn:Hstep.
  - apply IH. eapply scan_step_upper; eassumption.
  - intros [= <-]. apply scan_step_Break in Hstep.
    destruct Hstep as [[-> _]|[-> Harg]]; [exact Hle|].
    apply nth_error_lt in Harg. simpl. lia.
  - discriminate.
Qed.

End LevelBounds.

Lemma level_outcome_cases (U : Type) (getenv : string -> option string)
  (env : option cargs_env) (cmd : option (cargs_cmd U)) (argv : list string)
  (av aa : bool) (path : list string) (idx : nat) (user : U)
  (log : list (event U)) (r : level_result) :
  (idx <= List.length argv)%nat ->
  cargs_parse_opts_level getenv env cmd argv av aa path idx user log = Some r ->
  (lvl_rc r < 0 /\ lvl_idx r = idx) \/
  (lvl_rc r = CARGS_DONE /\ lvl_idx r = List.length argv) \/
  (lvl_rc r = CARGS_OK /\ (idx <= lvl_idx r <= List.length argv)%nat).
Proof.
  intros Hidx. unfold cargs_parse_opts_level, level_scan.
  destruct (group_masks _ _ _) as [xm rm].
  destruct (scan_loop _ _ _ _ _ _ _ _) as [[st|rc u l]|] eqn:Hscan; [| |discriminate].
  - intros [= <-]. cbn [lvl_rc lvl_idx].
    destruct (enforce_from_code 32 1 xm rm (ps_counts st)) as [H|H];
      unfold enforce_groups; rewrite H.
    + right. right. split; [reflexivity|]. cbn.
      pose proof Hscan as Hlo. apply scan_loop_index in Hlo.
      pose proof Hscan as Hhi. apply scan_loop_upper in Hhi;
        [|rewrite overlay_index; exact Hidx].
      rewrite overlay_index in Hlo. simpl in Hlo. lia.
    + left. split; reflexivity.
  - intros [= <-]. cbn [lvl_rc lvl_idx]. apply scan_loop_Return in Hscan.
    destruct Hscan as [H|H].
    + left. split; [exact H|]. destruct (Z.ltb_spec rc 0); [reflexivity|lia].
    + right. left. split; [exact H|]. rewrite H. reflexivity.
Qed.

(** X4: whatever the callbacks return, a level ends with a negative code
    (the index is then left alone), with the intercepted outcome (the index
    is the argument count) or with success; on success the index has not
    moved backwards and is at most the argument count. *)
Theorem level_status_and_index (U : Type) (getenv : string -> option string)
  (env : option cargs_env) (cmd : option (cargs_cmd U)) (argv : list string)
  (av aa : bool) (path : list string) (idx : nat) (user : U)
  (log : list (event U)) (r : level_result) :
  (idx <= List.length argv)%nat ->
  cargs_parse_opts_level getenv env cmd argv av aa path idx user log = Some r ->
  (lvl_rc r < 0 /\ lvl_idx r = idx) \/
  (lvl_rc r = CARGS_DONE /\ lvl_idx r = List.length argv) \/
  (lvl_rc r = CARGS_OK /\ (idx <= lvl_idx r <= List.length argv)%nat).
Proof. apply level_outcome_cases. Qed.

Lemma level_status_and_index_witness :
  (lvl_rc (mk_level 0 3 (Sample.mk_tstate (Some "10") None [])
             [EvCallback Sample.o_jobs (Some "10")]) < 0 /\ 3%nat = 1%nat) \/
  (0 = CARGS_DONE /\ 3%nat = 3%nat) \/
  (0 = CARGS_OK /\ (1 <= 3 <= 3)%nat).
Proof.
  assert (Hidx : (1 <= List.length ["t"; "--jobs"; "10"])%nat) by (simpl; lia).
  exact (level_status_and_index Sample.tstate Sample.no_getenv Sample.test_env
           (Some Sample.root) ["t"; "--jobs"; "10"] true true [] 1 Sample.t0 []
           (mk_level 0 3 (Sample.mk_tstate (Some "10") None [])
              [EvCallback Sample.o_jobs (Some "10")])
           Hidx eq_refl).
Defined.


(** ** Outcomes of a level *)

Section LevelOutcomes.

Context {U : Type}.
Variable getenv : string -> option string.
Variable env : option cargs_env.
Variable cmd : option (cargs_cmd U).
Variable argv : list string.
Variables allow_version allow_author : bool.
Variable path : list string.

Lemma scan_loop_first_Return (fuel : nat) (st : pstate) (rc : Z) (u : U)
  (l : list (event U)) :
  scan_step env cmd argv allow_version allow_author path st = Return rc u l ->
  scan_loop env cmd argv allow_version allow_author path (S fuel) st =
    Some (ScanReturn rc u l).
Proof. intros H. cbn [scan_loop]. rewrite H. reflexivity. Qed.

Lemma scan_loop_first_Break (fuel : nat) (st st' : pstate) :
  scan_step env cmd argv allow_version allow_author path st = Break st' ->
  scan_loop env cmd argv allow_version allow_author path (S fuel) st =
    Some (ScanEnd st').
Proof. intros H. cbn [scan_loop]. rewrite H. reflexivity. Qed.

Lemma level_of_ScanReturn (idx : nat) (user : U) (log : list (event U))
  (rc : Z) (u : U) (l : list (event U)) :
  level_scan getenv env cmd argv allow_version allow_author path idx user log =
    Some (ScanReturn rc u l) ->
  cargs_parse_opts_level getenv env cmd argv allow_version allow_author path
    idx user log =
  Some (mk_level rc (if rc <? 0 then idx else List.length argv) u l).
Proof.
  intros H. unfold cargs_parse_opts_level.
  destruct (group_masks _ _ _) as [xm rm]. rewrite H. reflexivity.
Qed.

Lemma violates_ext (opts : list (cargs_opt U)) (c1 c2 : Z -> Z) (g : Z) :
  c1 g = c2 g -> violates opts c1 g -> violates opts c2 g.
Proof. unfold violates. intros ->. exact (fun H => H). Qed.

Lemma level_of_ScanEnd (idx : nat) (user : U) (log : list (event U))
  (st : pstate) :
  level_scan getenv env cmd argv allow_version allow_author path idx user log =
    Some (ScanEnd st) ->
  exists r,
    cargs_parse_opts_level getenv env cmd argv allow_version allow_author path
      idx user log = Some r /\
    lvl_user r = ps_user st /\ lvl_log r = ps_log st /\
    ((lvl_rc r = CARGS_ERR_GROUP /\ lvl_idx r = idx /\
      exists g, 1 <= g <= 31 /\ violates (level_opts cmd) (ps_counts st) g) \/
     (lvl_rc r = CARGS_OK /\ lvl_idx r = ps_i st /\
      forall g, 1 <= g <= 31 -> ~ violates (level_opts cmd) (ps_counts st) g)).
Proof.
  intros Hscan. unfold cargs_parse_opts_level.
  pose proof (group_enforcement (level_opts cmd) (ps_counts st)) as G.
  cbv zeta in G.
  destruct (group_masks (level_opts cmd) 0 0) as [xm rm]. cbn [fst snd] in G.
  destruct G as [Giff _]. rewrite Hscan.
  eexists. split; [reflexivity|]. cbn [lvl_user lvl_log lvl_rc lvl_idx].
  split; [reflexivity|]. split; [reflexivity|].
  destruct (enforce_from_code 32 1 xm rm (ps_counts st)) as [H|H];
    unfold enforce_groups in *; rewrite H.
  - right. split; [reflexivity|]. split; [reflexivity|].
    intros g Hg Hv.
    assert (Hbad : enforce_from 32 1 xm rm (ps_counts st) = CARGS_ERR_GROUP)
      by (apply Giff; exists g; split; assumption).
    rewrite H in Hbad. discriminate.
  - left. split; [reflexivity|]. split; [reflexivity|]. apply Giff. exact H.
Qed.

End LevelOutcomes.

(** X5: the group constraints are checked only once the scan has reached
    its end, on the counters the overlay and the scan left: the level
    fails with the group code exactly when some group from 1 to 31
    violates its declared policy, and even then the context and the log
    keep everything the callbacks did; otherwise it succeeds at the index
    the scan reached. *)
Theorem level_group_verdict (U : Type) (getenv : string -> option string)
  (env : option cargs_env) (cmd : option (cargs_cmd U)) (argv : list string)
  (av aa : bool) (path : list string) (idx : nat) (user : U)
  (log : list (event U)) (st : pstate) :
  level_scan getenv env cmd argv av aa path idx user log = Some (ScanEnd st) ->
  exists r,
    cargs_parse_opts_level getenv env cmd argv av aa path idx user log = Some r /\
    lvl_user r = ps_user st /\ lvl_log r = ps_log st /\
    ((lvl_rc r = CARGS_ERR_GROUP /\ lvl_idx r = idx /\
      exists g, 1 <= g <= 31 /\ violates (level_opts cmd) (ps_counts st) g) \/
     (lvl_rc r = CARGS_OK /\ lvl_idx r = ps_i st /\
      forall g, 1 <= g <= 31 -> ~ violates (level_opts cmd) (ps_counts st) g)).
Proof. apply level_of_ScanEnd. Qed.

Lemma level_group_verdict_witness :
  exists r,
    cargs_parse_opts_level Sample.no_getenv Sample.test_env (Some Sample.root)
      ["t"; "--json"; "--yaml"] true true [] 1 Sample.t0 [] = Some r /\
    lvl_rc r = CARGS_ERR_GROUP /\
    lvl_log r = [EvCallback Sample.o_json None; EvCallback Sample.o_yaml None].
Proof.
  destruct (level_group_verdict Sample.tstate Sample.no_getenv Sample.test_env
              (Some Sample.root) ["t"; "--json"; "--yaml"] true true [] 1
              Sample.t0 []
              (mk_pstate 3 (bump 1 (bump 1 (fun _ => 0))) Sample.t0
                 [EvCallback Sample.o_json None; EvCallback Sample.o_yaml None])
              eq_refl) as (r & Hr & _ & Hlog & _).
  exists r. split; [exact Hr|]. split; [|exact Hlog].
  vm_compute in Hr. injection Hr as <-. reflexivity.
Defined.

(** X6: a level that meets no option token (the vector is exhausted or the
    token at the index does not start with a dash) still runs the overlay,
    whose callbacks' return values are discarded: the level ends with
    success, the index unmoved, or with the group code, decided by the
    overlay's counts alone; the log holds the overlay's calls. *)
Theorem level_without_option_tokens (U : Type) (getenv : string -> option string)
  (env : option cargs_env) (cmd : option (cargs_cmd U)) (argv : list string)
  (av aa : bool) (path : list string) (idx : nat) (user : U)
  (log : list (event U)) :
  nth_error argv idx = None \/
  (exists tok, nth_error argv idx = Some tok /\
               is_char (String.get 0 tok) "-" = false) ->
  let opts := level_opts cmd in
  let overlay := overlay_events getenv opts in
  exists r,
    cargs_parse_opts_level getenv env cmd argv av aa path idx user log = Some r /\
    lvl_log r = (log ++ overlay)%list /\
    ((lvl_rc r = CARGS_OK /\ lvl_idx r = idx) \/
     (lvl_rc r = CARGS_ERR_GROUP /\ lvl_idx r = idx)) /\
    (lvl_rc r = CARGS_ERR_GROUP <->
     exists g, 1 <= g <= 31 /\
               violates opts (fun g => u8 (group_events g overlay)) g).
Proof.
  intros Htok opts overlay.
  set (st0 := cargs_apply_env_defaults_level getenv opts
                (mk_pstate idx (fun _ => 0) user log)).
  assert (Hstep : scan_step env cmd argv av aa path st0 = Break st0).
  { unfold scan_step. unfold st0 at 1. rewrite overlay_index. cbn [ps_i].
    destruct Htok as [->|(tok & -> & Hd)]; [reflexivity|]. rewrite Hd. reflexivity. }
  assert (Hscan : level_scan getenv env cmd argv av aa path idx user log =
                  Some (ScanEnd st0)).
  { unfold level_scan. apply scan_loop_first_Break. exact Hstep. }
  assert (Hcounts : forall g, 1 <= g <= 31 ->
                      ps_counts st0 g = u8 (group_events g overlay)).
  { intros g Hg.
    assert (Hagree : counts_agree log st0).
    { unfold st0. apply overlay_counts. exists []. split.
      - cbn. rewrite app_nil_r. reflexivity.
      - intros g' _. reflexivity. }
    destruct Hagree as (l & Hl & Hc).
    assert (l = overlay).
    { unfold st0 in Hl. rewrite overlay_log in Hl. cbn [ps_log] in Hl.
      apply app_inv_head in Hl. symmetry. exact Hl. }
    subst l. apply Hc. unfold MAXG. lia. }
  destruct (level_of_ScanEnd getenv env cmd argv av aa path idx user log st0 Hscan)
    as (r & Hr & _ & Hlog & Hrc).
  exists r. split; [exact Hr|]. split.
  { rewrite Hlog. unfold st0. rewrite overlay_log. reflexivity. }
  assert (Hi : ps_i st0 = idx) by (unfold st0; rewrite overlay_index; reflexivity).
  split.
  - destruct Hrc as [(Hc & Hidx & _)|(Hc & Hidx & _)].
    + right. split; assumption.
    + left. split; [exact Hc|]. rewrite Hidx. exact Hi.
  - split.
    + intros Hc. destruct Hrc as [(_ & _ & g & Hg & Hv)|(Hok & _)].
      * exists g. split; [exact Hg|].
        apply (violates_ext opts (ps_counts st0)); [apply Hcounts; exact Hg|exact Hv].
      * rewrite Hok in Hc. discriminate.
    + intros (g & Hg & Hv). destruct Hrc as [(Hc & _)|(_ & _ & Hno)]; [exact Hc|].
      exfalso. apply (Hno g Hg).
      apply (violates_ext opts (fun g => u8 (group_events g overlay)));
        [symmetry; apply Hcounts; exact Hg|exact Hv].
Qed.

Lemma level_without_option_tokens_witness :
  exists r,
    cargs_parse_opts_level Sample.no_getenv Sample.test_env (Some defaulted_root)
      ["t"; "file"] true true [] 1 Sample.t0 [] = Some r /\
    lvl_log r = ([] ++ overlay_events Sample.no_getenv (cmd_opts defaulted_root))%list /\
    ((lvl_rc r = CARGS_OK /\ lvl_idx r = 1%nat) \/
     (lvl_rc r = CARGS_ERR_GROUP /\ lvl_idx r = 1%nat)) /\
    (lvl_rc r = CARGS_ERR_GROUP <->
     exists g, 1 <= g <= 31 /\
       violates (cmd_opts defaulted_root)
         (fun g => u8 (group_events g
                         (overlay_events Sample.no_getenv (cmd_opts defaulted_root)))) g).
Proof.
  apply (level_without_option_tokens Sample.tstate Sample.no_getenv Sample.test_env
           (Some defaulted_root) ["t"; "file"] true true [] 1 Sample.t0 []).
  right. exists "file". split; reflexivity.
Defined.


(** ** Tokens the scan rejects *)

(** X7: a token that names no option of the level stops the scan with the
    unknown-option code, and no callback runs for it: the context and the
    log are those of the state the scan had reached.  This holds for a
    long name, with or without an attached value, and for the first
    character of a short token. *)
Theorem unknown_option_rejected (U : Type) (env : option cargs_env)
  (cmd : option (cargs_cmd U)) (argv : list string) (av aa : bool)
  (path : list string) (fuel : nat) (st : pstate) :
  let stops :=
    scan_loop env cmd argv av aa path (S fuel) st =
      Some (ScanReturn CARGS_ERR_UNKNOWN (ps_user st) (ps_log st)) in
  (forall name,
     name <> "" -> strchr name "=" = None ->
     nth_error argv (ps_i st) = Some ("--" ++ name) ->
     long_builtin env cmd av aa path name = None ->
     cargs_find_long (level_opts cmd) name = None ->
     stops) /\
  (forall name v,
     strchr name "=" = None -> (String.length name < 96)%nat ->
     nth_error argv (ps_i st) = Some ("--" ++ name ++ String "=" v) ->
     long_builtin env cmd av aa path name = None ->
     cargs_find_long (level_opts cmd) name = None ->
     stops) /\
  (forall c p,
     c <> "-"%char ->
     nth_error argv (ps_i st) = Some (String "-" (String c p)) ->
     short_builtin env cmd av path c = None ->
     cargs_find_short (level_opts cmd) c = None ->
     stops).
Proof.
  intros stops. unfold stops. repeat split.
  - intros name Hne Heq Htok Hb Hf. apply scan_loop_first_Return.
    rewrite (scan_step_long _ _ _ _ _ _ _ name Hne Htok).
    rewrite long_option_plain by exact Heq.
    unfold long_named. rewrite Hb, Hf. reflexivity.
  - intros name v Heq Hlen Htok Hb Hf. apply scan_loop_first_Return.
    assert (Hne : (name ++ String "=" v)%string <> "")
      by (destruct name; discriminate).
    rewrite (scan_step_long _ _ _ _ _ _ _ _ Hne Htok).
    rewrite long_option_attached by assumption.
    unfold long_named. rewrite Hb, Hf. reflexivity.
  - intros c p Hc Htok Hb Hf. apply scan_loop_first_Return.
    rewrite scan_step_short with (c := c) (p := p) by assumption.
    cbn [short_cluster]. rewrite Hb, Hf. reflexivity.
Qed.

Lemma unknown_option_rejected_witness :
  scan_loop Sample.test_env (Some Sample.root) ["t"; "--nope"] true true [] 1
    (mk_pstate 1 (fun _ => 0) Sample.t0 []) =
  Some (ScanReturn CARGS_ERR_UNKNOWN Sample.t0 []).
Proof.
  refine (proj1 (unknown_option_rejected Sample.tstate Sample.test_env
                   (Some Sample.root) ["t"; "--nope"] true true [] 0
                   (mk_pstate 1 (fun _ => 0) Sample.t0 []))
            "nope" _ eq_refl eq_refl eq_refl eq_refl).
  discriminate.
Defined.

(** X8: malformed values stop the scan before any callback of the option
    runs.  A REQUIRED option in the last token, with nothing attached,
    gives the missing-value code; an option that takes no value gives the
    bad-format code when a value is attached to its long name; a long
    token whose name part before the equals sign has 96 characters or more
    gives the bad-format code whatever the name is. *)
Theorem malformed_values_rejected (U : Type) (env : option cargs_env)
  (cmd : option (cargs_cmd U)) (argv : list string) (av aa : bool)
  (path : list string) (fuel : nat) (st : pstate) :
  let stops := fun rc =>
    scan_loop env cmd argv av aa path (S fuel) st =
      Some (ScanReturn rc (ps_user st) (ps_log st)) in
  (forall name o,
     name <> "" -> strchr name "=" = None ->
     nth_error argv (ps_i st) = Some ("--" ++ name) ->
     nth_error argv (S (ps_i st)) = None ->
     long_builtin env cmd av aa path name = None ->
     cargs_find_long (level_opts cmd) name = Some o ->
     opt_arg o = CARGS_ARG_REQUIRED ->
     stops CARGS_ERR_MISSING_VAL) /\
  (forall c o,
     c <> "-"%char ->
     nth_error argv (ps_i st) = Some (String "-" (String c "")) ->
     nth_error argv (S (ps_i st)) = None ->
     short_builtin env cmd av path c = None ->
     cargs_find_short (level_opts cmd) c = Some o ->
     opt_arg o = CARGS_ARG_REQUIRED ->
     stops CARGS_ERR_MISSING_VAL) /\
  (forall name v o,
     strchr name "=" = None -> (String.length name < 96)%nat ->
     nth_error argv (ps_i st) = Some ("--" ++ name ++ String "=" v) ->
     long_builtin env cmd av aa path name = None ->
     cargs_find_long (level_opts cmd) name = Some o ->
     opt_arg o = CARGS_ARG_NONE ->
     stops CARGS_ERR_BAD_FORMAT) /\
  (forall name v,
     strchr name "=" = None -> (96 <= String.length name)%nat ->
     nth_error argv (ps_i st) = Some ("--" ++ name ++ String "=" v) ->
     stops CARGS_ERR_BAD_FORMAT).
Proof.
  intros stops. unfold stops. repeat split.
  - intros name o Hne Heq Htok Hnext Hb Hf Ha. apply scan_loop_first_Return.
    rewrite (scan_step_long _ _ _ _ _ _ _ name Hne Htok).
    rewrite long_option_plain by exact Heq.
    unfold long_named. rewrite Hb, Hf, Ha, Hnext. reflexivity.
  - intros c o Hc Htok Hnext Hb Hf Ha. apply scan_loop_first_Return.
    rewrite scan_step_short with (c := c) (p := EmptyString) by assumption.
    cbn [short_cluster]. rewrite Hb, Hf, Ha. cbn [set_i ps_i]. rewrite Hnext.
    reflexivity.
  - intros name v o Heq Hlen Htok Hb Hf Ha. apply scan_loop_first_Return.
    assert (Hne : (name ++ String "=" v)%string <> "")
      by (destruct name; discriminate).
    rewrite (scan_step_long _ _ _ _ _ _ _ _ Hne Htok).
    rewrite long_option_attached by assumption.
    unfold long_named. rewrite Hb, Hf, Ha. reflexivity.
  - intros name v Heq Hlen Htok. apply scan_loop_first_Return.
    assert (Hne : (name ++ String "=" v)%string <> "")
      by (destruct name; discriminate).
    rewrite (scan_step_long _ _ _ _ _ _ _ _ Hne Htok).
    unfold long_option.
    change (advance 2 ("--" ++ name ++ String "=" v)) with (name ++ String "=" v)%string.
    rewrite (strchr_append name v "=" Heq).
    destruct (Nat.leb_spec 96 (String.length name)) as [_|Hlt]; [reflexivity|lia].
Qed.

Lemma malformed_values_rejected_witness :
  scan_loop Sample.test_env (Some Sample.root) ["t"; "--jobs"] true true [] 1
    (mk_pstate 1 (fun _ => 0) Sample.t0 []) =
  Some (ScanReturn CARGS_ERR_MISSING_VAL Sample.t0 []).
Proof.
  refine (proj1 (malformed_values_rejected Sample.tstate Sample.test_env
                   (Some Sample.root) ["t"; "--jobs"] true true [] 0
                   (mk_pstate 1 (fun _ => 0) Sample.t0 []))
            "jobs" Sample.o_jobs _ eq_refl eq_refl eq_refl eq_refl eq_refl eq_refl).
  discriminate.
Defined.



(** ** What a level and the dispatcher add to the log *)

Section LevelTrace.

Context {U : Type}.
Variable getenv : string -> option string.
Variable env : option cargs_env.
Variable cmd : option (cargs_cmd U).
Variable argv : list string.
Variables allow_version allow_author : bool.
Variable path : list string.

Abbreviation ext := (extends_log env cmd allow_version allow_author path).
Abbreviation lev := (level_event env cmd allow_version allow_author path).
Abbreviation growth := (level_growth env cmd allow_version allow_author path).

Lemma growth_nil : growth [] [].
Proof. split; [constructor|reflexivity]. Qed.

Lemma growth_app (l1 l2 tail : list (event U)) :
  growth l1 [] -> growth l2 tail -> growth (l1 ++ l2) tail.
Proof.
  intros [F1 B1] [F2 B2]. rewrite app_nil_r in F1. split.
  - rewrite <- app_assoc. apply Forall_app. split; assumption.
  - rewrite forallb_app, B1, B2. reflexivity.
Qed.

Lemma ext_continue (st : pstate) : ext st (Continue st).
Proof.
  exists [], []. split; [cbn; rewrite app_nil_r; reflexivity|].
  split; [exact growth_nil|reflexivity].
Qed.

Lemma ext_break (st : pstate) : ext st (Break st).
Proof.
  exists [], []. split; [cbn; rewrite app_nil_r; reflexivity|].
  split; [exact growth_nil|reflexivity].
Qed.

Lemma ext_bail (rc : Z) (st : pstate) : rc < 0 -> ext st (bail_out rc st).
Proof.
  intros Hrc. exists [], []. split; [cbn; rewrite app_nil_r; reflexivity|].
  split; [exact growth_nil|]. left. split; [exact Hrc|reflexivity].
Qed.

Lemma ext_intercept (e : event U) (st : pstate) :
  lev e -> is_callback e = false -> ext st (intercept e st).
Proof.
  intros He Hcb. exists [], [e]. split; [reflexivity|]. split.
  - split; [constructor; [exact He|constructor]|reflexivity].
  - right. split; [reflexivity|]. exists e. split; [reflexivity|exact Hcb].
Qed.

Lemma ext_moved (j : nat) (st : pstate) (r : step_result) :
  ext (set_i j st) r -> ext st r.
Proof. exact (fun H => H). Qed.

Lemma ext_matched (o : cargs_opt U) (val : option string) (st : pstate)
  (k : pstate -> step_result) :
  In o (level_opts cmd) ->
  (forall st1, ext st1 (k st1)) ->
  ext st (matched o val st k).
Proof.
  intros Hin Hk. unfold matched, invoke.
  destruct (opt_cb o) as [f|] eqn:Hcb.
  - destruct (f val (ps_user st)) as [rc u1].
    assert (Hone : growth [EvCallback o val] []).
    { split; [|reflexivity]. constructor; [|constructor].
      split; [exact Hin|congruence]. }
    destruct (rc <? 0) eqn:Hrc.
    + exists [EvCallback o val], []. split; [cbn; reflexivity|].
      split; [exact Hone|]. left. split; [apply Z.ltb_lt; exact Hrc|reflexivity].
    + match goal with |- ext st (k ?s) => destruct (Hk s) as (l & tail & Hl & Hg & Ht) end.
      exists (EvCallback o val :: l), tail. split.
      * rewrite Hl. cbn [counted ps_log]. rewrite <- app_assoc. reflexivity.
      * split; [exact (growth_app [EvCallback o val] l tail Hone Hg)|exact Ht].
  - change (CARGS_OK <? 0) with false. cbv iota.
    match goal with |- ext st (k ?s) => exact (Hk s) end.
Qed.

Ltac move_back :=
  match goal with
  | |- extends_log _ _ _ _ _ ?s (matched _ _ (set_i ?k ?s) _) =>
      apply (ext_moved k)
  | _ => idtac
  end.

Lemma long_builtin_event (name : string) (e : event U) :
  long_builtin env cmd allow_version allow_author path name = Some e ->
  lev e /\ is_callback e = false.
Proof.
  unfold long_builtin.
  destruct (env_flag env env_auto_help && String.eqb name "help") eqn:Hh.
  - intros [= <-]. apply andb_prop in Hh. split; [|reflexivity].
    split; [reflexivity|]. split; [reflexivity|]. apply Hh.
  - destruct (allow_version && env_flag env env_auto_version
              && String.eqb name "version") eqn:Hv.
    + destruct (env_text env env_version) as [v|] eqn:Htv.
      * intros [= <-]. apply andb_prop in Hv. destruct Hv as [Hv _].
        apply andb_prop in Hv. split; [|reflexivity].
        left. split; [apply Hv|]. split; [apply Hv|exact Htv].
      * destruct (allow_author && env_flag env env_auto_author
                  && String.eqb name "author") eqn:Ha; [|discriminate].
        destruct (env_text env env_author) as [a|] eqn:Hta; [|discriminate].
        intros [= <-]. apply andb_prop in Ha. destruct Ha as [Ha _].
        apply andb_prop in Ha. split; [|reflexivity].
        right. split; [apply Ha|]. split; [apply Ha|exact Hta].
    + destruct (allow_author && env_flag env env_auto_author
                && String.eqb name "author") eqn:Ha; [|discriminate].
      destruct (env_text env env_author) as [a|] eqn:Hta; [|discriminate].
      intros [= <-]. apply andb_prop in Ha. destruct Ha as [Ha _].
      apply andb_prop in Ha. split; [|reflexivity].
      right. split; [apply Ha|]. split; [apply Ha|exact Hta].
Qed.

Lemma short_builtin_event (c : ascii) (e : event U) :
  short_builtin env cmd allow_version path c = Some e ->
  lev e /\ is_callback e = false.
Proof.
  unfold short_builtin.
  destruct (env_flag env env_auto_help && Ascii.eqb c "h") eqn:Hh.
  - intros [= <-]. apply andb_prop in Hh. split; [|reflexivity].
    split; [reflexivity|]. split; [reflexivity|]. apply Hh.
  - destruct (allow_version && env_flag env env_auto_version
              && Ascii.eqb c "v") eqn:Hv; [|discriminate].
    destruct (env_text env env_version) as [v|] eqn:Htv; [|discriminate].
    intros [= <-]. apply andb_prop in Hv. destruct Hv as [Hv _].
    apply andb_prop in Hv. split; [|reflexivity].
    left. split; [apply Hv|]. split; [apply Hv|exact Htv].
Qed.

Lemma ext_long_named (name : string) (val : option string) (st : pstate) :
  ext st (long_named env cmd argv allow_version allow_author path name val st).
Proof.
  unfold long_named.
  destruct (long_builtin _ _ _ _ _ _) as [e|] eqn:Hb.
  { apply long_builtin_event in Hb. apply ext_intercept; apply Hb. }
  destruct (cargs_find_long _ _) as [o|] eqn:Hf; [|apply ext_bail; reflexivity].
  apply find_long_In in Hf.
  assert (Hnext : forall st1, ext st1 (Continue (set_i (S (ps_i st1)) st1))).
  { intros st1. apply ext_moved with (j := S (ps_i st1)). apply ext_continue. }
  destruct (opt_arg o); destruct val as [v|];
    try (destruct (nth_error argv (S (ps_i st))) as [nxt|]);
    try destruct (takes_next nxt);
    try (apply ext_bail; reflexivity);
    move_back; apply ext_matched; assumption.
Qed.

Lemma ext_short_cluster (p : string) :
  forall st, ext st (short_cluster env cmd argv allow_version path p st).
Proof.
  induction p as [|c p' IH]; intros st; cbn [short_cluster]; [apply ext_continue|].
  destruct (short_builtin _ _ _ _ _) as [e|] eqn:Hb.
  { apply short_builtin_event in Hb. apply ext_intercept; apply Hb. }
  destruct (cargs_find_short _ _) as [o|] eqn:Hf; [|apply ext_bail; reflexivity].
  apply find_short_In in Hf.
  destruct (opt_arg o).
  - apply ext_matched; assumption.
  - destruct p'; [destruct (nth_error argv (ps_i st)) as [nxt|]|];
      try (apply ext_bail; reflexivity);
      move_back; apply ext_matched; try assumption; apply ext_continue.
  - destruct p'; [destruct (nth_error argv (ps_i st)) as [nxt|];
                  [destruct (takes_next nxt)|]|];
      move_back; apply ext_matched; try assumption; apply ext_continue.
Qed.

Lemma ext_scan_step (st : pstate) :
  ext st (scan_step env cmd argv allow_version allow_author path st).
Proof.
  unfold scan_step.
  destruct (nth_error argv (ps_i st)) as [arg|]; [|apply ext_break].
  destruct (negb _); [apply ext_break|].
  destruct (String.eqb arg "--").
  { apply ext_moved with (j := S (ps_i st)). apply ext_break. }
  destruct (is_char (String.get 1 arg) "-").
  - unfold long_option. destruct (strchr _ _) as [len|].
    + destruct (96 <=? len)%nat; [apply ext_bail; reflexivity|apply ext_long_named].
    + apply ext_long_named.
  - apply ext_moved with (j := S (ps_i st)). apply ext_short_cluster.
Qed.

(** The scan adds callbacks of the level and, when it returns with the
    intercepted outcome, one builtin output at the end. *)
Lemma scan_loop_trace (fuel : nat) :
  forall st r,
    scan_loop env cmd argv allow_version allow_author path fuel st = Some r ->
    exists l tail,
      scan_log r = (ps_log st ++ l ++ tail)%list /\
      growth l tail /\
      match r with
      | ScanReturn rc _ _ => level_tail rc tail
      | ScanEnd _ => tail = []
      end.
Proof.
  induction fuel as [|fuel IH]; intros st r; cbn [scan_loop]; [discriminate|].
  destruct (ext_scan_step st) as (l1 & t1 & Hl1 & Hg1 & Ht1).
  destruct (scan_step env cmd argv allow_version allow_author path st)
    as [st1|st1|rc u1 lg1].
  - intros H. apply IH in H. destruct H as (l2 & t2 & Hl2 & Hg2 & Ht2).
    subst t1. cbn [result_log] in Hl1. rewrite app_nil_r in Hl1.
    exists (l1 ++ l2)%list, t2. split.
    + rewrite Hl2, Hl1. rewrite <- !app_assoc. reflexivity.
    + split; [apply growth_app; assumption|exact Ht2].
  - intros [= <-]. exists l1, t1. repeat split; try apply Hg1; assumption.
  - intros [= <-]. exists l1, t1. repeat split; try apply Hg1; assumption.
Qed.

Lemma overlay_growth (opts : list (cargs_opt U)) :
  incl opts (level_opts cmd) -> growth (overlay_events getenv opts) [].
Proof.
  induction opts as [|o rest IH]; intros Hincl; cbn [overlay_events];
    [exact growth_nil|].
  assert (Hrest : growth (overlay_events getenv rest) []).
  { apply IH. intros x Hx. apply Hincl. right. exact Hx. }
  destruct (spec_overlay_value getenv o) as [v|]; [|exact Hrest].
  destruct (opt_cb o) as [f|] eqn:Hcb; [|exact Hrest].
  apply (growth_app [EvCallback o (Some v)] _ [] ); [|exact Hrest].
  split; [|reflexivity]. constructor; [|constructor].
  split; [apply Hincl; left; reflexivity|congruence].
Qed.

(** A level adds callbacks of its options and, exactly when it returns the
    intercepted outcome, one builtin output after them. *)
Lemma level_trace (idx : nat) (user : U) (log : list (event U))
  (r : level_result) :
  cargs_parse_opts_level getenv env cmd argv allow_version allow_author path
    idx user log = Some r ->
  exists l tail,
    lvl_log r = (log ++ l ++ tail)%list /\
    growth l tail /\
    ((lvl_rc r = CARGS_DONE /\ exists e, tail = [e] /\ is_callback e = false) \/
     (lvl_rc r <> CARGS_DONE /\ tail = [])).
Proof.
  unfold cargs_parse_opts_level, level_scan.
  destruct (group_masks _ _ _) as [xm rm].
  destruct (scan_loop _ _ _ _ _ _ _ _) as [sr|] eqn:Hscan; [|discriminate].
  apply scan_loop_trace in Hscan. destruct Hscan as (l & tail & Hl & Hg & Ht).
  rewrite overlay_log in Hl. cbn [ps_log] in Hl.
  assert (Hov : growth (overlay_events getenv (level_opts cmd)) [])
    by (apply overlay_growth; apply incl_refl).
  destruct sr as [st|rc u lg]; intros [= <-]; cbn [lvl_log lvl_rc scan_log] in *;
    exists (overlay_events getenv (level_opts cmd) ++ l)%list, tail.
  - split; [rewrite Hl, <- !app_assoc; reflexivity|].
    split; [apply growth_app; assumption|]. right. split; [|exact Ht].
    destruct (enforce_from_code 32 1 xm rm (ps_counts st)) as [H|H];
      unfold enforce_groups; rewrite H; discriminate.
  - split; [rewrite Hl, <- !app_assoc; reflexivity|].
    split; [apply growth_app; assumption|].
    destruct Ht as [[Hneg ->]|[-> He]].
    + right. split; [|reflexivity]. unfold CARGS_DONE. lia.
    + left. split; [reflexivity|exact He].
Qed.

End LevelTrace.


Section DispatchTrace.

Context {U : Type}.
Variable getenv : string -> option string.
Variable env : option cargs_env.
Variable argv : list string.

Lemma level_event_not_run (cmd : option (cargs_cmd U)) (av aa : bool)
  (path : list string) (l : list (event U)) :
  Forall (level_event env cmd av aa path) l ->
  Forall (fun e => is_run e = false) l.
Proof.
  apply Forall_impl. intros [o v|c p|line|c args]; cbn; try reflexivity.
  intros [].
Qed.

Lemma level_event_not_print (cmd : option (cargs_cmd U)) (path : list string)
  (l : list (event U)) :
  Forall (level_event env cmd false false path) l ->
  Forall (fun e => is_print e = false) l.
Proof.
  apply Forall_impl. intros [o v|c p|line|c args]; cbn; try reflexivity.
  intros [[H _]|[H _]]; discriminate.
Qed.

Lemma callbacks_not_print (l : list (event U)) :
  forallb is_callback l = true -> Forall (fun e => is_print e = false) l.
Proof.
  intros H. apply Forall_forall. intros e He.
  rewrite forallb_forall in H. specialize (H e He). destruct e; [reflexivity| | |];
    discriminate.
Qed.

(** The code after the descent adds at most one event: the help of the
    leaf, or the call of its handler, whose result is then the
    dispatcher's. *)
Lemma leaf_trace (cmd : cargs_cmd U) (j : nat) (path : list string) (u : U)
  (lg : list (event U)) :
  let d := dispatch_leaf argv cmd j path u lg in
  exists l tail,
    d_log d = (lg ++ l ++ tail)%list /\
    Forall (fun e => is_run e = false) l /\
    Forall (fun e => is_print e = false) (l ++ tail) /\
    (tail = [] \/
     exists run,
       tail = [EvRun cmd (skipn j argv)] /\ cmd_run cmd = Some run /\
       run (skipn j argv) u = (d_rc d, d_user d)).
Proof.
  unfold dispatch_leaf.
  destruct (_ <? 0).
  - exists [], []. cbn. rewrite app_nil_r.
    split; [reflexivity|]. split; [constructor|]. split; [constructor|].
    left. reflexivity.
  - destruct (cmd_run cmd) as [run|] eqn:Hrun.
    + destruct (run (skipn j argv) u) as [rc u'] eqn:Hr.
      exists [], [EvRun cmd (skipn j argv)]. cbn.
      split; [reflexivity|]. split; [constructor|].
      split; [constructor; [reflexivity|constructor]|].
      right. exists run. split; [reflexivity|]. split; [reflexivity|exact Hr].
    + exists [EvHelp (Some cmd) path], []. cbn.
      split; [reflexivity|].
      split; [constructor; [reflexivity|constructor]|].
      split; [constructor; [reflexivity|constructor]|].
      left. reflexivity.
Qed.

Lemma deeper_path_not_empty (path : list string) (tok : string) :
  (if (List.length path <? 16)%nat then (path ++ [tok])%list else path) <> [].
Proof.
  destruct (Nat.ltb_spec (List.length path) 16) as [_|H].
  - destruct path; discriminate.
  - destruct path; [cbn in H; lia|discriminate].
Qed.

Lemma not_root_level (path : list string) :
  path <> [] -> (List.length path =? 0)%nat = false.
Proof. destruct path; [congruence|reflexivity]. Qed.

(** What the descent adds to the log, and where the handler's arguments
    start. *)
Lemma dispatch_loop_trace (fuel : nat) :
  forall (cmd : cargs_cmd U) i path user log d,
    dispatch_loop getenv env argv fuel cmd i path user log = Some d ->
    exists l tail,
      d_log d = (log ++ l ++ tail)%list /\
      Forall (fun e => is_run e = false) l /\
      (path <> [] -> Forall (fun e => is_print e = false) l) /\
      (tail = [] \/
       exists c j run u0,
         tail = [EvRun c (skipn j argv)] /\
         (i <= j)%nat /\ ((i <= List.length argv)%nat -> (j <= List.length argv)%nat) /\
         cmd_run c = Some run /\
         run (skipn j argv) u0 = (d_rc d, d_user d)).
Proof.
  induction fuel as [|fuel IH]; intros cmd i path user log d; cbn [dispatch_loop];
    [discriminate|].
  destruct (cargs_parse_opts_level _ _ _ _ _ _ _ _ _ _) as [r|] eqn:Hlvl;
    [|discriminate].
  destruct (level_trace _ _ _ _ _ _ _ _ _ _ _ Hlvl)
    as (l1 & t1 & Hlog & [Hall Hcb] & Htail).
  assert (Hnorun : Forall (fun e => is_run e = false) (l1 ++ t1))
    by (eapply level_event_not_run; exact Hall).
  assert (Hnoprint : path <> [] -> Forall (fun e => is_print e = false) (l1 ++ t1)).
  { intros Hp. rewrite (not_root_level path Hp) in Hall.
    eapply level_event_not_print. exact Hall. }
  assert (Hquiet : forall dd,
            d_log dd = lvl_log r ->
            exists l tail,
              d_log dd = (log ++ l ++ tail)%list /\
              Forall (fun e => is_run e = false) l /\
              (path <> [] -> Forall (fun e => is_print e = false) l) /\
              (tail = [] \/
               exists c j run u0,
                 tail = [EvRun c (skipn j argv)] /\
                 (i <= j)%nat /\
                 ((i <= List.length argv)%nat -> (j <= List.length argv)%nat) /\
                 cmd_run c = Some run /\
                 run (skipn j argv) u0 = (d_rc dd, d_user dd))).
  { intros dd Hdd. exists (l1 ++ t1)%list, []. rewrite Hdd, Hlog, app_nil_r.
    repeat split; try assumption. left. reflexivity. }
  destruct (lvl_rc r =? CARGS_DONE) eqn:Hdone.
  { intros [= <-]. apply Hquiet. reflexivity. }
  destruct (lvl_rc r <? 0) eqn:Hneg.
  { intros [= <-]. apply Hquiet. reflexivity. }
  destruct Htail as [[Hd _]|[_ ->]];
    [rewrite Hd in Hdone; discriminate|].
  rewrite app_nil_r in *.
  assert (Hlo : (i <= lvl_idx r)%nat).
  { destruct (level_index _ _ _ _ _ _ _ _ _ _ _ Hlvl) as [H|[H|[_ H]]].
    - apply Z.ltb_ge in Hneg. lia.
    - rewrite H in Hdone. discriminate.
    - exact H. }
  assert (Hhi : (i <= List.length argv)%nat -> (lvl_idx r <= List.length argv)%nat).
  { intros Hi.
    destruct (level_outcome_cases _ _ _ _ _ _ _ _ _ _ _ _ Hi Hlvl)
      as [[H _]|[[H _]|[_ H]]].
    - apply Z.ltb_ge in Hneg. lia.
    - rewrite H in Hdone. discriminate.
    - lia. }
  assert (Hleaf : forall dd,
            dd = dispatch_leaf argv cmd (lvl_idx r) path (lvl_user r) (lvl_log r) ->
            exists l tail,
              d_log dd = (log ++ l ++ tail)%list /\
              Forall (fun e => is_run e = false) l /\
              (path <> [] -> Forall (fun e => is_print e = false) l) /\
              (tail = [] \/
               exists c j run u0,
                 tail = [EvRun c (skipn j argv)] /\
                 (i <= j)%nat /\
                 ((i <= List.length argv)%nat -> (j <= List.length argv)%nat) /\
                 cmd_run c = Some run /\
                 run (skipn j argv) u0 = (d_rc dd, d_user dd))).
  { intros dd ->.
    destruct (leaf_trace cmd (lvl_idx r) path (lvl_user r) (lvl_log r))
      as (l2 & t2 & Hl2 & Hr2 & Hp2 & Ht2).
    exists (l1 ++ l2)%list, t2. split; [rewrite Hl2, Hlog, <- !app_assoc; reflexivity|].
    split; [apply Forall_app; split; assumption|].
    split.
    - intros Hp. apply Forall_app. split; [apply Hnoprint; exact Hp|].
      apply Forall_app in Hp2. apply Hp2.
    - destruct Ht2 as [->|(run & -> & Hrun & Hres)]; [left; reflexivity|].
      right. exists cmd, (lvl_idx r), run, (lvl_user r). repeat split; assumption. }
  destruct (nth_error argv (lvl_idx r)) as [tok|] eqn:Htok.
  - destruct (is_char (String.get 0 tok) "-").
    { intros [= <-]. apply Hleaf. reflexivity. }
    destruct (cargs_find_sub cmd tok) as [sub|].
    + intros H. apply IH in H.
      destruct H as (l2 & t2 & Hl2 & Hr2 & Hp2 & Ht2).
      apply nth_error_lt in Htok.
      exists (l1 ++ l2)%list, t2.
      split; [rewrite Hl2, Hlog, <- !app_assoc; reflexivity|].
      split; [apply Forall_app; split; assumption|].
      split.
      * intros Hp. apply Forall_app. split; [apply Hnoprint; exact Hp|].
        apply Hp2. apply deeper_path_not_empty.
      * destruct Ht2 as [->|(c & j & run & u0 & -> & Hj & Hjhi & Hrun & Hres)];
          [left; reflexivity|].
        right. exists c, j, run, u0. repeat split; try assumption; lia.
    + intros [= <-]. apply Hleaf. reflexivity.
  - intros [= <-]. apply Hleaf. reflexivity.
Qed.

Lemma dispatch_loop_mono (fuel : nat) :
  forall fuel' (cmd : cargs_cmd U) i path user log d,
    (fuel <= fuel')%nat ->
    dispatch_loop getenv env argv fuel cmd i path user log = Some d ->
    dispatch_loop getenv env argv fuel' cmd i path user log = Some d.
Proof.
  induction fuel as [|fuel IH]; intros fuel' cmd i path user log d Hle;
    [discriminate|].
  destruct fuel' as [|fuel']; [lia|]. cbn [dispatch_loop].
  destruct (cargs_parse_opts_level _ _ _ _ _ _ _ _ _ _) as [r|]; [|discriminate].
  destruct (lvl_rc r =? CARGS_DONE); [exact (fun H => H)|].
  destruct (lvl_rc r <? 0); [exact (fun H => H)|].
  destruct (nth_error argv (lvl_idx r)) as [tok|]; [|exact (fun H => H)].
  destruct (is_char _ _); [exact (fun H => H)|].
  destruct (cargs_find_sub cmd tok) as [sub|]; [|exact (fun H => H)].
  apply IH. lia.
Qed.

(** From the root, a version or author line is the last event, after
    callbacks of the root's options only, and the descent ends with
    success. *)
Lemma dispatch_root_prints (fuel : nat) (root : cargs_cmd U) (i : nat) (user : U)
  (log : list (event U)) (d : dispatch_result) :
  dispatch_loop getenv env argv fuel root i [] user log = Some d ->
  (exists l line,
     d_log d = (log ++ l ++ [EvPrint line])%list /\
     d_rc d = CARGS_OK /\
     forallb is_callback l = true /\
     Forall (level_event env (Some root) true true []) (l ++ [EvPrint line])) \/
  (exists l, d_log d = (log ++ l)%list /\ Forall (fun e => is_print e = false) l).
Proof.
  destruct fuel as [|fuel]; cbn [dispatch_loop]; [discriminate|].
  change (List.length (@nil string) =? 0)%nat with true.
  destruct (cargs_parse_opts_level _ _ _ _ _ _ _ _ _ _) as [r|] eqn:Hlvl;
    [|discriminate].
  destruct (level_trace _ _ _ _ _ _ _ _ _ _ _ Hlvl)
    as (l1 & t1 & Hlog & [Hall Hcb] & Htail).
  pose proof (callbacks_not_print l1 Hcb) as Hnp.
  destruct Htail as [(Hd & e & -> & He)|(Hnd & ->)].
  - rewrite Hd. change (CARGS_DONE =? CARGS_DONE) with true. cbv iota.
    intros [= <-]. cbn [d_log d_rc].
    destruct e as [o v|c p|line|c args].
    + discriminate.
    + right. exists (l1 ++ [EvHelp c p])%list. split; [exact Hlog|].
      apply Forall_app. split; [exact Hnp|]. repeat constructor.
    + left. exists l1, line. repeat split; assumption.
    + right. exists (l1 ++ [EvRun c args])%list. split; [exact Hlog|].
      apply Forall_app. split; [exact Hnp|]. repeat constructor.
  - rewrite app_nil_r in *.
    destruct (lvl_rc r =? CARGS_DONE) eqn:Hdone.
    { apply Z.eqb_eq in Hdone. contradiction. }
    destruct (lvl_rc r <? 0).
    { intros [= <-]. right. exists l1. split; assumption. }
    assert (Hleaf : forall dd,
              dd = dispatch_leaf argv root (lvl_idx r) [] (lvl_user r) (lvl_log r) ->
              exists l, d_log dd = (log ++ l)%list /\
                        Forall (fun e => is_print e = false) l).
    { intros dd ->.
      destruct (leaf_trace root (lvl_idx r) [] (lvl_user r) (lvl_log r))
        as (l2 & t2 & Hl2 & _ & Hp2 & _).
      exists (l1 ++ l2 ++ t2)%list. split; [rewrite Hl2, Hlog, <- !app_assoc; reflexivity|].
      apply Forall_app. split; assumption. }
    destruct (nth_error argv (lvl_idx r)) as [tok|].
    + destruct (is_char _ _).
      { intros [= <-]. right. apply Hleaf. reflexivity. }
      destruct (cargs_find_sub root tok) as [sub|].
      * intros H. apply dispatch_loop_trace in H.
        destruct H as (l2 & t2 & Hl2 & _ & Hp2 & Ht2).
        right. exists (l1 ++ l2 ++ t2)%list.
        split; [rewrite Hl2, Hlog, <- !app_assoc; reflexivity|].
        apply Forall_app. split; [exact Hnp|].
        apply Forall_app. split; [apply Hp2; apply deeper_path_not_empty|].
        destruct Ht2 as [->|(c & j & run & u0 & -> & _)]; repeat constructor.
      * intros [= <-]. right. apply Hleaf. reflexivity.
    + intros [= <-]. right. apply Hleaf. reflexivity.
Qed.

Lemma print_is_last (l pre post : list (event U)) (a b : string) :
  Forall (fun e => is_print e = false) l ->
  (l ++ [EvPrint a])%list = (pre ++ EvPrint b :: post)%list ->
  pre = l /\ a = b /\ post = [].
Proof.
  revert pre. induction l as [|e l IH]; intros pre Hl Heq.
  - destruct pre as [|e' pre]; cbn in Heq.
    + injection Heq as <- <-. repeat split.
    + injection Heq as _ Heq. destruct pre; discriminate.
  - inversion Hl as [|? ? He Hl']; subst.
    destruct pre as [|e' pre]; cbn in Heq.
    + injection Heq as -> _. discriminate.
    + injection Heq as <- Heq. destruct (IH pre Hl' Heq) as (-> & -> & ->).
      repeat split.
Qed.

End DispatchTrace.


(** X10: the descent of the dispatcher ends.  Whatever the tree, the
    vector and the callbacks, a call returns a result; the descent needs
    no more iterations than tokens are left plus one, and a larger budget
    of iterations gives the same result. *)
Theorem dispatch_terminates (U : Type) (getenv : string -> option string)
  (env : option cargs_env) :
  (forall (root : option (cargs_cmd U)) argc argv user,
     exists d, cargs_dispatch getenv env root argc argv user = Some d) /\
  (forall argv fuel (cmd : cargs_cmd U) i path user log,
     (List.length argv - i < fuel)%nat ->
     exists d,
       dispatch_loop getenv env argv fuel cmd i path user log = Some d /\
       forall fuel', (fuel <= fuel')%nat ->
         dispatch_loop getenv env argv fuel' cmd i path user log = Some d).
Proof.
  split.
  - intros root argc argv user. apply cargs_dispatch_total.
  - intros argv fuel cmd i path user log Hfuel.
    destruct (dispatch_loop_total getenv env argv fuel cmd i path user log Hfuel)
      as [d Hd].
    exists d. split; [exact Hd|]. intros fuel' Hle.
    exact (dispatch_loop_mono getenv env argv fuel fuel' cmd i path user log d Hle Hd).
Qed.

Lemma dispatch_terminates_witness :
  exists d,
    dispatch_loop Sample.no_getenv Sample.test_env ["t"; "remote"; "add"; "x"; "y"]
      5 Sample.root 1 [] Sample.t0 [] = Some d /\
    forall fuel', (5 <= fuel')%nat ->
      dispatch_loop Sample.no_getenv Sample.test_env ["t"; "remote"; "add"; "x"; "y"]
        fuel' Sample.root 1 [] Sample.t0 [] = Some d.
Proof.
  apply (proj2 (dispatch_terminates Sample.tstate Sample.no_getenv Sample.test_env)).
  simpl. lia.
Defined.

(** X11: a dispatch call runs at most one handler, and as its last act.
    When the vector holds the announced number of entries, the log is a
    run of events none of which is a handler call, followed by nothing or
    by the one call of a handler; that handler is the [run] field of the
    command it is logged for, it receives a suffix of the vector that
    starts after the program name, and what it returns is what the
    dispatcher returns. *)
Theorem handler_runs_last (U : Type) (getenv : string -> option string)
  (env : option cargs_env) (root : cargs_cmd U) (argc : Z) (av : list string)
  (user : U) (d : dispatch_result) :
  0 < argc <= Z.of_nat (List.length av) ->
  cargs_dispatch getenv env (Some root) argc (Some av) user = Some d ->
  let argv := firstn (Z.to_nat argc) av in
  exists l tail,
    d_log d = (l ++ tail)%list /\
    Forall (fun e => is_run e = false) l /\
    (tail = [] \/
     exists c j run u0,
       tail = [EvRun c (skipn j argv)] /\
       (1 <= j <= List.length argv)%nat /\
       cmd_run c = Some run /\
       run (skipn j argv) u0 = (d_rc d, d_user d)).
Proof.
  intros Hargc. unfold cargs_dispatch.
  destruct (Z.leb_spec argc 0) as [Hle|_]; [lia|].
  intros H. set (argv := firstn (Z.to_nat argc) av) in *.
  apply dispatch_loop_trace in H.
  destruct H as (l & tail & Hlog & Hrun & _ & Htail).
  exists l, tail. split; [exact Hlog|]. split; [exact Hrun|].
  destruct Htail as [->|(c & j & run & u0 & -> & Hlo & Hhi & Hc & Hres)];
    [left; reflexivity|].
  right. exists c, j, run, u0. split; [reflexivity|]. split; [|split; assumption].
  split; [exact Hlo|]. apply Hhi. unfold argv. rewrite length_firstn. lia.
Qed.

Lemma handler_runs_last_witness :
  exists l tail,
    d_log (mk_dispatch 0 (Sample.mk_tstate None None ["remove"])
             [EvRun Sample.remote_remove ["origin"]]) = (l ++ tail)%list /\
    Forall (fun e => is_run e = false) l /\
    (tail = [] \/
     exists c j run u0,
       tail = [EvRun c (skipn j (firstn (Z.to_nat 4) ["t"; "remote"; "rm"; "origin"]))] /\
       (1 <= j <= List.length (firstn (Z.to_nat 4) ["t"; "remote"; "rm"; "origin"]))%nat /\
       cmd_run c = Some run /\
       run (skipn j (firstn (Z.to_nat 4) ["t"; "remote"; "rm"; "origin"])) u0 =
         (d_rc (mk_dispatch 0 (Sample.mk_tstate None None ["remove"])
                  [EvRun Sample.remote_remove ["origin"]]),
          d_user (mk_dispatch 0 (Sample.mk_tstate None None ["remove"])
                    [EvRun Sample.remote_remove ["origin"]]))).
Proof.
  apply (handler_runs_last Sample.tstate Sample.no_getenv Sample.test_env
           Sample.root 4 ["t"; "remote"; "rm"; "origin"] Sample.t0).
  - simpl. lia.
  - reflexivity.
Defined.

(** X12: the version and author lines belong to the root level alone.
    When a dispatch call prints one, it is the text of the environment
    whose automatic flag is set, it is the last event, everything before
    it is a callback of the root's own options, and the call returns
    success; and once the descent has entered a command below the root,
    nothing it adds to the log is such a line. *)
Theorem version_line_only_at_root (U : Type) (getenv : string -> option string)
  (env : option cargs_env) :
  (forall (root : cargs_cmd U) argc av user d pre line post,
     cargs_dispatch getenv env (Some root) argc (Some av) user = Some d ->
     d_log d = (pre ++ EvPrint line :: post)%list ->
     post = [] /\
     d_rc d = CARGS_OK /\
     ((env_flag env env_auto_version = true /\ env_text env env_version = Some line) \/
      (env_flag env env_auto_author = true /\ env_text env env_author = Some line)) /\
     Forall (fun e => exists o v, e = EvCallback o v /\ In o (cmd_opts root)) pre) /\
  (forall argv fuel (cmd : cargs_cmd U) i path user log d,
     path <> [] ->
     dispatch_loop getenv env argv fuel cmd i path user log = Some d ->
     exists l, d_log d = (log ++ l)%list /\ Forall (fun e => is_print e = false) l).
Proof.
  split.
  - intros root argc av user d pre line post. unfold cargs_dispatch.
    destruct (argc <=? 0).
    { intros [= <-] Hlog. destruct pre; discriminate. }
    intros H Hlog. apply dispatch_root_prints in H.
    destruct H as [(l & line' & Hl & Hrc & Hcb & Hall)|(l & Hl & Hnp)].
    + cbn [app] in Hl. rewrite Hl in Hlog.
      apply print_is_last in Hlog; [|apply callbacks_not_print; exact Hcb].
      destruct Hlog as (-> & -> & ->).
      split; [reflexivity|]. split; [exact Hrc|].
      apply Forall_app in Hall. destruct Hall as [Hl' Hp].
      split.
      * inversion Hp as [|? ? He _]; subst. cbn in He.
        destruct He as [(_ & Hf & Ht)|(_ & Hf & Ht)]; [left|right]; split; assumption.
      * apply Forall_forall. intros e He.
        rewrite Forall_forall in Hl'. specialize (Hl' e He).
        rewrite forallb_forall in Hcb. specialize (Hcb e He).
        destruct e as [o v| | |]; try discriminate.
        exists o, v. split; [reflexivity|]. apply Hl'.
    + cbn [app] in Hl. rewrite Hlog in Hl. subst l.
      apply Forall_app in Hnp. destruct Hnp as [_ Hnp].
      inversion Hnp as [|? ? He _]. discriminate.
  - intros argv fuel cmd i path user log d Hp H.
    apply dispatch_loop_trace in H.
    destruct H as (l & tail & Hlog & _ & Hnp & Htail).
    exists (l ++ tail)%list. split; [exact Hlog|].
    apply Forall_app. split; [apply Hnp; exact Hp|].
    destruct Htail as [->|(c & j & run & u0 & -> & _)]; repeat constructor.
Qed.

Lemma version_line_only_at_root_witness :
  exists l,
    d_log (mk_dispatch CARGS_ERR_UNKNOWN Sample.t0 []) = ([] ++ l)%list /\
    Forall (fun e => is_print e = false) l.
Proof.
  refine (proj2 (version_line_only_at_root Sample.tstate Sample.no_getenv
                   Sample.test_env)
            ["t"; "remote"; "--version"] 3%nat Sample.remote 2%nat ["remote"]
            Sample.t0 []
            (mk_dispatch CARGS_ERR_UNKNOWN Sample.t0 []) _ eq_refl).
  discriminate.
Defined.



(** ** A lone dash among the options *)

Section Shift.

Context {U : Type}.
Variable getenv : string -> option string.
Variable env : option cargs_env.
Variables pre post : list string.
Variable x : string.

Abbreviation argv1 := (pre ++ post)%list.
Abbreviation argv2 := (pre ++ x :: post)%list.

Lemma nth_shift (i : nat) :
  (List.length pre <= i)%nat -> nth_error argv2 (S i) = nth_error argv1 i.
Proof.
  intros Hi.
  rewrite !nth_error_app2 by lia.
  replace (S i - List.length pre)%nat with (S (i - List.length pre)) by lia.
  reflexivity.
Qed.

Lemma skipn_shift (i : nat) :
  (List.length pre <= i)%nat -> skipn (S i) argv2 = skipn i argv1.
Proof.
  intros Hi.
  rewrite !skipn_app.
  replace (S i - List.length pre)%nat with (S (i - List.length pre)) by lia.
  assert (H1 : skipn (S i) pre = []) by (apply skipn_all2; lia).
  assert (H2 : skipn i pre = []) by (apply skipn_all2; lia).
  rewrite H1, H2. reflexivity.
Qed.

Lemma length_shift : List.length argv2 = S (List.length argv1).
Proof. rewrite !length_app. cbn. lia. Qed.

Lemma matched_up (o : cargs_opt U) (val : option string) (st : pstate)
  (k1 k2 : pstate -> step_result) :
  (forall st', ps_i st' = ps_i st -> k2 (up st') = up_step (k1 st')) ->
  matched o val (up st) k2 = up_step (matched o val st k1).
Proof.
  intros Hk. unfold matched, invoke. cbn [up set_i ps_user ps_log ps_i ps_counts].
  destruct (opt_cb o) as [f|].
  - destruct (f val (ps_user st)) as [rc u1].
    destruct (rc <? 0); [reflexivity|]. rewrite <- Hk by reflexivity. reflexivity.
  - change (CARGS_OK <? 0) with false. cbv iota.
    rewrite <- Hk by reflexivity. reflexivity.
Qed.

Section OneLevel.

Variable cmd : option (cargs_cmd U).
Variables allow_version allow_author : bool.
Variable path : list string.

Lemma long_named_up (name : string) (val : option string) (st : pstate) :
  (List.length pre <= ps_i st)%nat ->
  long_named env cmd argv2 allow_version allow_author path name val (up st) =
  up_step (long_named env cmd argv1 allow_version allow_author path name val st).
Proof.
  intros Hi. unfold long_named, intercept, bail_out.
  destruct (long_builtin _ _ _ _ _ _); [reflexivity|].
  destruct (cargs_find_long _ _) as [o|]; [|reflexivity].
  assert (Hnext : forall j (st' : pstate (U := U)), ps_i st' = j ->
            Continue (set_i (S (ps_i (up st'))) (up st')) =
            up_step (Continue (set_i (S (ps_i st')) st'))) by reflexivity.
  change (ps_i (up st)) with (S (ps_i st)).
  rewrite (nth_shift (S (ps_i st))) by lia.
  destruct (opt_arg o); destruct val as [v|];
    try (destruct (nth_error argv1 (S (ps_i st))) as [nxt|]);
    try destruct (takes_next nxt);
    try reflexivity;
    try (apply matched_up; exact (Hnext _));
    exact (matched_up o _ (set_i (S (ps_i st)) st) _ _ (Hnext _)).
Qed.

Lemma short_cluster_up (p : string) :
  forall st,
    (List.length pre <= ps_i st)%nat ->
    short_cluster env cmd argv2 allow_version path p (up st) =
    up_step (short_cluster env cmd argv1 allow_version path p st).
Proof.
  induction p as [|c p' IH]; intros st Hi; cbn [short_cluster]; [reflexivity|].
  unfold intercept, bail_out.
  destruct (short_builtin _ _ _ _ _); [reflexivity|].
  destruct (cargs_find_short _ _) as [o|]; [|reflexivity].
  assert (Hcont : forall j (st' : pstate (U := U)), ps_i st' = j ->
            Continue (up st') = up_step (Continue st')) by reflexivity.
  change (ps_i (up st)) with (S (ps_i st)).
  rewrite (nth_shift (ps_i st)) by lia.
  destruct (opt_arg o).
  - apply matched_up. intros st' Hst'. apply IH. lia.
  - destruct p'; [destruct (nth_error argv1 (ps_i st)) as [nxt|]|];
      try reflexivity;
      try (apply matched_up; exact (Hcont _));
      exact (matched_up o _ (set_i (S (ps_i st)) st) _ _ (Hcont _)).
  - destruct p'; [destruct (nth_error argv1 (ps_i st)) as [nxt|];
                  [destruct (takes_next nxt)|]|];
      try (apply matched_up; exact (Hcont _));
      exact (matched_up o _ (set_i (S (ps_i st)) st) _ _ (Hcont _)).
Qed.

Lemma scan_step_up (st : pstate) :
  (List.length pre <= ps_i st)%nat ->
  scan_step env cmd argv2 allow_version allow_author path (up st) =
  up_step (scan_step env cmd argv1 allow_version allow_author path st).
Proof.
  intros Hi. unfold scan_step.
  change (ps_i (up st)) with (S (ps_i st)).
  rewrite (nth_shift (ps_i st)) by lia.
  destruct (nth_error argv1 (ps_i st)) as [arg|]; [|reflexivity].
  destruct (negb _); [reflexivity|].
  destruct (String.eqb arg "--"); [reflexivity|].
  destruct (is_char (String.get 1 arg) "-").
  - unfold long_option. destruct (strchr _ _) as [len|].
    + destruct (96 <=? len)%nat; [reflexivity|apply long_named_up; exact Hi].
    + apply long_named_up. exact Hi.
  - exact (short_cluster_up _ (set_i (S (ps_i st)) st) ltac:(cbn; lia)).
Qed.

Lemma scan_loop_up (fuel : nat) :
  forall st,
    (List.length pre <= ps_i st)%nat ->
    scan_loop env cmd argv2 allow_version allow_author path fuel (up st) =
    option_map up_scan
      (scan_loop env cmd argv1 allow_version allow_author path fuel st).
Proof.
  induction fuel as [|fuel IH]; intros st Hi; cbn [scan_loop]; [reflexivity|].
  rewrite scan_step_up by exact Hi.
  destruct (scan_step env cmd argv1 allow_version allow_author path st)
    as [st1|st1|rc u l] eqn:Hstep; cbn [up_step]; try reflexivity.
  apply IH. apply scan_step_progress in Hstep. lia.
Qed.

Lemma scan_loop_first_Continue (argv : list string) (fuel : nat) (st st' : pstate) :
  scan_step env cmd argv allow_version allow_author path st = Continue st' ->
  scan_loop env cmd argv allow_version allow_author path (S fuel) st =
  scan_loop env cmd argv allow_version allow_author path fuel st'.
Proof. intros H. cbn [scan_loop]. rewrite H. reflexivity. Qed.

Lemma scan_loop_mono (argv : list string) (fuel : nat) :
  forall fuel' st r,
    (fuel <= fuel')%nat ->
    scan_loop env cmd argv allow_version allow_author path fuel st = Some r ->
    scan_loop env cmd argv allow_version allow_author path fuel' st = Some r.
Proof.
  induction fuel as [|fuel IH]; intros fuel' st r Hle; [discriminate|].
  destruct fuel' as [|fuel']; [lia|]. cbn [scan_loop].
  destruct (scan_step _ _ _ _ _ _ st); try exact (fun H => H).
  apply IH. lia.
Qed.

Lemma overlay_up (opts : list (cargs_opt U)) :
  forall st,
    cargs_apply_env_defaults_level getenv opts (up st) =
    up (cargs_apply_env_defaults_level getenv opts st).
Proof.
  induction opts as [|o rest IH]; intros st; cbn [cargs_apply_env_defaults_level];
    [reflexivity|].
  destruct (overlay_value getenv o) as [v|]; [|apply IH].
  destruct (opt_cb o) as [f|]; [|apply IH].
  cbn [up set_i ps_user ps_log ps_i ps_counts].
  destruct (f (Some v) (ps_user st)) as [rc u1].
  exact (IH (mk_pstate (ps_i st) _ _ _)).
Qed.

(** A level started one token further in the longer vector ends like the
    level in the shorter one, one token further. *)
Lemma level_up (idx : nat) (user : U) (log : list (event U)) :
  (List.length pre <= idx)%nat ->
  cargs_parse_opts_level getenv env cmd argv2 allow_version allow_author path
    (S idx) user log =
  option_map (fun r => mk_level (lvl_rc r) (S (lvl_idx r)) (lvl_user r) (lvl_log r))
    (cargs_parse_opts_level getenv env cmd argv1 allow_version allow_author path
       idx user log).
Proof.
  intros Hi. unfold cargs_parse_opts_level, level_scan.
  destruct (group_masks _ _ _) as [xm rm].
  set (st0 := cargs_apply_env_defaults_level getenv (level_opts cmd)
                (mk_pstate idx (fun _ => 0) user log)).
  change (mk_pstate (S idx) (fun _ => 0) user log)
    with (up (mk_pstate idx (fun _ => 0) user log)).
  rewrite overlay_up. fold st0.
  assert (Hst0 : ps_i st0 = idx) by (unfold st0; apply overlay_index).
  destruct (scan_loop_total env cmd argv1 allow_version allow_author path
              (S (List.length argv1)) st0 ltac:(lia)) as [r Hr].
  rewrite Hr.
  assert (Hr2 : scan_loop env cmd argv2 allow_version allow_author path
                  (S (List.length argv2)) (up st0) = Some (up_scan r)).
  { apply (scan_loop_mono argv2 (S (List.length argv1))); [rewrite length_shift; lia|].
    rewrite scan_loop_up by lia. rewrite Hr. reflexivity. }
  rewrite Hr2. destruct r as [st|rc u l]; cbn [up_scan option_map].
  - cbn [up set_i ps_counts ps_user ps_log ps_i lvl_rc lvl_idx lvl_user lvl_log].
    destruct (enforce_groups xm rm (ps_counts st) <? 0); reflexivity.
  - cbn [lvl_rc lvl_idx lvl_user lvl_log]. rewrite length_shift.
    destruct (rc <? 0); reflexivity.
Qed.

End OneLevel.

Lemma leaf_up (cmd : cargs_cmd U) (i : nat) (path : list string) (user : U)
  (log : list (event U)) :
  (List.length pre <= i)%nat ->
  dispatch_leaf argv2 cmd (S i) path user log = dispatch_leaf argv1 cmd i path user log.
Proof.
  intros Hi. unfold dispatch_leaf. rewrite length_shift, skipn_shift by exact Hi.
  replace (Z.of_nat (S (List.length argv1)) - Z.of_nat (S i))
    with (Z.of_nat (List.length argv1) - Z.of_nat i) by lia.
  reflexivity.
Qed.

(** The descent from one token further in the longer vector is the
    descent in the shorter one. *)
Lemma dispatch_loop_up (fuel : nat) :
  forall (cmd : cargs_cmd U) i path user log,
    (List.length pre <= i)%nat ->
    dispatch_loop getenv env argv2 fuel cmd (S i) path user log =
    dispatch_loop getenv env argv1 fuel cmd i path user log.
Proof.
  induction fuel as [|fuel IH]; intros cmd i path user log Hi; cbn [dispatch_loop];
    [reflexivity|].
  rewrite level_up by exact Hi.
  destruct (cargs_parse_opts_level getenv env (Some cmd) argv1 _ _ path i user log)
    as [r|] eqn:Hlvl; cbn [option_map lvl_rc lvl_idx lvl_user lvl_log]; [|reflexivity].
  destruct (lvl_rc r =? CARGS_DONE) eqn:Hdone; [reflexivity|].
  destruct (lvl_rc r <? 0) eqn:Hneg; [reflexivity|].
  assert (Hlo : (List.length pre <= lvl_idx r)%nat).
  { destruct (level_index _ _ _ _ _ _ _ _ _ _ _ Hlvl) as [H|[H|[_ H]]].
    - apply Z.ltb_ge in Hneg. lia.
    - rewrite H in Hdone. discriminate.
    - lia. }
  rewrite nth_shift by exact Hlo.
  destruct (nth_error argv1 (lvl_idx r)) as [tok|]; [|f_equal; apply leaf_up; exact Hlo].
  destruct (is_char _ _); [f_equal; apply leaf_up; exact Hlo|].
  destruct (cargs_find_sub cmd tok) as [sub|]; [|f_equal; apply leaf_up; exact Hlo].
  apply IH. lia.
Qed.

End Shift.

Section LoneDash.

Context {U : Type}.
Variable getenv : string -> option string.
Variable env : option cargs_env.
Variables pre post : list string.

Abbreviation without := (pre ++ post)%list.
Abbreviation with_dash := (pre ++ "-" :: post)%list.

(** A level that starts at a lone dash ends like the level without it; the
    index is one further unless the level fails. *)
Lemma level_dash (cmd : option (cargs_cmd U)) (av aa : bool) (path : list string)
  (user : U) (log : list (event U)) :
  cargs_parse_opts_level getenv env cmd with_dash av aa path
    (List.length pre) user log =
  option_map
    (fun r => mk_level (lvl_rc r)
                (if lvl_rc r <? 0 then lvl_idx r else S (lvl_idx r))
                (lvl_user r) (lvl_log r))
    (cargs_parse_opts_level getenv env cmd without av aa path
       (List.length pre) user log).
Proof.
  unfold cargs_parse_opts_level, level_scan.
  destruct (group_masks _ _ _) as [xm rm].
  set (st0 := cargs_apply_env_defaults_level getenv (level_opts cmd)
                (mk_pstate (List.length pre) (fun _ => 0) user log)).
  assert (Hst0 : ps_i st0 = List.length pre) by (unfold st0; apply overlay_index).
  assert (Hlen : List.length with_dash = S (List.length without))
    by (rewrite !length_app; cbn; lia).
  assert (Hstep : scan_step env cmd with_dash av aa path st0 = Continue (up st0)).
  { unfold scan_step. rewrite Hst0, nth_error_app2, Nat.sub_diag by lia.
    cbn. unfold up. rewrite Hst0. reflexivity. }
  rewrite Hlen.
  erewrite scan_loop_first_Continue by exact Hstep.
  rewrite (scan_loop_up env pre post "-") by lia.
  destruct (scan_loop env cmd without av aa path (S (List.length without)) st0)
    as [[st|rc u l]|]; cbn [option_map up_scan]; [| |reflexivity].
  - cbn [up set_i ps_counts ps_user ps_log ps_i lvl_rc lvl_idx lvl_user lvl_log].
    destruct (enforce_groups xm rm (ps_counts st) <? 0); reflexivity.
  - cbn [lvl_rc lvl_idx lvl_user lvl_log].
    destruct (rc <? 0); reflexivity.
Qed.

Lemma dispatch_loop_dash (fuel : nat) (cmd : cargs_cmd U) (path : list string)
  (user : U) (log : list (event U)) :
  dispatch_loop getenv env with_dash fuel cmd (List.length pre) path user log =
  dispatch_loop getenv env without fuel cmd (List.length pre) path user log.
Proof.
  destruct fuel as [|fuel]; cbn [dispatch_loop]; [reflexivity|].
  rewrite level_dash.
  destruct (cargs_parse_opts_level getenv env (Some cmd) without _ _ path
              (List.length pre) user log)
    as [r|] eqn:Hlvl; cbn [option_map lvl_rc lvl_idx lvl_user lvl_log]; [|reflexivity].
  destruct (lvl_rc r =? CARGS_DONE) eqn:Hdone; [reflexivity|].
  destruct (lvl_rc r <? 0) eqn:Hneg; [reflexivity|].
  assert (Hlo : (List.length pre <= lvl_idx r)%nat).
  { destruct (level_index _ _ _ _ _ _ _ _ _ _ _ Hlvl) as [H|[H|[_ H]]].
    - apply Z.ltb_ge in Hneg. lia.
    - rewrite H in Hdone. discriminate.
    - lia. }
  rewrite (nth_shift pre post "-") by exact Hlo.
  destruct (nth_error without (lvl_idx r)) as [tok|];
    [|f_equal; apply leaf_up; exact Hlo].
  destruct (is_char _ _); [f_equal; apply leaf_up; exact Hlo|].
  destruct (cargs_find_sub cmd tok) as [sub|]; [|f_equal; apply leaf_up; exact Hlo].
  apply dispatch_loop_up. lia.
Qed.

End LoneDash.

(** X14: a token that is a lone dash, met where a level expects an option
    (right after the program name or after a subcommand name), is
    consumed without any effect: the descent from there behaves as if the
    token were not in the vector, so a handler never sees it among its
    arguments. *)
Theorem lone_dash_is_dropped (U : Type) (getenv : string -> option string)
  (env : option cargs_env) :
  (forall pre post fuel (cmd : cargs_cmd U) path user log,
     dispatch_loop getenv env (pre ++ "-" :: post) fuel cmd (List.length pre)
       path user log =
     dispatch_loop getenv env (pre ++ post) fuel cmd (List.length pre)
       path user log) /\
  (forall (root : cargs_cmd U) prog rest user,
     cargs_dispatch getenv env (Some root)
       (Z.of_nat (List.length (prog :: "-" :: rest)))
       (Some (prog :: "-" :: rest)) user =
     cargs_dispatch getenv env (Some root)
       (Z.of_nat (List.length (prog :: rest))) (Some (prog :: rest)) user).
Proof.
  split.
  - intros pre post fuel cmd path user log. apply dispatch_loop_dash.
  - intros root prog rest user. unfold cargs_dispatch.
    rewrite !Nat2Z.id, !firstn_all.
    destruct (Z.leb_spec (Z.of_nat (List.length (prog :: "-" :: rest))) 0)
      as [H|_]; [cbn in H; lia|].
    destruct (Z.leb_spec (Z.of_nat (List.length (prog :: rest))) 0)
      as [H|_]; [cbn in H; lia|].
    destruct (dispatch_loop_total getenv env (prog :: rest)
                (S (List.length (prog :: rest))) root 1 [] user []
                ltac:(cbn; lia)) as [d Hd].
    rewrite Hd.
    rewrite (dispatch_loop_dash getenv env [prog] rest).
    apply (dispatch_loop_mono getenv env (prog :: rest)
             (S (List.length (prog :: rest)))); [cbn; lia|exact Hd].
Qed.


(** ** Texts in bounded buffers *)

Lemma str_app_nil_r (s : string) : (s ++ "")%string = s.
Proof. induction s as [|c s IH]; cbn; [reflexivity|rewrite IH; reflexivity]. Qed.

Lemma str_app_assoc (a b c : string) : ((a ++ b) ++ c)%string = (a ++ b ++ c)%string.
Proof. induction a as [|x a IH]; cbn; [reflexivity|rewrite IH; reflexivity]. Qed.

Lemma str_length_app (a b : string) :
  String.length (a ++ b) = (String.length a + String.length b)%nat.
Proof. induction a as [|x a IH]; cbn; [reflexivity|rewrite IH; reflexivity]. Qed.

Lemma prefix_length (n : nat) :
  forall s, String.length (prefix n s) = Nat.min n (String.length s).
Proof.
  induction n as [|n IH]; intros [|c s]; cbn; try reflexivity.
  rewrite IH. reflexivity.
Qed.

Lemma prefix_all (n : nat) :
  forall s, (String.length s <= n)%nat -> prefix n s = s.
Proof.
  induction n as [|n IH]; intros [|c s] H; cbn in *; try reflexivity; [lia|].
  rewrite IH by lia. reflexivity.
Qed.

Lemma prefix_app_le (a b : string) :
  forall m, (String.length a <= m)%nat ->
    prefix m (a ++ b) = (a ++ prefix (m - String.length a) b)%string.
Proof.
  induction a as [|x a IH]; intros m H; cbn in *.
  - rewrite Nat.sub_0_r. reflexivity.
  - destruct m as [|m]; [lia|]. cbn. rewrite IH by lia. reflexivity.
Qed.

Lemma prefix_app_ge (a b : string) :
  forall m, (m <= String.length a)%nat -> prefix m (a ++ b) = prefix m a.
Proof.
  induction a as [|x a IH]; intros m H; cbn in *.
  - assert (m = O) by lia. subst m. destruct b; reflexivity.
  - destruct m as [|m]; [reflexivity|]. cbn. rewrite IH by lia. reflexivity.
Qed.

Lemma prefix_prefix (m : nat) :
  forall n s, (m <= n)%nat -> prefix m (prefix n s) = prefix m s.
Proof.
  induction m as [|m IH]; intros n s H.
  - destruct (prefix n s); destruct s; reflexivity.
  - destruct n as [|n]; [lia|]. destruct s as [|c s]; [reflexivity|].
    cbn. rewrite IH by lia. reflexivity.
Qed.

Lemma concat_repeat_S (text : string) (k : nat) :
  String.concat "" (repeat text (S k)) = (text ++ String.concat "" (repeat text k))%string.
Proof.
  cbn [repeat String.concat]. destruct (repeat text k) eqn:Hr.
  - cbn. rewrite str_app_nil_r. reflexivity.
  - reflexivity.
Qed.

Lemma concat_cons (x : string) (xs : list string) :
  String.concat "" (x :: xs) = (x ++ String.concat "" xs)%string.
Proof.
  destruct xs; cbn; [rewrite str_app_nil_r|]; reflexivity.
Qed.

Section Render.

Variable bufsz : nat.
Hypothesis bufsz_pos : (0 < bufsz)%nat.

Abbreviation holds := (render_holds bufsz).

Lemma render_append_holds (T text : string) (st : string * nat) :
  holds T st -> holds (T ++ text) (render_append bufsz text st).
Proof.
  destruct st as [buf n]. intros [Hb Hn]. cbn [fst snd] in *.
  unfold render_append, render_holds, snprintf_at.
  rewrite str_length_app.
  assert (Hbuf : fst (if (0 <? String.length text)%nat
                      then (match (if (n <? bufsz)%nat then (bufsz - n)%nat else O) with
                            | O => buf
                            | S room => (prefix n buf ++ prefix room text)%string
                            end,
                            if (n + String.length text <? bufsz)%nat
                            then (n + String.length text)%nat else bufsz)
                      else (match (if (n <? bufsz)%nat then (bufsz - n)%nat else O) with
                            | O => buf
                            | S room => (prefix n buf ++ prefix room text)%string
                            end, n)) =
                 prefix (bufsz - 1) (T ++ text)).
  { assert (Hgoal : match (if (n <? bufsz)%nat then (bufsz - n)%nat else O) with
                    | O => buf
                    | S room => (prefix n buf ++ prefix room text)%string
                    end = prefix (bufsz - 1) (T ++ text)).
    { destruct (Nat.ltb_spec n bufsz) as [Hlt|Hge].
      - assert (HnT : n = String.length T) by lia.
        destruct (bufsz - n)%nat as [|room] eqn:Hroom; [lia|].
        rewrite Hb. rewrite (prefix_all (bufsz - 1) T) by lia.
        rewrite (prefix_all n T) by lia.
        rewrite prefix_app_le by lia. f_equal. f_equal. lia.
      - rewrite Hb. symmetry. apply prefix_app_ge. lia. }
    destruct (0 <? String.length text)%nat; exact Hgoal. }
  split; [exact Hbuf|].
  destruct (Nat.ltb_spec 0 (String.length text)) as [Hw|Hw]; cbn [snd].
  - destruct (Nat.ltb_spec (n + String.length text) bufsz); lia.
  - lia.
Qed.

Lemma render_repeat_holds (text : string) (k : nat) :
  forall T st,
    holds T st ->
    holds (T ++ String.concat "" (repeat text k)) (render_repeat bufsz k text st).
Proof.
  induction k as [|k IH]; intros T st H.
  - cbn. rewrite str_app_nil_r. exact H.
  - rewrite concat_repeat_S, <- str_app_assoc. cbn [render_repeat].
    apply IH. apply render_append_holds. exact H.
Qed.

Lemma render_segment_holds (p : cargs_pos) (T : string) (st : string * nat) :
  holds T st -> holds (T ++ segment_words p) (render_segment bufsz p st).
Proof.
  intros H. unfold render_segment, segment_words.
  assert (Hmin : Z.to_nat (if 0 <? pos_min p then pos_min p else 0) =
                 Z.to_nat (pos_min p)).
  { destruct (Z.ltb_spec 0 (pos_min p)); lia. }
  rewrite Hmin.
  destruct (pos_max p =? CARGS_POS_INF).
  - rewrite <- str_app_assoc. apply render_append_holds.
    apply render_repeat_holds. exact H.
  - destruct (pos_max p <=? 1).
    + destruct (pos_min p =? 0); apply render_append_holds; exact H.
    + rewrite <- str_app_assoc. apply render_repeat_holds.
      apply render_repeat_holds. exact H.
Qed.

Lemma render_segments_holds (pos : list cargs_pos) :
  forall T st,
    holds T st ->
    exists T',
      holds T' (render_segments bufsz pos st) /\
      prefix (bufsz - 1) T' = prefix (bufsz - 1) (T ++ usage_words pos).
Proof.
  induction pos as [|p rest IH]; intros T st H.
  - exists T. split; [exact H|]. unfold usage_words. cbn. rewrite str_app_nil_r.
    reflexivity.
  - cbn [render_segments].
    pose proof (render_segment_holds p T st H) as H1.
    unfold usage_words. cbn [map]. rewrite concat_cons. fold (usage_words rest).
    rewrite <- str_app_assoc.
    destruct (Nat.leb_spec bufsz (snd (render_segment bufsz p st))) as [Hfull|Hroom].
    + exists (T ++ segment_words p)%string. split; [exact H1|].
      symmetry. apply prefix_app_ge. destruct H1 as [_ H1]. lia.
    + apply IH. exact H1.
Qed.

End Render.

Lemma render_usage_prefix (U : Type) (old : string) (bufsz : nat)
  (cmd : option (cargs_cmd U)) :
  (0 < bufsz)%nat ->
  cargs_render_pos_usage old bufsz cmd =
    prefix (bufsz - 1) (usage_words (schema_of cmd)).
Proof.
  intros Hpos. unfold cargs_render_pos_usage, schema_of.
  destruct bufsz as [|b]; [lia|].
  destruct cmd as [c|]; [|destruct (S b - 1)%nat; reflexivity].
  destruct (cmd_pos c) as [|p rest] eqn:Hp; [destruct (S b - 1)%nat; reflexivity|].
  destruct (render_segments_holds (S b) Hpos (p :: rest) EmptyString (EmptyString, O))
    as (T' & [Hb _] & HT').
  { split; [destruct (S b - 1)%nat; reflexivity|reflexivity]. }
  rewrite Hb, prefix_prefix by lia. exact HT'.
Qed.

(** X15: the positional usage rendered into a buffer is the prefix of the
    full usage words that fits: the words of the segments in order, cut
    after the size minus one characters, so that the buffer is never
    overrun whatever the schema; a buffer of size zero is left alone. *)
Theorem render_pos_usage_truncates (U : Type) (old : string) (bufsz : nat)
  (cmd : option (cargs_cmd U)) :
  (bufsz = O -> cargs_render_pos_usage old bufsz cmd = old) /\
  ((0 < bufsz)%nat ->
   cargs_render_pos_usage old bufsz cmd =
     prefix (bufsz - 1) (usage_words (schema_of cmd)) /\
   (String.length (cargs_render_pos_usage old bufsz cmd) < bufsz)%nat).
Proof.
  split; [intros ->; reflexivity|].
  intros Hpos. rewrite (render_usage_prefix U old bufsz cmd Hpos).
  split; [reflexivity|]. rewrite prefix_length. lia.
Qed.

Lemma render_pos_usage_truncates_witness :
  cargs_render_pos_usage "junk" 8 (Some Sample.remote_add) =
    prefix (8 - 1) (usage_words (schema_of (Some Sample.remote_add))) /\
  (String.length (cargs_render_pos_usage "junk" 8 (Some Sample.remote_add)) < 8)%nat.
Proof.
  apply (proj2 (render_pos_usage_truncates Sample.tstate "junk" 8
                  (Some Sample.remote_add))).
  lia.
Defined.

Section Build.

Variable cap : nat.
Hypothesis cap_pos : (0 < cap)%nat.
Variable dst0 : string.

Abbreviation bholds := (build_holds cap dst0).

Lemma build_append_holds (T text : string) (st : string * nat) :
  text <> EmptyString ->
  bholds T st -> bholds (T ++ text) (build_append cap text st).
Proof.
  destruct st as [dst off]. intros Htext [Hoff Hdst]. cbn [fst snd] in *.
  assert (Hw : (0 < String.length text)%nat) by (destruct text; [congruence|cbn; lia]).
  unfold build_append, build_holds, snprintf_at.
  destruct (Nat.ltb_spec 0 (String.length text)) as [_|]; [|lia].
  cbn [fst snd]. rewrite str_length_app.
  destruct (Nat.ltb_spec off cap) as [Hlt|]; [|lia].
  destruct (cap - off)%nat as [|room] eqn:Hroom; [lia|].
  split.
  - destruct (Nat.ltb_spec (String.length text) (S room)); [lia|].
    destruct (Nat.ltb_spec 0 (S room)); lia.
  - left. destruct Hdst as [Hd|[-> Hd]].
    + rewrite Hd. destruct (Nat.le_gt_cases (String.length T) (cap - 1)) as [Hfit|Hcut].
      * rewrite (prefix_all (cap - 1) T) by exact Hfit.
        rewrite (prefix_all off T) by lia.
        rewrite prefix_app_le by exact Hfit. f_equal. f_equal. lia.
      * assert (Hr : room = O) by lia. rewrite Hr.
        assert (Ho : off = (cap - 1)%nat) by lia. rewrite Ho.
        rewrite prefix_prefix by lia.
        rewrite (prefix_app_ge T text) by lia.
        replace (prefix 0 text) with EmptyString by (destruct text; reflexivity).
        apply str_app_nil_r.
    + cbn in Hoff. subst off. cbn. destruct dst; cbn; f_equal; lia.
Qed.

Lemma build_repeat_holds (text : string) (k : nat) :
  text <> EmptyString ->
  forall T st,
    bholds T st ->
    bholds (T ++ String.concat "" (repeat text k)) (build_repeat cap k text st).
Proof.
  intros Htext. induction k as [|k IH]; intros T st H.
  - cbn. rewrite str_app_nil_r. exact H.
  - rewrite concat_repeat_S, <- str_app_assoc. cbn [build_repeat].
    apply IH. apply build_append_holds; assumption.
Qed.

Lemma build_segment_holds (p : cargs_pos) (T : string) (st : string * nat) :
  bholds T st -> bholds (T ++ segment_words p) (build_segment cap p st).
Proof.
  intros H. unfold build_segment, segment_words.
  assert (Hplain : (" " ++ pos_label p)%string <> EmptyString) by discriminate.
  assert (Hopt : (" [" ++ pos_label p ++ "]")%string <> EmptyString) by discriminate.
  assert (Htail : (" [" ++ pos_label p ++ " ...]")%string <> EmptyString) by discriminate.
  destruct (pos_max p =? CARGS_POS_INF).
  - destruct (Z.leb_spec (pos_min p) 0) as [Hmin|Hmin].
    + replace (Z.to_nat (pos_min p)) with O by lia.
      apply build_append_holds; assumption.
    + destruct (Z.eqb_spec (pos_min p) 1) as [Hone|Hmore].
      * rewrite Hone. change (Z.to_nat 1) with 1%nat.
        cbn [repeat String.concat]. apply build_append_holds; [discriminate|exact H].
      * rewrite <- str_app_assoc. apply build_append_holds; [assumption|].
        apply build_repeat_holds; assumption.
  - destruct (pos_max p <=? 1).
    + destruct (pos_min p =? 0); apply build_append_holds; assumption.
    + rewrite <- str_app_assoc.
      destruct (Z.ltb_spec 0 (pos_min p)) as [Hmin|Hmin].
      * rewrite Z2Nat.id by lia.
        apply build_repeat_holds; [assumption|].
        apply build_repeat_holds; assumption.
      * replace (Z.to_nat (pos_min p)) with O by lia.
        change (Z.of_nat 0) with 0.
        apply build_repeat_holds; [assumption|].
        cbn. rewrite str_app_nil_r. exact H.
Qed.

Lemma build_segments_holds (pos : list cargs_pos) :
  forall T st,
    bholds T st ->
    bholds (T ++ usage_words pos)
      (fold_left (fun st p => build_segment cap p st) pos st).
Proof.
  induction pos as [|p rest IH]; intros T st H.
  - unfold usage_words. cbn. rewrite str_app_nil_r. exact H.
  - cbn [fold_left]. unfold usage_words. cbn [map]. rewrite concat_cons.
    fold (usage_words rest). rewrite <- str_app_assoc.
    apply IH. apply build_segment_holds. exact H.
Qed.

End Build.

Lemma str_app_not_empty_r (a b : string) :
  b <> EmptyString -> (a ++ b)%string <> EmptyString.
Proof. destruct a; cbn; [exact (fun H => H)|discriminate]. Qed.

Lemma str_app_not_empty_l (a b : string) :
  a <> EmptyString -> (a ++ b)%string <> EmptyString.
Proof. destruct a; cbn; [congruence|discriminate]. Qed.

Lemma concat_repeat_not_empty (text : string) (k : nat) :
  text <> EmptyString -> (0 < k)%nat ->
  String.concat "" (repeat text k) <> EmptyString.
Proof.
  intros Ht Hk. destruct k as [|k]; [lia|].
  rewrite concat_repeat_S. apply str_app_not_empty_l. exact Ht.
Qed.

Lemma segment_words_not_empty (p : cargs_pos) : segment_words p <> EmptyString.
Proof.
  unfold segment_words.
  destruct (pos_max p =? CARGS_POS_INF).
  - apply str_app_not_empty_r. discriminate.
  - destruct (Z.leb_spec (pos_max p) 1) as [_|Hmax].
    + destruct (pos_min p =? 0); discriminate.
    + destruct (Z.to_nat (pos_min p)) as [|k] eqn:Hk.
      * apply str_app_not_empty_r. apply concat_repeat_not_empty; [discriminate|].
        cbn. lia.
      * apply str_app_not_empty_l. apply concat_repeat_not_empty; [discriminate|lia].
Qed.

(** X16: the second usage builder agrees with the first.  For a
    destination of at least one character and a schema that is not empty,
    the destination ends up holding the same truncated usage words as
    the rendered buffer, and the offset is the length of what it holds;
    with an empty schema the destination is not written at all. *)
Theorem build_usage_pos_agrees (U : Type) (dst : string) (cap : nat)
  (c : cargs_cmd U) :
  (0 < cap)%nat ->
  (cmd_pos c = [] -> cargs_build_usage_pos dst cap (cmd_pos c) = (dst, O)) /\
  (cmd_pos c <> [] ->
   fst (cargs_build_usage_pos dst cap (cmd_pos c)) =
     cargs_render_pos_usage dst cap (Some c) /\
   fst (cargs_build_usage_pos dst cap (cmd_pos c)) =
     prefix (cap - 1) (usage_words (cmd_pos c)) /\
   snd (cargs_build_usage_pos dst cap (cmd_pos c)) =
     String.length (fst (cargs_build_usage_pos dst cap (cmd_pos c)))).
Proof.
  intros Hcap. split; [intros ->; reflexivity|].
  intros Hpos.
  destruct (build_segments_holds cap Hcap dst (cmd_pos c) EmptyString (dst, O))
    as [Hoff Hdst].
  { split; [reflexivity|]. right. split; reflexivity. }
  cbn [append] in Hoff, Hdst. fold (cargs_build_usage_pos dst cap (cmd_pos c)) in *.
  assert (Hfst : fst (cargs_build_usage_pos dst cap (cmd_pos c)) =
                 prefix (cap - 1) (usage_words (cmd_pos c))).
  { destruct Hdst as [H|[Hempty _]]; [exact H|].
    exfalso. destruct (cmd_pos c) as [|p rest]; [congruence|].
    unfold usage_words in Hempty. cbn [map] in Hempty. rewrite concat_cons in Hempty.
    exact (str_app_not_empty_l _ _ (segment_words_not_empty p) Hempty). }
  split.
  - rewrite Hfst.
    symmetry. exact (render_usage_prefix U dst cap (Some c) Hcap).
  - split; [exact Hfst|]. rewrite Hoff, Hfst, prefix_length. lia.
Qed.

Lemma build_usage_pos_agrees_witness :
  fst (cargs_build_usage_pos "junk" 8 (cmd_pos Sample.remote_add)) =
    cargs_render_pos_usage "junk" 8 (Some Sample.remote_add) /\
  fst (cargs_build_usage_pos "junk" 8 (cmd_pos Sample.remote_add)) =
    prefix (8 - 1) (usage_words (cmd_pos Sample.remote_add)) /\
  snd (cargs_build_usage_pos "junk" 8 (cmd_pos Sample.remote_add)) =
    String.length (fst (cargs_build_usage_pos "junk" 8 (cmd_pos Sample.remote_add))).
Proof.
  apply (proj2 (build_usage_pos_agrees Sample.tstate "junk" 8 Sample.remote_add
                  ltac:(lia))).
  discriminate.
Defined.


(** ** Joined aliases *)

Lemma concat_snoc (sep a : string) (l : list string) :
  String.concat sep (l ++ [a]) =
  match l with
  | [] => a
  | _ :: _ => (String.concat sep l ++ sep ++ a)%string
  end.
Proof.
  induction l as [|x l IH]; [reflexivity|].
  cbn [app String.concat]. destruct l as [|y l].
  - reflexivity.
  - cbn [app] in *. rewrite IH. rewrite !str_app_assoc. reflexivity.
Qed.

Lemma concat_not_empty (sep : string) (l : list string) :
  Forall (fun a => a <> EmptyString) l -> l <> [] ->
  String.concat sep l <> EmptyString.
Proof.
  intros Hall Hne. destruct l as [|x l]; [congruence|].
  inversion Hall as [|? ? Hx _]; subst. cbn [String.concat].
  destruct l; [exact Hx|]. apply str_app_not_empty_l. exact Hx.
Qed.

Lemma length_pos_not_empty (s : string) :
  (0 < String.length s)%nat <-> s <> EmptyString.
Proof. destruct s; cbn; split; intros H; try lia; congruence. Qed.

Section Join.

Variable bufsz : nat.

Abbreviation joined := (String.concat ", ").

Lemma join_aliases_from_spec (aliases : list (option string)) :
  forall taken,
    (forall a, In (Some a) aliases -> a <> EmptyString) ->
    Forall (fun a => a <> EmptyString) taken ->
    (String.length (joined taken) < bufsz)%nat ->
    exists more rest,
      present_aliases aliases = (more ++ rest)%list /\
      join_aliases_from bufsz aliases
        (joined taken, String.length (joined taken)) =
      (joined (taken ++ more), String.length (joined (taken ++ more))) /\
      (String.length (joined (taken ++ more)) < bufsz)%nat /\
      (rest = [] \/
       exists a rest',
         rest = a :: rest' /\
         (bufsz <= String.length (joined (taken ++ more))
                   + (match (taken ++ more)%list with [] => 0 | _ :: _ => 2 end)
                   + String.length a + 1)%nat).
Proof.
  induction aliases as [|[a|] aliases IH]; intros taken Hne Htaken Hlen.
  - exists [], []. rewrite !app_nil_r.
    split; [reflexivity|]. split; [reflexivity|]. split; [exact Hlen|].
    left. reflexivity.
  - cbn [join_aliases_from present_aliases].
    set (n := String.length (joined taken)) in *.
    assert (Hsep : (if (0 <? n)%nat then 2%nat else 0%nat) =
                   match taken with [] => 0%nat | _ :: _ => 2%nat end).
    { destruct taken as [|x t]; [reflexivity|].
      assert (Hpos : (0 < n)%nat).
      { apply length_pos_not_empty. apply concat_not_empty; [exact Htaken|discriminate]. }
      destruct (Nat.ltb_spec 0 n); [reflexivity|lia]. }
    rewrite Hsep.
    destruct (Nat.leb_spec bufsz
                (n + (match taken with [] => 0 | _ :: _ => 2 end + String.length a) + 1))
      as [Hfull|Hroom].
    + exists [], (a :: present_aliases aliases). rewrite !app_nil_r.
      split; [reflexivity|]. split; [reflexivity|]. split; [exact Hlen|].
      right. exists a, (present_aliases aliases). split; [reflexivity|].
      fold n. lia.
    + assert (Ha : a <> EmptyString) by (apply Hne; left; reflexivity).
      assert (Hnext : exists st',
                (let '(buf1, n1) :=
                   if (0 <? n)%nat
                   then ((prefix n (joined taken) ++ ", ")%string, (n + 2)%nat)
                   else (joined taken, n) in
                 join_aliases_from bufsz aliases
                   (snprintf_at buf1 n1 (bufsz - n1) a, (n1 + String.length a)%nat)) =
                join_aliases_from bufsz aliases st' /\
                st' = (joined (taken ++ [a]), String.length (joined (taken ++ [a]))) /\
                (snd st' < bufsz)%nat).
      { rewrite concat_snoc. destruct taken as [|x t].
        - cbn in n. subst n. cbn [Nat.ltb Nat.leb]. unfold snprintf_at.
          destruct (bufsz - 0)%nat as [|room] eqn:Hr; [cbn in Hroom; lia|].
          cbn [prefix append]. rewrite prefix_all by (cbn in Hroom; lia).
          eexists. split; [reflexivity|]. split; [reflexivity|].
          cbn in *. lia.
        - assert (Hpos : (0 < n)%nat).
          { apply length_pos_not_empty. apply concat_not_empty;
              [exact Htaken|discriminate]. }
          destruct (Nat.ltb_spec 0 n) as [_|]; [|lia].
          unfold snprintf_at.
          destruct (bufsz - (n + 2))%nat as [|room] eqn:Hr; [lia|].
          rewrite (prefix_all n (joined (x :: t))) by (unfold n; lia).
          rewrite (prefix_all (n + 2)) by (rewrite str_length_app; cbn; fold n; lia).
          rewrite (prefix_all room a) by lia.
          rewrite str_app_assoc.
          eexists. split; [reflexivity|]. split.
          + f_equal. rewrite !str_length_app. cbn. fold n. lia.
          + cbn [snd]. lia. }
      destruct Hnext as (st' & -> & -> & Hlt').
      cbn [snd] in Hlt'.
      destruct (IH (taken ++ [a])%list) as (more & rest & Hpres & Hjoin & Hlt & Hrest).
      * intros b Hb. apply Hne. right. exact Hb.
      * apply Forall_app. split; [exact Htaken|]. constructor; [exact Ha|constructor].
      * exact Hlt'.
      * exists (a :: more), rest. rewrite <- app_assoc in *. cbn [app] in *.
        split; [rewrite Hpres; reflexivity|].
        split; [exact Hjoin|]. split; [exact Hlt|exact Hrest].
  - cbn [join_aliases_from present_aliases]. apply IH; try assumption.
    intros b Hb. apply Hne. right. exact Hb.
Qed.

End Join.

(** X17: the joined aliases are whole aliases.  For a command none of
    whose aliases is the empty string and a buffer of at least one
    character, the buffer ends up holding the aliases that are not NULL,
    in order and separated by a comma and a space, up to the first one
    that would not leave two characters to spare; no alias is cut, the
    returned count is the length of what the buffer holds, and it is less
    than the size.  Without a command or a buffer size the count is zero
    and the buffer is untouched. *)
Theorem aliases_joined_whole (U : Type) (c : cargs_cmd U) (old : string)
  (bufsz : nat) :
  (0 < bufsz)%nat ->
  ~ In (Some EmptyString) (cmd_aliases c) ->
  cargs_join_aliases (@None (cargs_cmd U)) old bufsz = (old, O) /\
  cargs_join_aliases (Some c) old O = (old, O) /\
  exists taken rest,
    present_aliases (cmd_aliases c) = (taken ++ rest)%list /\
    cargs_join_aliases (Some c) old bufsz =
      (String.concat ", " taken, String.length (String.concat ", " taken)) /\
    (String.length (String.concat ", " taken) < bufsz)%nat /\
    (rest = [] \/
     exists a rest',
       rest = a :: rest' /\
       (bufsz <= String.length (String.concat ", " taken)
                 + (match taken with [] => 0 | _ :: _ => 2 end)
                 + String.length a + 1)%nat).
Proof.
  intros Hsz Hne. split; [reflexivity|]. split; [reflexivity|].
  unfold cargs_join_aliases. destruct bufsz as [|b]; [lia|].
  destruct (join_aliases_from_spec (S b) (cmd_aliases c) [])
    as (more & rest & Hpres & Hjoin & Hlt & Hrest).
  - intros a Ha ->. exact (Hne Ha).
  - constructor.
  - cbn. lia.
  - exists more, rest. cbn [app] in *. repeat split; assumption.
Qed.

Lemma aliases_joined_whole_witness :
  exists taken rest,
    present_aliases (cmd_aliases Sample.remote_remove) = (taken ++ rest)%list /\
    cargs_join_aliases (Some Sample.remote_remove) "junk" 4 =
      (String.concat ", " taken, String.length (String.concat ", " taken)) /\
    (String.length (String.concat ", " taken) < 4)%nat /\
    (rest = [] \/
     exists a rest',
       rest = a :: rest' /\
       (4 <= String.length (String.concat ", " taken)
             + (match taken with [] => 0 | _ :: _ => 2 end)
             + String.length a + 1)%nat).
Proof.
  refine (proj2 (proj2 (aliases_joined_whole Sample.tstate Sample.remote_remove
                          "junk" 4 ltac:(lia) _))).
  cbn. intros [H|[]]. discriminate.
Defined.


(** ** Word wrapping *)

Lemma get_split (n : nat) :
  forall s c,
    String.get n s = Some c ->
    s = (prefix n s ++ String c (advance (S n) s))%string.
Proof.
  induction n as [|n IH]; intros [|a s] c H; cbn in H; try discriminate.
  - injection H as ->. reflexivity.
  - cbn [prefix advance append]. f_equal. apply IH. exact H.
Qed.

Lemma get_none_length (n : nat) :
  forall s, String.get n s = None -> (String.length s <= n)%nat.
Proof.
  induction n as [|n IH]; intros [|a s] H; cbn in *; try lia; try discriminate.
  apply IH in H. lia.
Qed.

Lemma get_some_length (n : nat) :
  forall s c, String.get n s = Some c -> (n < String.length s)%nat.
Proof.
  induction n as [|n IH]; intros [|a s] c H; cbn in *; try lia; try discriminate.
  apply IH in H. lia.
Qed.

Lemma advance_length (n : nat) :
  forall s, String.length (advance n s) = (String.length s - n)%nat.
Proof.
  induction n as [|n IH]; intros [|a s]; cbn; try reflexivity; try lia.
  apply IH.
Qed.

Lemma prefix_advance (n : nat) :
  forall s, (prefix n s ++ advance n s)%string = s.
Proof.
  induction n as [|n IH]; intros [|a s]; cbn; try reflexivity.
  rewrite IH. reflexivity.
Qed.

Lemma strchr_prefix_le (c : ascii) (k : nat) :
  forall e s, (k <= e)%nat ->
    strchr (prefix e s) c = None -> strchr (prefix k s) c = None.
Proof.
  induction k as [|k IH]; intros e s Hle H.
  - destruct s; reflexivity.
  - destruct e as [|e]; [lia|]. destruct s as [|a s]; [reflexivity|].
    cbn [prefix strchr] in *. destruct (Ascii.eqb a c); [discriminate|].
    destruct (strchr (prefix e s) c) eqn:He; [discriminate|].
    rewrite (IH e s) by (try lia; exact He). reflexivity.
Qed.

Lemma visible_app (a b : string) :
  visible (a ++ b) = (visible a ++ visible b)%string.
Proof.
  induction a as [|c a IH]; cbn [append visible]; [reflexivity|].
  destruct (Ascii.eqb c " " || Ascii.eqb c newline); [exact IH|].
  cbn [append]. rewrite IH. reflexivity.
Qed.

Lemma visible_spaces (n : nat) : visible (spaces n) = EmptyString.
Proof. induction n as [|n IH]; [reflexivity|exact IH]. Qed.

Lemma spaces_length (n : nat) : String.length (spaces n) = n.
Proof. induction n as [|n IH]; cbn; [reflexivity|]. f_equal. exact IH. Qed.

Lemma line_lengths_line (line rest : string) :
  strchr line newline = None ->
  forall col,
    line_lengths (line ++ String newline rest) col =
    (col + String.length line)%nat :: line_lengths rest 0.
Proof.
  induction line as [|c line IH]; intros H col.
  - cbn. rewrite Nat.add_0_r. reflexivity.
  - cbn [strchr] in H. cbn [append line_lengths String.length].
    destruct (Ascii.eqb c newline); [discriminate|].
    destruct (strchr line newline) eqn:Hl; [discriminate|].
    rewrite IH by reflexivity. f_equal. lia.
Qed.

Lemma line_lengths_spaces (n : nat) (rest : string) :
  forall col, line_lengths (spaces n ++ rest) col = line_lengths rest (col + n).
Proof.
  induction n as [|n IH]; intros col.
  - cbn. rewrite Nat.add_0_r. reflexivity.
  - change (spaces (S n)) with (String " " (spaces n)).
    cbn [append line_lengths]. change (Ascii.eqb " " newline) with false. cbv iota.
    rewrite IH. f_equal. lia.
Qed.

Lemma ends_with_newline_nl (a : string) : ends_with_newline (a ++ nl) = true.
Proof.
  induction a as [|c a IH]; [reflexivity|].
  cbn [append ends_with_newline]. destruct (a ++ nl)%string eqn:Ha.
  - destruct a; discriminate.
  - exact IH.
Qed.

Lemma ends_with_newline_app (a b : string) :
  b <> EmptyString -> ends_with_newline (a ++ b) = ends_with_newline b.
Proof.
  intros Hb. induction a as [|c a IH]; [reflexivity|].
  cbn [append ends_with_newline]. destruct (a ++ b)%string eqn:Hab.
  - destruct a; [cbn in Hab; congruence|discriminate].
  - exact IH.
Qed.

(** The inner loop stops within the text, before any newline and within
    the room left; the space it remembers is one it has passed. *)
Lemma scan_line_spec (s : string) :
  forall used rem ls e ls',
    scan_line s used rem ls = (e, ls') ->
    (used <= e)%nat /\
    strchr (prefix (e - used) s) newline = None /\
    ((used <= rem)%nat -> (e <= rem)%nat) /\
    (String.get (e - used) s = None \/
     String.get (e - used) s = Some newline \/
     (rem <= e)%nat) /\
    (forall k, ls' = Some k ->
       ls = Some k \/
       ((used <= k < e)%nat /\ String.get (k - used) s = Some " "%char)).
Proof.
  induction s as [|c s IH]; intros used rem ls e ls' H; cbn [scan_line] in H.
  - injection H as <- <-. rewrite Nat.sub_diag.
    split; [lia|]. split; [reflexivity|]. split; [exact (fun H => H)|].
    split; [left; reflexivity|]. intros k Hk. left. exact Hk.
  - destruct (Ascii.eqb_spec c newline) as [Hnl|Hnl].
    + injection H as <- <-. rewrite Nat.sub_diag.
      split; [lia|]. split; [reflexivity|]. split; [exact (fun H => H)|].
      split; [right; left; cbn; rewrite Hnl; reflexivity|].
      intros k Hk. left. exact Hk.
    + destruct (Nat.ltb_spec used rem) as [Hlt|Hge].
      * apply IH in H. destruct H as (Hle & Hno & Hrem & Hend & Hls).
        replace (e - used)%nat with (S (e - S used)) by lia.
        split; [lia|]. split.
        { cbn [prefix strchr]. destruct (Ascii.eqb_spec c newline); [contradiction|].
          rewrite Hno. reflexivity. }
        split; [intros _; apply Hrem; lia|].
        split; [exact Hend|].
        intros k Hk. destruct (Hls k Hk) as [Hmid|[Hk1 Hk2]].
        -- destruct (Ascii.eqb_spec c " ") as [Hsp|_].
           ++ injection Hmid as <-. right. split; [lia|].
              rewrite Nat.sub_diag. cbn. rewrite Hsp. reflexivity.
           ++ left. exact Hmid.
        -- right. split; [lia|].
           replace (k - used)%nat with (S (k - S used)) by lia. exact Hk2.
      * injection H as <- <-. rewrite Nat.sub_diag.
        split; [lia|]. split; [reflexivity|]. split; [exact (fun H => H)|].
        split; [right; right; exact Hge|].
        intros k Hk. left. exact Hk.
Qed.

Section Wrap.

Variables start_col remaining : nat.
Hypothesis room : (1 <= remaining)%nat.

(** One iteration writes a line without newline that fits the room, ends
    it, pads when text is left, and leaves less text; no character other
    than a blank is lost or added. *)
Lemma wrap_iter_spec (p : string) :
  p <> EmptyString ->
  exists line pad p',
    wrap_iter start_col remaining p = ((line ++ nl ++ pad)%string, p') /\
    strchr line newline = None /\
    (String.length line <= remaining)%nat /\
    (String.length p' < String.length p)%nat /\
    ((pad = EmptyString /\ p' = EmptyString) \/
     (pad = spaces start_col /\ p' <> EmptyString)) /\
    (visible line ++ visible p')%string = visible p.
Proof.
  intros Hp. unfold wrap_iter.
  destruct (scan_line p 0 remaining None) as [e ls] eqn:Hscan.
  apply scan_line_spec in Hscan.
  destruct Hscan as (_ & Hno & Hrem & Hend & Hls).
  rewrite Nat.sub_0_r in *. specialize (Hrem ltac:(lia)).
  assert (Hplen : (0 < String.length p)%nat) by (destruct p; [congruence|cbn; lia]).
  destruct (String.get e p) as [c|] eqn:Hget.
  - pose proof (get_some_length e p c Hget) as He.
    destruct (Ascii.eqb_spec c newline) as [Hc|Hc].
    + exists (prefix e p), (match advance (S e) p with
                            | EmptyString => EmptyString
                            | String _ _ => spaces start_col
                            end), (advance (S e) p).
      split; [reflexivity|]. split; [exact Hno|].
      split; [rewrite prefix_length; lia|].
      split; [rewrite advance_length; lia|].
      split.
      * destruct (advance (S e) p); [left; split; reflexivity|].
        right. split; [reflexivity|discriminate].
      * rewrite (get_split e p c Hget) at 3. rewrite visible_app.
        cbn [visible]. rewrite Hc.
        change (Ascii.eqb newline " " || Ascii.eqb newline newline) with true.
        reflexivity.
    + destruct Hend as [Hend|[Hend|Hend]]; try congruence.
      assert (He' : e = remaining) by lia.
      destruct ls as [k|].
      * destruct (Hls k eq_refl) as [Hk|[Hk Hsp]]; [discriminate|].
        rewrite Nat.sub_0_r in Hsp.
        exists (prefix k p), (spaces start_col), (advance (S k) p).
        split; [reflexivity|].
        split; [apply (strchr_prefix_le newline k e p); [lia|exact Hno]|].
        split; [rewrite prefix_length; lia|].
        split; [rewrite advance_length; lia|].
        split.
        -- right. split; [reflexivity|].
           apply length_pos_not_empty. rewrite advance_length. lia.
        -- rewrite (get_split k p " " Hsp) at 3. rewrite visible_app. reflexivity.
      * exists (prefix remaining p), (spaces start_col), (advance remaining p).
        split; [reflexivity|].
        split; [rewrite <- He'; exact Hno|].
        split; [rewrite prefix_length; lia|].
        split; [rewrite advance_length; lia|].
        split.
        -- right. split; [reflexivity|].
           apply length_pos_not_empty. rewrite advance_length. lia.
        -- rewrite <- visible_app, prefix_advance. reflexivity.
  - pose proof (get_none_length e p Hget) as He.
    exists (prefix e p), EmptyString, EmptyString.
    split; [rewrite str_app_nil_r; reflexivity|]. split; [exact Hno|].
    split; [rewrite prefix_length; lia|].
    split; [cbn; lia|].
    split; [left; split; reflexivity|].
    rewrite prefix_all by exact He. apply str_app_nil_r.
Qed.

Lemma wrap_loop_empty (fuel : nat) :
  wrap_loop fuel start_col remaining EmptyString = Some EmptyString.
Proof. destruct fuel; reflexivity. Qed.

(** The outer loop ends within as many iterations as the text has
    characters. *)
Lemma wrap_loop_spec (fuel : nat) :
  forall p,
    (String.length p <= fuel)%nat ->
    exists out,
      wrap_loop fuel start_col remaining p = Some out /\
      visible out = visible p /\
      (p <> EmptyString -> ends_with_newline out = true) /\
      (forall col, (col <= start_col)%nat ->
         Forall (fun n => (n <= start_col + remaining)%nat) (line_lengths out col)).
Proof.
  induction fuel as [|fuel IH]; intros p Hlen.
  - destruct p; [|cbn in Hlen; lia]. exists EmptyString.
    split; [reflexivity|]. split; [reflexivity|]. split; [congruence|].
    intros col Hcol. cbn. constructor; [lia|constructor].
  - destruct p as [|c p0] eqn:Hp.
    { exists EmptyString.
      split; [reflexivity|]. split; [reflexivity|]. split; [congruence|].
      intros col Hcol. cbn. constructor; [lia|constructor]. }
    rewrite <- Hp in *.
    assert (Hne : p <> EmptyString) by (rewrite Hp; discriminate).
    destruct (wrap_iter_spec p Hne)
      as (line & pad & p' & Hiter & Hno & Hfit & Hless & Hpad & Hvis).
    destruct (IH p' ltac:(lia)) as (more & Hmore & Hvm & Hem & Hlm).
    exists ((line ++ nl ++ pad) ++ more)%string.
    split.
    { rewrite Hp. cbn [wrap_loop]. rewrite <- Hp, Hiter, Hmore. reflexivity. }
    assert (Hvpad : visible pad = EmptyString).
    { destruct Hpad as [[-> _]|[-> _]]; [reflexivity|apply visible_spaces]. }
    split.
    { rewrite !visible_app, Hvpad, Hvm. cbn [nl visible].
      change (Ascii.eqb newline " " || Ascii.eqb newline newline) with true.
      cbn [append]. rewrite str_app_nil_r. exact Hvis. }
    split.
    { intros _. destruct Hpad as [[-> ->]|[-> Hp']].
      - rewrite wrap_loop_empty in Hmore. injection Hmore as <-.
        rewrite !str_app_nil_r. apply ends_with_newline_nl.
      - specialize (Hem Hp').
        assert (Hmne : more <> EmptyString) by (intros ->; discriminate).
        rewrite ends_with_newline_app by exact Hmne. exact Hem. }
    intros col Hcol.
    rewrite !str_app_assoc. unfold nl. cbn [append].
    rewrite line_lengths_line by exact Hno.
    constructor; [lia|].
    destruct Hpad as [[-> ->]|[-> Hp']].
    + rewrite wrap_loop_empty in Hmore. injection Hmore as <-. cbn.
      constructor; [lia|constructor].
    + rewrite line_lengths_spaces. apply Hlm. lia.
Qed.

End Wrap.

(** X18: wrapped help text stays within the width.  When wrapping is in
    force (a positive start column at least ten short of the width) and
    the text is printed from a column that is at most the start column,
    every line of the output, the padding of continuation lines included,
    has at most [width] characters. *)
Theorem wrapped_lines_fit (text : option string) (start_col width : Z)
  (col : nat) (out : string) :
  0 < start_col -> start_col + 10 <= width ->
  (col <= Z.to_nat start_col)%nat ->
  cargs_wrap_print text start_col width = Some out ->
  Forall (fun n => (n <= Z.to_nat width)%nat) (line_lengths out col).
Proof.
  intros Hsc Hw Hcol. unfold cargs_wrap_print.
  assert (Hnl : Forall (fun n => (n <= Z.to_nat width)%nat) (line_lengths nl col)).
  { cbn. constructor; [lia|]. constructor; [lia|constructor]. }
  destruct text as [[|c t]|]; try (intros [= <-]; exact Hnl).
  destruct (Z.leb_spec width 0); [lia|].
  destruct (Z.leb_spec start_col 0); [lia|].
  destruct (Z.ltb_spec width (start_col + 10)); [lia|].
  cbn [orb]. intros Hrun.
  destruct (wrap_loop_spec (Z.to_nat start_col) (Z.to_nat (width - start_col))
              ltac:(lia) (S (String.length (String c t))) (String c t) ltac:(lia))
    as (out' & Hout & _ & _ & Hlines).
  rewrite Hout in Hrun. injection Hrun as <-.
  replace (Z.to_nat width)
    with (Z.to_nat start_col + Z.to_nat (width - start_col))%nat by lia.
  apply Hlines. exact Hcol.
Qed.

Lemma wrapped_lines_fit_witness :
  Forall (fun n => (n <= Z.to_nat 16)%nat)
    (line_lengths ("alpha beta" ++ nl ++ "    gamma" ++ nl) 4).
Proof.
  apply (wrapped_lines_fit (Some "alpha beta gamma") 4 16 4).
  - lia.
  - lia.
  - simpl. lia.
  - reflexivity.
Defined.

(** X19: printing help text always ends, and loses nothing.  For every
    text, start column and width (the start column small enough for the
    test against the width not to overflow) a result is produced: the
    wrapping loop needs no more iterations than the text has characters;
    the output ends with a newline, and its characters other than spaces
    and newlines are those of the text, in the same order. *)
Theorem wrap_print_total (text : option string) (start_col width : Z) :
  start_col <= INT_MAX - 10 ->
  exists out,
    cargs_wrap_print text start_col width = Some out /\
    ends_with_newline out = true /\
    visible out = visible (match text with Some t => t | None => EmptyString end).
Proof.
  intros _. unfold cargs_wrap_print.
  destruct text as [[|c t]|];
    try (exists nl; split; [reflexivity|]; split; reflexivity).
  destruct ((width <=? 0) || (start_col <=? 0) || (width <? start_col + 10)) eqn:Hg.
  - exists (String c t ++ nl)%string. split; [reflexivity|].
    split; [apply ends_with_newline_nl|].
    rewrite visible_app. apply str_app_nil_r.
  - apply orb_false_elim in Hg. destruct Hg as [Hg H3].
    apply orb_false_elim in Hg. destruct Hg as [H1 H2].
    apply Z.leb_gt in H1, H2. apply Z.ltb_ge in H3.
    destruct (wrap_loop_spec (Z.to_nat start_col) (Z.to_nat (width - start_col))
                ltac:(lia) (S (String.length (String c t))) (String c t) ltac:(lia))
      as (out & Hout & Hvis & Hend & _).
    exists out. split; [exact Hout|]. split; [apply Hend; discriminate|exact Hvis].
Qed.

Lemma wrap_print_total_witness :
  exists out,
    cargs_wrap_print (Some "a  long-unbroken-word and more") 2 14 = Some out /\
    ends_with_newline out = true /\
    visible out = visible "a  long-unbroken-word and more".
Proof.
  apply (wrap_print_total (Some "a  long-unbroken-word and more") 2 14).
  vm_compute. discriminate.
Defined.

(** ** Where a level stops *)

Lemma scan_loop_last_step (U : Type) (env : option cargs_env)
  (cmd : option (cargs_cmd U)) (argv : list string) (av aa : bool)
  (path : list string) (fuel : nat) :
  forall st st',
    scan_loop env cmd argv av aa path fuel st = Some (ScanEnd st') ->
    exists st1,
      (ps_i st <= ps_i st1)%nat /\
      scan_step env cmd argv av aa path st1 = Break st'.
Proof.
  induction fuel as [|fuel IH]; intros st st'; cbn [scan_loop]; [discriminate|].
  destruct (scan_step env cmd argv av aa path st) as [st1|st1|rc u l] eqn:Hstep.
  - intros H. apply IH in H. destruct H as (st2 & Hle & Hb).
    exists st2. split; [|exact Hb]. apply scan_step_progress in Hstep. lia.
  - intros [= <-]. exists st. split; [lia|exact Hstep].
  - discriminate.
Qed.

(** X20: a level that succeeds has consumed every option token in front
    of it.  The index it leaves is at the end of the vector, at a token
    that does not start with a dash, or just after a double dash; so the
    token the dispatcher looks at next starts with a dash only when a
    double dash came right before it. *)
Theorem level_stops_at_positional (U : Type) (getenv : string -> option string)
  (env : option cargs_env) (cmd : option (cargs_cmd U)) (argv : list string)
  (av aa : bool) (path : list string) (idx : nat) (user : U)
  (log : list (event U)) (r : level_result) :
  cargs_parse_opts_level getenv env cmd argv av aa path idx user log = Some r ->
  lvl_rc r = CARGS_OK ->
  nth_error argv (lvl_idx r) = None \/
  (exists tok, nth_error argv (lvl_idx r) = Some tok /\
               is_char (String.get 0 tok) "-" = false) \/
  (exists j, lvl_idx r = S j /\ (idx <= j)%nat /\ nth_error argv j = Some "--").
Proof.
  unfold cargs_parse_opts_level, level_scan.
  destruct (group_masks _ _ _) as [xm rm].
  destruct (scan_loop _ _ _ _ _ _ _ _) as [[st|rc u l]|] eqn:Hscan; [| |discriminate].
  - intros [= <-]. cbn [lvl_rc lvl_idx]. intros Hrc. rewrite Hrc.
    change (CARGS_OK <? 0) with false. cbv iota.
    apply scan_loop_last_step in Hscan. destruct Hscan as (st1 & Hle & Hb).
    rewrite overlay_index in Hle. cbn [ps_i] in Hle.
    apply scan_step_Break in Hb.
    destruct Hb as [[-> [Hend|Htok]]|[-> Hdd]].
    + left. exact Hend.
    + right. left. exact Htok.
    + right. right. exists (ps_i st1). split; [reflexivity|]. split; assumption.
  - intros [= <-]. cbn [lvl_rc]. intros ->.
    apply scan_loop_Return in Hscan.
    destruct Hscan as [H|H]; [unfold CARGS_OK in H; lia|discriminate].
Qed.

Lemma level_stops_at_positional_witness :
  nth_error ["t"; "-V"; "--"; "-x"] 3 = None \/
  (exists tok, nth_error ["t"; "-V"; "--"; "-x"] 3 = Some tok /\
               is_char (String.get 0 tok) "-" = false) \/
  (exists j, 3%nat = S j /\ (1 <= j)%nat /\
             nth_error ["t"; "-V"; "--"; "-x"] j = Some "--").
Proof.
  exact (level_stops_at_positional Sample.tstate Sample.no_getenv Sample.test_env
           (Some Sample.root) ["t"; "-V"; "--"; "-x"] true true [] 1 Sample.t0 []
           (mk_level 0 3 Sample.t0 [EvCallback Sample.o_verbose None])
           eq_refl eq_refl).
Defined.

(** ** Byte sizes the range check lets through *)

(** X21: the range check of the byte-size reader has two gaps.  When the
    product of the number and the multiplier is not a number, or is
    exactly two to the 64 (the double the largest 64-bit value converts
    to), neither comparison of the check holds, the reader does not
    return its error code, and the product is handed to a conversion to a
    64-bit integer that it does not fit. *)
Theorem size_range_check_gaps (strtod : string -> float * nat) (s : string)
  (v : float) (n : nat) (prefer_iec : bool) (mult : float) :
  s <> EmptyString ->
  strtod s = (v, n) ->
  n <> O ->
  size_suffix prefer_iec (skip_blanks (advance n s)) = Some mult ->
  PrimFloat.mul v mult = PrimFloat.nan \/
  PrimFloat.mul v mult = UINT64_MAX_double ->
  cargs_read_size strtod (Some s) prefer_iec = SizeUndefined.
Proof.
  intros Hs Hv Hn Hsuffix Hbytes. unfold cargs_read_size.
  destruct s as [|c s']; [congruence|].
  rewrite Hv. destruct (Nat.eqb_spec n 0) as [|_]; [contradiction|].
  rewrite Hsuffix.
  destruct Hbytes as [-> | ->]; vm_compute; reflexivity.
Qed.

Lemma size_range_check_gaps_witness :
  cargs_read_size (fun _ => (16%float, 2%nat)) (Some "16EiB") true = SizeUndefined.
Proof.
  apply (size_range_check_gaps (fun _ => (16%float, 2%nat)) "16EiB" 16%float 2 true
           (fpow k2 6)).
  - discriminate.
  - reflexivity.
  - discriminate.
  - vm_compute. reflexivity.
  - right. vm_compute. reflexivity.
Defined.


(** ** Accumulated texts and the end of their buffers *)

Section Accumulate.

Variable size : nat.
Hypothesis size_pos : (0 < size)%nat.

Lemma accum_append_holds (T text : string) (st : string * nat) :
  accum_holds size T st ->
  (String.length T <= size)%nat ->
  exists st',
    accum_append size text st = Some st' /\ accum_holds size (T ++ text) st'.
Proof.
  destruct st as [buf n]. intros [Hb Hn] Hfit. cbn [fst snd] in *.
  unfold accum_append. destruct (Nat.ltb_spec size n) as [|_]; [lia|].
  eexists. split; [reflexivity|]. split; cbn [fst snd].
  - unfold snprintf_at. destruct (size - n)%nat as [|room] eqn:Hroom.
    + rewrite Hb. symmetry. apply prefix_app_ge. lia.
    + rewrite Hb, Hn. rewrite (prefix_all (size - 1) T) by lia.
      rewrite (prefix_all (String.length T) T) by lia.
      rewrite prefix_app_le by lia. f_equal. f_equal. lia.
  - rewrite str_length_app. lia.
Qed.

Lemma accum_append_overrun (T text : string) (st : string * nat) :
  accum_holds size T st ->
  (size < String.length T)%nat ->
  accum_append size text st = None.
Proof.
  destruct st as [buf n]. intros [_ Hn] Hover. cbn [snd] in Hn.
  unfold accum_append. destruct (Nat.ltb_spec size n) as [_|]; [reflexivity|lia].
Qed.

Lemma accum_holds_start : accum_holds size EmptyString (EmptyString, O).
Proof. split; [destruct (size - 1)%nat; reflexivity|reflexivity]. Qed.

End Accumulate.

Lemma path_words_cons (seg : string) (path : list string) :
  path_words (seg :: path) = (" " ++ seg ++ path_words path)%string.
Proof.
  unfold path_words. cbn [map]. rewrite concat_cons. reflexivity.
Qed.

Lemma path_words_app (pre post : list string) :
  path_words (pre ++ post) = (path_words pre ++ path_words post)%string.
Proof.
  induction pre as [|seg pre IH]; [reflexivity|].
  cbn [app]. rewrite !path_words_cons, IH.
  cbn [append]. rewrite str_app_assoc. reflexivity.
Qed.

Lemma usage_space_holds (T : string) (st : string * nat) :
  accum_holds 256 T st ->
  (String.length T + 1 < 256)%nat ->
  accum_holds 256 (T ++ " ")
    (if (snd st + 1 <? 256)%nat
     then ((prefix (snd st) (fst st) ++ " ")%string, S (snd st)) else st).
Proof.
  destruct st as [buf n]. intros [Hb Hn] Hfit. cbn [fst snd] in *.
  destruct (Nat.ltb_spec (n + 1) 256) as [_|]; [|lia].
  split; cbn [fst snd].
  - rewrite Hb, Hn. rewrite (prefix_all (256 - 1) T) by lia.
    rewrite (prefix_all (String.length T) T) by lia.
    rewrite prefix_all by (rewrite str_length_app; cbn; lia). reflexivity.
  - rewrite str_length_app. cbn. lia.
Qed.

Lemma usage_head_path_cons (seg : string) (rest : list string) (st : string * nat) :
  usage_head_path (seg :: rest) st =
  match accum_append 256 seg
          (if (snd st + 1 <? 256)%nat
           then ((prefix (snd st) (fst st) ++ " ")%string, S (snd st)) else st) with
  | Some st2 => usage_head_path rest st2
  | None => None
  end.
Proof. destruct st as [buf n]. reflexivity. Qed.

(** While everything fits, the path loop accumulates the path words. *)
Lemma usage_head_path_exact (path : list string) :
  forall T st,
    accum_holds 256 T st ->
    (String.length (T ++ path_words path) < 256)%nat ->
    exists st',
      usage_head_path path st = Some st' /\
      accum_holds 256 (T ++ path_words path) st'.
Proof.
  induction path as [|seg rest IH]; intros T st H Hfit.
  - exists st. split; [reflexivity|]. unfold path_words. cbn.
    rewrite str_app_nil_r. exact H.
  - rewrite path_words_cons in *. rewrite !str_length_app in Hfit. cbn in Hfit.
    cbn [usage_head_path]. destruct st as [buf n].
    pose proof (usage_space_holds T (buf, n) H ltac:(lia)) as Hsp.
    cbn [fst snd] in Hsp.
    destruct (accum_append_holds 256 ltac:(lia) (T ++ " ") seg _ Hsp)
      as (st2 & -> & H2).
    { rewrite str_length_app. cbn. lia. }
    destruct (IH ((T ++ " ") ++ seg)%string st2 H2) as (st' & Hst' & H').
    { rewrite !str_length_app. cbn. lia. }
    exists st'. split; [exact Hst'|].
    replace (T ++ " " ++ seg ++ path_words rest)%string
      with (((T ++ " ") ++ seg) ++ path_words rest)%string; [exact H'|].
    rewrite !str_app_assoc. reflexivity.
Qed.

(** A segment met once the count is beyond the buffer is written outside
    of it. *)
Lemma usage_head_path_overrun (seg : string) (rest : list string) (T : string)
  (st : string * nat) :
  accum_holds 256 T st ->
  (256 < String.length T)%nat ->
  usage_head_path (seg :: rest) st = None.
Proof.
  intros H Hover. cbn [usage_head_path]. destruct st as [buf n].
  destruct H as [Hb Hn]. cbn [fst snd] in *.
  destruct (Nat.ltb_spec (n + 1) 256) as [|_]; [lia|].
  rewrite (accum_append_overrun 256 ltac:(lia) T seg (buf, n));
    [reflexivity| |exact Hover].
  split; assumption.
Qed.

Lemma usage_head_path_app (pre post : list string) :
  forall st st',
    usage_head_path pre st = Some st' ->
    usage_head_path (pre ++ post) st = usage_head_path post st'.
Proof.
  induction pre as [|seg pre IH]; intros st st' H.
  - cbn in H. injection H as <-. reflexivity.
  - cbn [app usage_head_path] in *. destruct st as [buf n].
    destruct (accum_append 256 seg _) as [st2|]; [|discriminate].
    apply IH. exact H.
Qed.

(** X22: the head of the usage line (program name and path, in a buffer
    of 256 characters) is exact while it fits, and overruns its buffer
    otherwise.  When the program name and the path segments, each after a
    space, make fewer than 256 characters, the buffer holds exactly that
    text.  But the count keeps growing by the full length of what was to
    be written: once it is beyond 256 (a program name longer than that,
    or a segment that crosses the end) the next path segment is written
    through a pointer outside the buffer, with a size that has wrapped
    around. *)
Theorem usage_head_bounds (prog : option string) :
  (forall path,
     (String.length (text_of prog ++ path_words path) < 256)%nat ->
     usage_head prog path = Some (text_of prog ++ path_words path)%string) /\
  (forall seg rest,
     (256 < String.length (text_of prog))%nat ->
     usage_head prog (seg :: rest) = None) /\
  (forall pre seg next rest,
     (String.length (text_of prog ++ path_words pre) + 1 < 256)%nat ->
     (256 < String.length (text_of prog ++ path_words pre) + 1 + String.length seg)%nat ->
     usage_head prog (pre ++ seg :: next :: rest) = None).
Proof.
  assert (Hstart : exists st,
            match prog with
            | Some p => accum_append 256 p (EmptyString, O)
            | None => Some (EmptyString, O)
            end = Some st /\ accum_holds 256 (text_of prog) st).
  { destruct prog as [p|].
    - destruct (accum_append_holds 256 ltac:(lia) EmptyString p (EmptyString, O))
        as (st & Hst & H); [apply accum_holds_start; lia|cbn; lia|].
      exists st. split; [exact Hst|exact H].
    - exists (EmptyString, O). split; [reflexivity|]. apply accum_holds_start. }
  destruct Hstart as (st & Hst & Hholds).
  unfold usage_head. rewrite Hst.
  split; [|split].
  - intros path Hfit.
    destruct (usage_head_path_exact path (text_of prog) st Hholds Hfit)
      as ([buf n] & -> & [Hb _]).
    cbn [fst] in Hb. rewrite Hb, prefix_prefix by lia.
    rewrite prefix_all by lia. reflexivity.
  - intros seg rest Hover.
    rewrite (usage_head_path_overrun seg rest (text_of prog) st Hholds Hover).
    reflexivity.
  - intros pre seg next rest Hfit Hover.
    destruct (usage_head_path_exact pre (text_of prog) st Hholds ltac:(lia))
      as (st1 & Hpre & H1).
    rewrite (usage_head_path_app pre (seg :: next :: rest) st st1 Hpre).
    rewrite usage_head_path_cons.
    pose proof (usage_space_holds _ st1 H1 Hfit) as Hsp.
    destruct (accum_append_holds 256 ltac:(lia) _ seg _ Hsp) as (st2 & -> & H2).
    { rewrite str_length_app. cbn. lia. }
    rewrite (usage_head_path_overrun next rest _ st2 H2); [reflexivity|].
    rewrite !str_length_app in *. cbn. lia.
Qed.

Lemma usage_head_bounds_witness :
  usage_head (Some "prog") ["remote"; "add"] =
    Some ("prog" ++ path_words ["remote"; "add"])%string /\
  usage_head (Some (repeat_char 257 "x")) ["remote"] = None.
Proof.
  split.
  - apply (proj1 (usage_head_bounds (Some "prog"))). vm_compute. lia.
  - apply (proj1 (proj2 (usage_head_bounds (Some (repeat_char 257 "x"))))).
    vm_compute. lia.
Defined.

Lemma alias_tail_words_cons (x : string) (l : list string) :
  alias_tail_words (x :: l) = (", " ++ x ++ alias_tail_words l)%string.
Proof. unfold alias_tail_words. cbn [map]. rewrite concat_cons. reflexivity. Qed.

Lemma concat_comma_tail (x : string) (l : list string) :
  String.concat ", " (x :: l) = (x ++ alias_tail_words l)%string.
Proof.
  revert x. induction l as [|y l IH]; intros x.
  - cbn. rewrite str_app_nil_r. reflexivity.
  - rewrite alias_tail_words_cons.
    change (String.concat ", " (x :: y :: l))
      with (x ++ ", " ++ String.concat ", " (y :: l))%string.
    rewrite (IH y). reflexivity.
Qed.

Lemma cmd_row_aliases_null (aliases : list (option string)) :
  forall a st, In None aliases -> cmd_row_aliases aliases a st = None.
Proof.
  induction aliases as [|alias rest IH]; intros a st Hin; [destruct Hin|].
  cbn [cmd_row_aliases].
  destruct (if (0 <? a)%nat then accum_append 160 ", " st else Some st) as [st1|];
    [|reflexivity].
  destruct alias as [text|]; [|reflexivity].
  destruct (accum_append 160 text st1) as [st2|]; [|reflexivity].
  apply IH. destruct Hin as [Hin|Hin]; [discriminate|exact Hin].
Qed.

(** While everything fits, the alias loop accumulates the aliases, the
    first one bare when the loop starts at index zero. *)
Lemma cmd_row_aliases_exact (l : list string) :
  forall a T st,
    accum_holds 160 T st ->
    let words :=
      match a, l with
      | O, x :: l' => (x ++ alias_tail_words l')%string
      | _, _ => alias_tail_words l
      end in
    (String.length (T ++ words) < 160)%nat ->
    exists st',
      cmd_row_aliases (map Some l) a st = Some st' /\
      accum_holds 160 (T ++ words) st'.
Proof.
  induction l as [|x l IH]; intros a T st H words Hfit.
  - exists st. split; [reflexivity|]. subst words.
    destruct a; cbn; rewrite str_app_nil_r; exact H.
  - cbn [map cmd_row_aliases]. subst words.
    destruct a as [|a].
    + cbn [Nat.ltb Nat.leb]. rewrite !str_length_app in Hfit.
      destruct (accum_append_holds 160 ltac:(lia) T x st H ltac:(lia))
        as (st2 & -> & H2).
      destruct (IH 1%nat (T ++ x)%string st2 H2) as (st' & Hst' & H').
      { cbn zeta. rewrite !str_length_app. lia. }
      exists st'. split; [exact Hst'|]. cbn zeta in H'.
      rewrite str_app_assoc in H'. exact H'.
    + rewrite alias_tail_words_cons in *. rewrite !str_length_app in Hfit.
      cbn [String.length] in Hfit.
      change (0 <? S a)%nat with true. cbv iota.
      destruct (accum_append_holds 160 ltac:(lia) T ", " st H ltac:(lia))
        as (st1 & -> & H1).
      destruct (accum_append_holds 160 ltac:(lia) (T ++ ", ") x st1 H1)
        as (st2 & -> & H2).
      { rewrite str_length_app. cbn. lia. }
      destruct (IH (S (S a)) ((T ++ ", ") ++ x)%string st2 H2) as (st' & Hst' & H').
      { cbn zeta. rewrite !str_length_app. cbn. lia. }
      exists st'. split; [exact Hst'|]. cbn zeta in H'.
      replace (T ++ ", " ++ x ++ alias_tail_words l)%string
        with (((T ++ ", ") ++ x) ++ alias_tail_words l)%string; [exact H'|].
      rewrite !str_app_assoc. reflexivity.
Qed.

(** X23: the name column of a command row (the name, then the aliases in
    parentheses, in a buffer of 160 characters) is exact while it fits,
    and is not protected otherwise.  With aliases that are all present
    and a text shorter than 160 characters the buffer holds the name
    followed by the aliases, separated by a comma and a space, between
    [ (alias: ] and [)].  An alias that is NULL (which the lookup of
    subcommands skips) is handed to a string conversion; and a name
    longer than the buffer makes the next piece be written outside of it. *)
Theorem cmd_row_name_bounds (U : Type) (c : cargs_cmd U) :
  (forall l,
     cmd_aliases c = map Some l ->
     let full :=
       (text_of (cmd_name c) ++
        match l with
        | [] => EmptyString
        | _ :: _ => " (alias: " ++ String.concat ", " l ++ ")"
        end)%string in
     (String.length full < 160)%nat ->
     cmd_row_name c = Some full) /\
  (In None (cmd_aliases c) -> cmd_row_name c = None) /\
  ((160 < String.length (text_of (cmd_name c)))%nat ->
   cmd_aliases c <> [] ->
   cmd_row_name c = None).
Proof.
  unfold cmd_row_name. fold (text_of (cmd_name c)).
  destruct (accum_append_holds 160 ltac:(lia) EmptyString (text_of (cmd_name c))
              (EmptyString, O) (accum_holds_start 160) ltac:(cbn; lia))
    as (st1 & -> & H1).
  cbn [append] in H1.
  split; [|split].
  - intros l Hl Hfit. rewrite Hl.
    destruct l as [|x l'].
    + cbn [map]. rewrite str_app_nil_r in *.
      destruct H1 as [Hb _]. rewrite Hb. apply f_equal. apply prefix_all. lia.
    + cbn [map]. fold (map Some l'). change (Some x :: map Some l') with (map Some (x :: l')).
      rewrite concat_comma_tail in *. rewrite !str_length_app in Hfit.
      cbn [String.length] in Hfit.
      destruct (accum_append_holds 160 ltac:(lia) _ " (alias: " st1 H1 ltac:(lia))
        as (st2 & -> & H2).
      destruct (cmd_row_aliases_exact (x :: l') 0 _ st2 H2) as (st3 & -> & H3).
      { cbn zeta. rewrite !str_length_app. cbn [String.length]. lia. }
      cbn zeta in H3.
      destruct (accum_append_holds 160 ltac:(lia) _ ")" st3 H3) as (st4 & -> & H4).
      { rewrite !str_length_app. cbn [String.length]. lia. }
      destruct H4 as [Hb _]. rewrite Hb. apply f_equal.
      rewrite prefix_all by (rewrite !str_length_app; cbn [String.length]; lia).
      rewrite !str_app_assoc. reflexivity.
  - intros Hin. destruct (cmd_aliases c) as [|alias rest] eqn:Ha; [destruct Hin|].
    destruct (accum_append 160 " (alias: " st1) as [st2|]; [|reflexivity].
    rewrite cmd_row_aliases_null by exact Hin. reflexivity.
  - intros Hover Hne. destruct (cmd_aliases c) as [|alias rest]; [congruence|].
    rewrite (accum_append_overrun 160 ltac:(lia) _ " (alias: " st1 H1 Hover).
    reflexivity.
Qed.

Lemma cmd_row_name_bounds_witness :
  cmd_row_name Sample.remote_remove = Some "remove (alias: rm)".
Proof.
  refine (proj1 (cmd_row_name_bounds Sample.tstate Sample.remote_remove)
            ["rm"] eq_refl _).
  vm_compute. lia.
Defined.

(** ** Tokens met in the course of the scan *)

Section ScanReach.

Context {U : Type}.
Variable getenv : string -> option string.
Variable env : option cargs_env.
Variable cmd : option (cargs_cmd U).
Variable argv : list string.
Variables allow_version allow_author : bool.
Variable path : list string.

Abbreviation reaches := (scans_to env cmd argv allow_version allow_author path).
Abbreviation loop := (scan_loop env cmd argv allow_version allow_author path).

Lemma scans_to_loop (st0 st : pstate) :
  reaches st0 st ->
  forall fuel r, loop fuel st0 = Some r -> exists fuel', loop fuel' st = Some r.
Proof.
  induction 1 as [st|st st1 st2 Hstep _ IH]; intros fuel r Hr.
  - exists fuel. exact Hr.
  - destruct fuel as [|fuel]; [discriminate|].
    cbn [scan_loop] in Hr. rewrite Hstep in Hr. exact (IH fuel r Hr).
Qed.

Lemma scan_loop_agree (st : pstate) (f1 f2 : nat) (r1 r2 : scan_result) :
  loop f1 st = Some r1 -> loop f2 st = Some r2 -> r1 = r2.
Proof.
  intros H1 H2.
  apply (scan_loop_mono env cmd allow_version allow_author path argv
           f1 (Nat.max f1 f2) st r1 ltac:(lia)) in H1.
  apply (scan_loop_mono env cmd allow_version allow_author path argv
           f2 (Nat.max f1 f2) st r2 ltac:(lia)) in H2.
  congruence.
Qed.

(** What the scan does from a state it reaches is what the level's scan
    does. *)
Lemma scans_to_level_scan (idx : nat) (user : U) (log : list (event U))
  (st : pstate) (fuel : nat) (r : scan_result) :
  reaches
    (cargs_apply_env_defaults_level getenv (level_opts cmd)
       (mk_pstate idx (fun _ => 0) user log)) st ->
  loop fuel st = Some r ->
  level_scan getenv env cmd argv allow_version allow_author path idx user log =
    Some r.
Proof.
  intros Hreach Hr.
  destruct (level_scan_total getenv env cmd argv allow_version allow_author path
              idx user log) as [r0 H0].
  rewrite H0. unfold level_scan in H0.
  destruct (scans_to_loop _ _ Hreach _ _ H0) as [fuel' Hf'].
  f_equal. exact (scan_loop_agree st fuel' fuel r0 r Hf' Hr).
Qed.

(** A flag in a short cluster: its callback is called with no value and
    the character loop goes on with the rest of the token. *)
Lemma short_cluster_flag (a : ascii) (p : string) (o : cargs_opt U)
  (f : cargs_cb U) (st : pstate) :
  short_builtin env cmd allow_version path a = None ->
  cargs_find_short (level_opts cmd) a = Some o ->
  opt_arg o = CARGS_ARG_NONE ->
  opt_cb o = Some f ->
  short_cluster env cmd argv allow_version path (String a p) st =
  called_with o f None st (short_cluster env cmd argv allow_version path p).
Proof.
  intros Hb Hf Harg Hcb. cbn [short_cluster]. rewrite Hb, Hf, Harg.
  apply matched_called. exact Hcb.
Qed.

Lemma short_cluster_unknown (b : ascii) (p : string) (st : pstate) :
  short_builtin env cmd allow_version path b = None ->
  cargs_find_short (level_opts cmd) b = None ->
  short_cluster env cmd argv allow_version path (String b p) st =
  Return CARGS_ERR_UNKNOWN (ps_user st) (ps_log st).
Proof. intros Hb Hf. cbn [short_cluster]. rewrite Hb, Hf. reflexivity. Qed.

End ScanReach.

(** X9: nothing is rolled back.  Wherever the scan meets it, after any
    other tokens, a short token whose first character is a flag with a
    callback and whose second character names no option has the flag's
    callback called before the failure is found: when the callback does
    not fail, the level returns the unknown-option code with the index
    where the level found it, but with the context as the callback left it
    and the call in the log.  The same holds inside a cluster, at any
    point of the character loop. *)
Theorem cluster_failure_keeps_effects (U : Type) (getenv : string -> option string)
  (env : option cargs_env) (cmd : option (cargs_cmd U)) (argv : list string)
  (av aa : bool) (path : list string) (a b : ascii) (p : string)
  (o : cargs_opt U) (f : cargs_cb U) :
  short_builtin env cmd av path a = None ->
  cargs_find_short (level_opts cmd) a = Some o ->
  opt_arg o = CARGS_ARG_NONE ->
  opt_cb o = Some f ->
  short_builtin env cmd av path b = None ->
  cargs_find_short (level_opts cmd) b = None ->
  (forall st,
     short_cluster env cmd argv av path (String a (String b p)) st =
     called_with o f None st
       (fun s => Return CARGS_ERR_UNKNOWN (ps_user s) (ps_log s))) /\
  (forall st fuel,
     a <> "-"%char ->
     nth_error argv (ps_i st) = Some (String "-" (String a (String b p))) ->
     0 <= fst (f None (ps_user st)) ->
     scan_loop env cmd argv av aa path (S fuel) st =
     Some (ScanReturn CARGS_ERR_UNKNOWN (snd (f None (ps_user st)))
             (ps_log st ++ [EvCallback o None]))) /\
  (forall idx user log st,
     scans_to env cmd argv av aa path
       (cargs_apply_env_defaults_level getenv (level_opts cmd)
          (mk_pstate idx (fun _ => 0) user log)) st ->
     a <> "-"%char ->
     nth_error argv (ps_i st) = Some (String "-" (String a (String b p))) ->
     0 <= fst (f None (ps_user st)) ->
     cargs_parse_opts_level getenv env cmd argv av aa path idx user log =
     Some (mk_level CARGS_ERR_UNKNOWN idx (snd (f None (ps_user st)))
             (ps_log st ++ [EvCallback o None]))).
Proof.
  intros Hba Hfa Harg Hcb Hbb Hfb.
  assert (Hcluster : forall st,
            short_cluster env cmd argv av path (String a (String b p)) st =
            called_with o f None st
              (fun s => Return CARGS_ERR_UNKNOWN (ps_user s) (ps_log s))).
  { intros st. rewrite (short_cluster_flag env cmd argv av path a _ o f st
                          Hba Hfa Harg Hcb).
    unfold called_with. destruct (f None (ps_user st)) as [rc u1].
    destruct (rc <? 0); [reflexivity|].
    apply short_cluster_unknown; assumption. }
  assert (Hscan : forall st fuel,
            a <> "-"%char ->
            nth_error argv (ps_i st) = Some (String "-" (String a (String b p))) ->
            0 <= fst (f None (ps_user st)) ->
            scan_loop env cmd argv av aa path (S fuel) st =
            Some (ScanReturn CARGS_ERR_UNKNOWN (snd (f None (ps_user st)))
                    (ps_log st ++ [EvCallback o None]))).
  { intros st fuel Ha Htok Hrc. apply scan_loop_first_Return.
    rewrite scan_step_short with (c := a) (p := String b p) by assumption.
    rewrite Hcluster. unfold called_with. cbn [set_i ps_user ps_log ps_i ps_counts].
    destruct (f None (ps_user st)) as [rc u1]. cbn [fst snd] in *.
    destruct (Z.ltb_spec rc 0) as [Hneg|_]; [lia|]. reflexivity. }
  split; [exact Hcluster|]. split; [exact Hscan|].
  intros idx user log st Hreach Ha Htok Hrc.
  rewrite (level_of_ScanReturn getenv env cmd argv av aa path idx user log
             CARGS_ERR_UNKNOWN (snd (f None (ps_user st)))
             (ps_log st ++ [EvCallback o None])); [reflexivity|].
  apply (scans_to_level_scan getenv env cmd argv av aa path idx user log st 1).
  - exact Hreach.
  - apply Hscan; assumption.
Qed.

Lemma cluster_failure_keeps_effects_witness :
  cargs_parse_opts_level Sample.no_getenv Sample.test_env (Some Sample.root)
    ["t"; "--jobs=3"; "-Vx"; "file"] true true [] 1 Sample.t0 [] =
  Some (mk_level CARGS_ERR_UNKNOWN 1 (Sample.mk_tstate (Some "3") None [])
          [EvCallback Sample.o_jobs (Some "3"); EvCallback Sample.o_verbose None]).
Proof.
  refine (proj2 (proj2
            (cluster_failure_keeps_effects Sample.tstate Sample.no_getenv
               Sample.test_env (Some Sample.root) ["t"; "--jobs=3"; "-Vx"; "file"]
               true true [] "V" "x" "" Sample.o_verbose Sample.cb_flag
               eq_refl eq_refl eq_refl eq_refl eq_refl eq_refl))
            1%nat Sample.t0 []
            (mk_pstate 2 (fun _ => 0) (Sample.mk_tstate (Some "3") None [])
               [EvCallback Sample.o_jobs (Some "3")])
            _ _ eq_refl _).
  - apply (scans_on _ _ _ _ _ _ _
             (mk_pstate 2 (fun _ => 0) (Sample.mk_tstate (Some "3") None [])
                [EvCallback Sample.o_jobs (Some "3")])); [reflexivity|].
    apply scans_here.
  - discriminate.
  - vm_compute. discriminate.
Defined.

(** X13: the double dash ends option parsing at its level.  Wherever the
    scan meets it, after any number of options, the scan ends just after
    it and no callback runs for it or for anything after it; unless the
    next token names a child command, the current command is the leaf,
    and (when the group constraints hold) its positional check and its
    handler get every token after the double dash as it stands, dashes
    included, with the context and the log as the options before the
    double dash left them. *)
Theorem double_dash_ends_options (U : Type) (getenv : string -> option string)
  (env : option cargs_env) (argv : list string) :
  (forall (cmd : option (cargs_cmd U)) av aa path st fuel,
     nth_error argv (ps_i st) = Some "--" ->
     scan_loop env cmd argv av aa path (S fuel) st =
     Some (ScanEnd (set_i (S (ps_i st)) st))) /\
  (forall fuel (cmd : cargs_cmd U) i path user log st,
     let root_level := (List.length path =? 0)%nat in
     scans_to env (Some cmd) argv root_level root_level path
       (cargs_apply_env_defaults_level getenv (cmd_opts cmd)
          (mk_pstate i (fun _ => 0) user log)) st ->
     nth_error argv (ps_i st) = Some "--" ->
     (nth_error argv (S (ps_i st)) = None \/
      exists tok, nth_error argv (S (ps_i st)) = Some tok /\
        (is_char (String.get 0 tok) "-" = true \/ cargs_find_sub cmd tok = None)) ->
     (forall g, 1 <= g <= 31 -> ~ violates (cmd_opts cmd) (ps_counts st) g) ->
     dispatch_loop getenv env argv (S fuel) cmd i path user log =
       Some (dispatch_leaf argv cmd (S (ps_i st)) path (ps_user st) (ps_log st)) /\
     (forall run,
        cmd_run cmd = Some run ->
        0 <= cargs_validate_positional (Some cmd)
               (Z.of_nat (List.length argv) - Z.of_nat (S (ps_i st))) ->
        exists d,
          dispatch_loop getenv env argv (S fuel) cmd i path user log = Some d /\
          d_log d = (ps_log st ++ [EvRun cmd (skipn (S (ps_i st)) argv)])%list /\
          (d_rc d, d_user d) = run (skipn (S (ps_i st)) argv) (ps_user st))).
Proof.
  assert (Hscan : forall (cmd : option (cargs_cmd U)) av aa path st fuel,
            nth_error argv (ps_i st) = Some "--" ->
            scan_loop env cmd argv av aa path (S fuel) st =
            Some (ScanEnd (set_i (S (ps_i st)) st))).
  { intros cmd av aa path st fuel Htok. apply scan_loop_first_Break.
    unfold scan_step. rewrite Htok. reflexivity. }
  split; [exact Hscan|].
  intros fuel cmd i path user log st root_level Hreach Htok Hnext Hgroups.
  assert (Hlevel : level_scan getenv env (Some cmd) argv root_level root_level path
                     i user log = Some (ScanEnd (set_i (S (ps_i st)) st))).
  { apply (scans_to_level_scan getenv env (Some cmd) argv root_level root_level path
             i user log st 1).
    - exact Hreach.
    - apply Hscan. exact Htok. }
  assert (Hloop : dispatch_loop getenv env argv (S fuel) cmd i path user log =
                  Some (dispatch_leaf argv cmd (S (ps_i st)) path
                          (ps_user st) (ps_log st))).
  { cbn [dispatch_loop]. fold root_level.
    destruct (level_of_ScanEnd _ _ _ _ _ _ _ _ _ _ _ Hlevel)
      as ([rc idx u lg] & -> & Hu & Hlg & Hrc).
    cbn [lvl_user lvl_log lvl_rc lvl_idx set_i ps_user ps_log ps_i ps_counts] in *.
    subst u lg.
    destruct Hrc as [(_ & _ & g & Hg & Hv)|(-> & -> & _)];
      [exfalso; exact (Hgroups g Hg Hv)|].
    change (CARGS_OK =? CARGS_DONE) with false.
    change (CARGS_OK <? 0) with false. cbv iota.
    destruct Hnext as [->|(tok & -> & [Hd|Hs])]; [reflexivity| |].
    - rewrite Hd. reflexivity.
    - rewrite Hs. destruct (is_char _ _); reflexivity. }
  split; [exact Hloop|].
  intros run Hrun Hpos. eexists. split; [exact Hloop|].
  unfold dispatch_leaf.
  destruct (Z.ltb_spec
              (cargs_validate_positional (Some cmd)
                 (Z.of_nat (List.length argv) - Z.of_nat (S (ps_i st)))) 0)
    as [Hneg|_]; [lia|].
  rewrite Hrun. destruct (run (skipn (S (ps_i st)) argv) (ps_user st)) as [rc u'].
  split; reflexivity.
Qed.

Lemma double_dash_ends_options_witness :
  dispatch_loop Sample.no_getenv Sample.test_env ["t"; "-V"; "--"; "--jobs"; "-x"] 6
    Sample.root 1 [] Sample.t0 [] =
  Some (mk_dispatch 0 (Sample.mk_tstate None None ["root"])
          [EvCallback Sample.o_verbose None;
           EvRun Sample.root ["--jobs"; "-x"]]).
Proof.
  refine (proj1 (proj2 (double_dash_ends_options Sample.tstate Sample.no_getenv
                          Sample.test_env ["t"; "-V"; "--"; "--jobs"; "-x"])
                   5%nat Sample.root 1%nat [] Sample.t0 []
                   (mk_pstate 2 (fun _ => 0) Sample.t0
                      [EvCallback Sample.o_verbose None])
                   _ eq_refl _ _)).
  - apply (scans_on _ _ _ _ _ _ _
             (mk_pstate 2 (fun _ => 0) Sample.t0 [EvCallback Sample.o_verbose None]));
      [reflexivity|].
    apply scans_here.
  - right. exists "--jobs". split; [reflexivity|]. left. reflexivity.
  - intros g Hg [[(o & Hin & Hgo & Hp) Hc]|[(o & Hin & Hgo & Hp) Hc]].
    + vm_compute in Hc. destruct (g =? 1); discriminate.
    + cbn in Hin. destruct Hin as [<-|[<-|[<-|[<-|[<-|[]]]]]]; discriminate.
Defined.
